(** * iterwrite: the adaptively aligned status-line formatter

    A shallow embedding of [iterwrite/iterwriter.py] (class [Iterwriter]),
    of the fragment of Python's [re] and [str.format] that it calls, and
    of the loop of the demonstration program [resources/model.py].

    Conventions.
    - A Python [str] is a [string]; one [ascii] stands for one code point
      (the embedding covers code points below 256).
    - A Python [int] is a [Z]; widths and precisions, which the code gets
      from [int] on a run of digits or from [len], are [nat].  A [float]
      is a [spec_float]: a sign, a mantissa and a binary exponent.
    - A Python [dict] read by key is a [gmap]; the keyword arguments of a
      call, which the code iterates in order, are an association list.
    - Code that mutates [self] and may raise is a function
      [Iterwriter -> result A * Iterwriter]: the second component is the
      object as the code leaves it, also when an exception propagates.
    - [str.format] is modelled on the templates the class builds: text,
      escaped braces and automatically numbered fields whose
      specification is a zero flag, a width, a precision and a type [d]
      or [f].  Any other template or specification gives
      [BeyondFragment]; the properties below do not depend on what Python
      does there. *)

From Stdlib Require Import ZArith NArith Ascii SpecFloat.
From Stdlib Require Import DecimalString DecimalNat DecimalPos DecimalN.
From Stdlib Require Import Sorted.
From stdpp Require Import gmap strings list.

Local Open Scope stdpp_scope.
Set Warnings "-clear-no-such-hyp".

(** ** Exceptions *)

Inductive exn_class :=
| ValueError | NotImplementedError | IndexError | KeyError
| OverflowError | TypeError.

(** One constructor per [raise] statement of [iterwriter.py], named after
    the error kind it signals, followed by the exceptions of the built-ins
    the code calls. *)
Inductive error :=
| NotString
| NoPattern
| MultiplePatterns
| UnsupportedType (base : string)
| PrecisionOnNonFloat
| MissingFields (missing : gset string)
| UnnamedFieldsUnsupported
(* built-ins *)
| StringIndex                       (* [""[-1]] *)
| MissingKey (key : string)         (* [d[key]] on an absent key *)
| SingleBrace                       (* a lone brace in a format string *)
| ReplacementIndex                  (* more fields than arguments *)
| UnknownFormatCode (code : ascii)  (* e.g. code [d] for a float *)
| PrecisionNotAllowed               (* a precision in an integer format *)
| IntTooLarge                       (* int to float conversion *)
| ListIndex                         (* [l[0]] on an empty list *)
| ExpectedString                    (* [re] applied to a non-string *)
| BeyondFragment.                   (* [str.format] input not covered here *)

Definition class_of (e : error) : option exn_class :=
  match e with
  | NotString | NoPattern | PrecisionOnNonFloat | MissingFields _ => Some ValueError
  | MultiplePatterns | UnsupportedType _ | UnnamedFieldsUnsupported =>
      Some NotImplementedError
  | StringIndex | ListIndex | ReplacementIndex => Some IndexError
  | MissingKey _ => Some KeyError
  | SingleBrace | UnknownFormatCode _ | PrecisionNotAllowed => Some ValueError
  | IntTooLarge => Some OverflowError
  | ExpectedString => Some TypeError
  | BeyondFragment => None
  end.

(** The error kinds that the class raises on purpose. *)
Definition documented (e : error) : bool :=
  match e with
  | NotString | NoPattern | MultiplePatterns | UnsupportedType _
  | PrecisionOnNonFloat | MissingFields _ | UnnamedFieldsUnsupported => true
  | _ => false
  end.

Inductive result (A : Type) :=
| Ok (a : A)
| Err (e : error).
Arguments Ok {A} a.
Arguments Err {A} e.

Definition rbind {A B} (r : result A) (k : A -> result B) : result B :=
  match r with
  | Ok a => k a
  | Err e => Err e
  end.

Definition rmap {A B} (f : A -> B) (r : result A) : result B :=
  rbind r (fun a => Ok (f a)).

Global Instance result_bind : MBind result := fun A B k r => rbind r k.
Global Instance result_ret : MRet result := @Ok.

(** ** Strings *)

Definition is_digit (c : ascii) : bool :=
  (48 <=? nat_of_ascii c)%nat && (nat_of_ascii c <=? 57)%nat.

Definition digit_val (c : ascii) : nat := nat_of_ascii c - 48.

Fixpoint all_chars (p : ascii -> bool) (s : string) : bool :=
  match s with
  | EmptyString => true
  | String c s' => p c && all_chars p s'
  end.

Definition is_brace (c : ascii) : bool :=
  if decide (c = "{"%char) then true
  else if decide (c = "}"%char) then true else false.

Definition brace_free : string -> bool := all_chars (fun c => negb (is_brace c)).

(** [s + c], for a capture that grows at its right end. *)
Definition snoc (s : string) (c : ascii) : string := s +:+ String c "".

(** [s[-1]]. *)
Fixpoint last_char (s : string) : result string :=
  match s with
  | EmptyString => Err StringIndex
  | String c EmptyString => Ok (String c "")
  | String _ s' => last_char s'
  end.

Fixpoint repeat_char (c : ascii) (n : nat) : string :=
  match n with
  | O => ""
  | S n' => String c (repeat_char c n')
  end.

(** [sep.join(parts)]. *)
Fixpoint join (sep : string) (parts : list string) : string :=
  match parts with
  | [] => ""
  | [p] => p
  | p :: ps => p +:+ sep +:+ join sep ps
  end.

(** [str(n)] for an integer: its decimal digits, after a minus sign when
    it is negative. *)
Definition str_N (n : N) : string := NilEmpty.string_of_uint (N.to_uint n).
Definition str_Z (n : Z) : string :=
  match n with
  | Zneg p => "-" +:+ str_N (Npos p)
  | _ => str_N (Z.to_N n)
  end.
Definition str_nat (n : nat) : string := str_Z (Z.of_nat n).

(** [int(s)] on a run of ASCII digits (what the two digit captures of
    [decompose_pattern] are). *)
Fixpoint int_acc (s : string) (acc : nat) : nat :=
  match s with
  | EmptyString => acc
  | String c s' => int_acc s' (10 * acc + digit_val c)
  end.
Definition int_of_digits (s : string) : nat := int_acc s 0.

(** ** The [re] calls

    [re.findall] and [re.sub] try the expression at each position from the
    left and resume after a match.  For the three expressions of the
    module one pass over the text does the same. *)

(** [PATTERN_REGEX] matches an opening brace, a run of characters other
    than braces (the group) and a closing brace.  An attempt that started
    at an opening brace fails exactly when the run meets another opening
    brace or the end of the text, and no attempt can succeed between the
    two, so the scan keeps at most one open attempt, [site]: the
    characters read since the last opening brace. *)
Fixpoint findall_sites (s : string) (site : option string) : list string :=
  match s with
  | EmptyString => []
  | String c s' =>
      if decide (c = "{"%char) then findall_sites s' (Some "")
      else if decide (c = "}"%char) then
        match site with
        | Some inner => inner :: findall_sites s' None
        | None => findall_sites s' None
        end
      else findall_sites s' (flip snoc c <$> site)
  end.

(** [re.findall(PATTERN_REGEX, message)]. *)
Definition findall_pattern (message : string) : list string :=
  findall_sites message None.

(** The text of an attempt that failed is copied unchanged. *)
Definition unmatched (site : option string) : string :=
  match site with
  | Some inner => String "{" inner
  | None => ""
  end.

Fixpoint sub_sites (repl s : string) (site : option string) : string :=
  match s with
  | EmptyString => unmatched site
  | String c s' =>
      if decide (c = "{"%char) then unmatched site +:+ sub_sites repl s' (Some "")
      else if decide (c = "}"%char) then
        match site with
        | Some _ => repl +:+ sub_sites repl s' None
        | None => String c (sub_sites repl s' None)
        end
      else
        match site with
        | Some inner => sub_sites repl s' (Some (snoc inner c))
        | None => String c (sub_sites repl s' None)
        end
  end.

(** [re.sub(PATTERN_REGEX, repl, message)], for a replacement text without
    backslashes. *)
Definition sub_pattern (repl message : string) : string :=
  sub_sites repl message None.

(** The two expressions of [decompose_pattern] match a character [lead]
    (a colon, a dot) followed by a non-empty, maximal run of ASCII digits
    (the group).  [run] holds the digits read since a [lead]; a [lead] is
    not a digit, so a run never contains the start of another match. *)
Definition flush (run : option string) : list string :=
  match run with
  | Some (String c ds) => [String c ds]
  | _ => []
  end.

Fixpoint findall_digits (lead : ascii) (s : string) (run : option string)
  : list string :=
  match s with
  | EmptyString => flush run
  | String c s' =>
      let restart := if decide (c = lead) then Some "" else None in
      match run with
      | Some ds =>
          if is_digit c then findall_digits lead s' (Some (snoc ds c))
          else flush run ++ findall_digits lead s' restart
      | None => findall_digits lead s' restart
      end
  end.

(** [re.findall(lead + "([0-9]+)", pattern)]. *)
Definition findall_number (lead : ascii) (pattern : string) : list string :=
  findall_digits lead pattern None.

(** ** Values and [str.format] *)

(** The objects a caller passes: text, integers and binary floating-point
    numbers (a sign, a mantissa and a binary exponent). *)
Inductive value :=
| VStr (s : string)
| VInt (n : Z)
| VFloat (x : spec_float).

(** A format specification [[0][width][.precision][type]]: the part of the
    format-specification language that [compose_pattern] can emit. *)
Record format_spec := {
  zero_fill : bool;
  width : option nat;
  precision : option nat;
  type_code : option ascii
}.

(** Splits a maximal prefix of digits off [s]. *)
Fixpoint span_digits (s : string) : string * string :=
  match s with
  | String c s' =>
      if is_digit c then let '(ds, rest) := span_digits s' in (String c ds, rest)
      else ("", s)
  | EmptyString => ("", "")
  end.

Definition number_of (ds : string) : option nat :=
  match ds with
  | EmptyString => None
  | _ => Some (int_of_digits ds)
  end.

Definition parse_type (s : string) : result (option ascii) :=
  match s with
  | EmptyString => Ok None
  | String c EmptyString => Ok (Some c)
  | _ => Err BeyondFragment
  end.

(** The zero flag: a [0] before the width. *)
Definition parse_zero (spec : string) : bool * string :=
  match spec with
  | String c s => if decide (c = "0"%char) then (true, s) else (false, spec)
  | EmptyString => (false, spec)
  end.

(** A dot and the digits after it. *)
Definition parse_precision (s : string) : option (option nat) * string :=
  match s with
  | String c s' =>
      if decide (c = "."%char) then
        let '(ps, s'') := span_digits s' in (Some (number_of ps), s'')
      else (None, s)
  | EmptyString => (None, s)
  end.

Definition parse_spec (spec : string) : result format_spec :=
  let '(zero, s) := parse_zero spec in
  let '(ws, s) := span_digits s in
  let '(prec, s) := parse_precision s in
  ty ← parse_type s;
  match prec with
  | Some None => Err BeyondFragment
  | Some (Some p) =>
      Ok {| zero_fill := zero; width := number_of ws;
            precision := Some p; type_code := ty |}
  | None =>
      Ok {| zero_fill := zero; width := number_of ws;
            precision := None; type_code := ty |}
  end.

(** Numbers are right-aligned; with the zero flag the padding goes between
    the sign and the digits. *)
Definition pad_number (fs : format_spec) (sign body : string) : string :=
  let n := String.length sign + String.length body in
  match width fs with
  | Some w =>
      if zero_fill fs then sign +:+ repeat_char "0" (w - n) +:+ body
      else repeat_char " " (w - n) +:+ sign +:+ body
  | None => sign +:+ body
  end.

Definition sign_of (negative : bool) : string := if negative then "-" else "".

(** [num / den] rounded to the nearest integer, ties to even. *)
Definition round_half_even (num den : N) : N :=
  let q := (num / den)%N in
  let r := (num mod den)%N in
  match (2 * r ?= den)%N with
  | Lt => q
  | Gt => (q + 1)%N
  | Eq => if N.even q then q else (q + 1)%N
  end.

(** [m * 2^e * 10^prec], rounded: the digits of the fixed-point notation. *)
Definition scaled (m : positive) (e : Z) (prec : nat) : N :=
  let p10 := (10 ^ N.of_nat prec)%N in
  match e with
  | Zneg k => round_half_even (Npos m * p10) (2 ^ Npos k)
  | _ => (Npos m * 2 ^ Z.to_N e * p10)%N
  end.

Definition fixed_digits (n : N) (prec : nat) : string :=
  let ds := str_N n in
  let ds := repeat_char "0" (S prec - String.length ds) +:+ ds in
  let k := String.length ds - prec in
  match prec with
  | O => ds
  | _ => String.substring 0 k ds +:+ "." +:+ String.substring k prec ds
  end.

(** Type [f]: sign and body of a float in fixed-point notation. *)
Definition float_fixed (x : spec_float) (prec : nat) : string * string :=
  match x with
  | S754_zero s => (sign_of s, fixed_digits 0 prec)
  | S754_infinity s => (sign_of s, "inf")
  | S754_nan => ("", "nan")
  | S754_finite s m e => (sign_of s, fixed_digits (scaled m e prec) prec)
  end.

(** [float(n)] for an integer: the nearest number with a 53-bit mantissa,
    ties to even; an overflow past the largest double raises. *)
Definition float_of_pos (s : bool) (p : positive) : result spec_float :=
  let bits := N.size (Npos p) in
  if (bits <=? 53)%N then Ok (S754_finite s p 0)
  else
    let sh := (bits - 53)%N in
    match round_half_even (Npos p) (2 ^ sh) with
    | Npos q =>
        if (2 ^ 1024 <=? Npos q * 2 ^ sh)%N then Err IntTooLarge
        else Ok (S754_finite s q (Z.of_N sh))
    | N0 => Err IntTooLarge
    end.

Definition float_of_int (n : Z) : result spec_float :=
  match n with
  | Z0 => Ok (S754_zero false)
  | Zpos p => float_of_pos false p
  | Zneg p => float_of_pos true p
  end.

Definition default_precision : nat := 6.

Definition format_fixed (fs : format_spec) (x : spec_float) : string :=
  let '(sign, body) := float_fixed x (default default_precision (precision fs)) in
  pad_number fs sign body.

(** [format(v, spec)] for a non-empty [spec]. *)
Definition format_spec_value (fs : format_spec) (v : value) : result string :=
  let code c := bool_decide (type_code fs = Some c) in
  match v with
  | VInt n =>
      if bool_decide (type_code fs = None) || code "d"%char then
        match precision fs with
        | Some _ => Err PrecisionNotAllowed
        | None => Ok (pad_number fs (sign_of (n <? 0)%Z) (str_N (Z.abs_N n)))
        end
      else if code "f"%char then x ← float_of_int n; Ok (format_fixed fs x)
      else Err BeyondFragment
  | VFloat x =>
      if code "f"%char then Ok (format_fixed fs x)
      else if code "d"%char then Err (UnknownFormatCode "d")
      else Err BeyondFragment
  | VStr _ =>
      if code "d"%char then Err (UnknownFormatCode "d")
      else if code "f"%char then Err (UnknownFormatCode "f")
      else Err BeyondFragment
  end.

(** [format(v, spec)]. *)
Definition format_value (v : value) (spec : string) : result string :=
  match spec with
  | EmptyString =>
      match v with
      | VStr s => Ok s
      | VInt n => Ok (str_Z n)
      | VFloat _ => Err BeyondFragment
      end
  | _ => fs ← parse_spec spec; format_spec_value fs v
  end.

(** A replacement field [{}] or [{:spec}] applied to its argument. *)
Definition format_field (field : string) (v : value) : result string :=
  match field with
  | EmptyString => format_value v ""
  | String c spec =>
      if decide (c = ":"%char) then format_value v spec else Err BeyondFragment
  end.

(** [template.format( *args )] for templates made of text, the escapes
    [{{] and [}}], and automatically numbered fields [{}] and [{:spec}].
    [field] holds the text read since the opening brace of a field. *)
Fixpoint format_go (t : string) (field : option string) (args : list value)
  : result string :=
  match field, t with
  | None, EmptyString => Ok ""
  | None, String c t' =>
      if decide (c = "{"%char) then
        match t' with
        | EmptyString => Err SingleBrace
        | String c' t'' =>
            if decide (c' = "{"%char) then rmap (String c) (format_go t'' None args)
            else format_go t' (Some "") args
        end
      else if decide (c = "}"%char) then
        match t' with
        | EmptyString => Err SingleBrace
        | String c' t'' =>
            if decide (c' = "}"%char) then rmap (String c) (format_go t'' None args)
            else Err SingleBrace
        end
      else rmap (String c) (format_go t' None args)
  | Some _, EmptyString => Err BeyondFragment
  | Some f, String c t' =>
      if decide (c = "}"%char) then
        match args with
        | [] => Err ReplacementIndex
        | v :: args' =>
            s ← format_field f v;
            rmap (String.append s) (format_go t' None args')
        end
      else if decide (c = "{"%char) then Err BeyondFragment
      else format_go t' (Some (snoc f c)) args
  end.

Definition str_format (template : string) (args : list value) : result string :=
  format_go template None args.


(** ** The class [Iterwriter] *)

Record Iterwriter := {
  sep : string;
  names : list string;
  messages : gmap string string;
  bases : gmap string string;
  pad_lengths : gmap string nat;
  decimals : gmap string (option nat)
}.

Definition set_names (f : list string -> list string) (self : Iterwriter) :=
  {| sep := sep self; names := f (names self); messages := messages self;
     bases := bases self; pad_lengths := pad_lengths self;
     decimals := decimals self |}.
Definition set_messages (name message : string) (self : Iterwriter) :=
  {| sep := sep self; names := names self;
     messages := <[name := message]> (messages self);
     bases := bases self; pad_lengths := pad_lengths self;
     decimals := decimals self |}.
Definition set_bases (name base : string) (self : Iterwriter) :=
  {| sep := sep self; names := names self; messages := messages self;
     bases := <[name := base]> (bases self); pad_lengths := pad_lengths self;
     decimals := decimals self |}.
Definition set_pad_lengths (name : string) (n : nat) (self : Iterwriter) :=
  {| sep := sep self; names := names self; messages := messages self;
     bases := bases self; pad_lengths := <[name := n]> (pad_lengths self);
     decimals := decimals self |}.
Definition set_decimals (name : string) (d : option nat) (self : Iterwriter) :=
  {| sep := sep self; names := names self; messages := messages self;
     bases := bases self; pad_lengths := pad_lengths self;
     decimals := <[name := d]> (decimals self) |}.

(** A method body: it reads and updates [self] and returns or raises. *)
Definition M (A : Type) : Type := Iterwriter -> result A * Iterwriter.

Definition ret {A} (a : A) : M A := fun self => (Ok a, self).
Definition raise {A} (e : error) : M A := fun self => (Err e, self).
Definition lift {A} (r : result A) : M A := fun self => (r, self).
Definition bind {A B} (m : M A) (k : A -> M B) : M B :=
  fun self =>
    match m self with
    | (Ok a, self') => k a self'
    | (Err e, self') => (Err e, self')
    end.
Definition update (f : Iterwriter -> Iterwriter) : M unit :=
  fun self => (Ok tt, f self).
Definition attr {A} (field : Iterwriter -> A) : M A :=
  fun self => (Ok (field self), self).

(** [d[key]]. *)
Definition item {V} (d : gmap string V) (key : string) : result V :=
  match d !! key with
  | Some v => Ok v
  | None => Err (MissingKey key)
  end.
(** [self.field[key]]. *)
Definition getitem {V} (field : Iterwriter -> gmap string V) (key : string)
  : M V :=
  fun self => (item (field self) key, self).

(** [l[0]]. *)
Definition item0 {A} (l : list A) : result A :=
  match l with
  | x :: _ => Ok x
  | [] => Err ListIndex
  end.

Global Instance method_bind : MBind M := fun A B k m => bind m k.
Global Instance method_ret : MRet M := @ret.

(** [for x in l: acc = body(acc, x)]. *)
Fixpoint for_each {A B} (body : B -> A -> M B) (l : list A) (acc : B) : M B :=
  match l with
  | [] => ret acc
  | x :: l' => bind (body acc x) (for_each body l')
  end.

(** *** Static methods *)

Definition decompose_pattern (pattern : string)
  : result (string * option nat * option nat) :=
  base ← last_char pattern;
  let pad_length_all := findall_number ":" pattern in
  let decimal_all := findall_number "." pattern in
  let pad_length :=
    match pad_length_all with
    | x :: _ => Some (int_of_digits x)
    | [] => None
    end in
  let decimal :=
    match decimal_all with
    | x :: _ => Some (int_of_digits x)
    | [] => None
    end in
  Ok (base, pad_length, decimal).

Definition compose_pattern (base : option string) (pad_length decimal : option nat)
  : result string :=
  let base := VStr (default "" base) in
  let pad_length :=
    match pad_length with
    | None => VStr ""
    | Some n => VInt (Z.of_nat n)
    end in
  match decimal with
  | None => str_format "{{:{}{}}}" [pad_length; base]
  | Some d => str_format "{{:{}.{}{}}}" [pad_length; VInt (Z.of_nat d); base]
  end.

Definition validate_message (message : value) : result bool :=
  match message with
  | VStr message =>
      let patterns := findall_pattern message in
      if (length patterns <? 1)%nat then Err NoPattern
      else if (1 <? length patterns)%nat then Err MultiplePatterns
      else
        pattern ← item0 patterns;
        '(base, pad_length, decimals) ← decompose_pattern pattern;
        if negb (bool_decide (base ∈ ["d"; "f"])) then Err (UnsupportedType base)
        else
          match decimals with
          | Some _ =>
              if negb (bool_decide (base = "f")) then Err PrecisionOnNonFloat
              else Ok true
          | None => Ok true
          end
  | _ => Err NotString
  end.

(** *** Methods *)

Definition add_message (name : string) (message : value) : M unit :=
  lift (validate_message message);;
  update (fun self =>
    if bool_decide (name ∈ names self) then self
    else set_names (fun l => l ++ [name]) self);;
  match message with
  | VStr message =>
      let patterns := findall_pattern message in
      let message := sub_pattern "{}" message in
      pattern ← lift (item0 patterns);
      '(base, pad_length, decimal) ← lift (decompose_pattern pattern);
      update (set_messages name message);;
      update (set_bases name base);;
      update (set_pad_lengths name (default 0 pad_length));;
      update (set_decimals name decimal)
  | _ => raise ExpectedString
  end.

(** The pattern of a field, from the three dictionaries. *)
Definition field_pattern (name : string) : M string :=
  base ← getitem bases name;
  pad_length ← getitem pad_lengths name;
  decimal ← getitem decimals name;
  lift (compose_pattern (Some base) (Some pad_length) decimal).

(** The body of the loop of [format] over [kwargs.items()]. *)
Definition format_item (composed_elements : gmap string string)
    (kv : string * value) : M (gmap string string) :=
  let '(name, value) := kv in
  pattern ← field_pattern name;
  rendered ← lift (str_format pattern [value]);
  let composed_len := String.length rendered in
  pad_length ← getitem pad_lengths name;
  pattern ←
    (if (pad_length <? composed_len)%nat then
       update (set_pad_lengths name (pad_length `max` composed_len));;
       field_pattern name
     else ret pattern);
  rendered ← lift (str_format pattern [value]);
  ret (<[name := rendered]> composed_elements).

(** The dictionary [messages] that [format] builds before joining. *)
Definition literal_item (composed_elements acc : gmap string string)
    (name : string) : M (gmap string string) :=
  message ← getitem messages name;
  element ← lift (item composed_elements name);
  literal ← lift (str_format message [VStr element]);
  ret (<[name := literal]> acc).

(** The loop of [format]: the rendered value of each supplied name. *)
Definition render_values (kwargs : list (string * value))
  : M (gmap string string) :=
  for_each format_item kwargs ∅.

Definition format (kwargs : list (string * value)) : M string :=
  composed_elements ← render_values kwargs;
  names_ ← attr names;
  (if existsb (fun name => bool_decide (name ∉ dom composed_elements)) names_
   then raise (MissingFields (list_to_set names_ ∖ dom composed_elements))
   else ret tt);;
  literals ← for_each (literal_item composed_elements) names_ ∅;
  parts ← for_each (fun parts name =>
             literal ← lift (item literals name);
             ret (parts ++ [literal])) names_ [];
  sep_ ← attr sep;
  ret (join sep_ parts).

(** [Iterwriter( *args, sep=sep, **kwargs)]: the object, unless the
    constructor raises. *)
Definition init (args : list value) (sep : string)
    (kwargs : list (string * value)) : result Iterwriter :=
  if (0 <? length args)%nat then Err UnnamedFieldsUnsupported
  else
    let self :=
      {| sep := sep; names := kwargs.*1; messages := ∅; bases := ∅;
         pad_lengths := ∅; decimals := ∅ |} in
    match for_each (fun _ kv => add_message kv.1 kv.2) kwargs tt self with
    | (Ok _, self) => Ok self
    | (Err e, _) => Err e
    end.


(** ** Reference definitions, in the words of the specification *)

(** The canonical pattern: the minimum width, then a dot and the precision
    when a precision is set, then the type tag, between [{:] and [}]. *)
Definition canonical_pattern (typeTag : option string)
    (minWidth precision : option nat) : string :=
  "{:" +:+ from_option str_nat "" minWidth
       +:+ from_option (fun d => "." +:+ str_nat d) "" precision
       +:+ default "" typeTag +:+ "}".

(** The text between the braces of a canonical pattern. *)
Definition canonical_inner (typeTag : string) (minWidth precision : option nat)
  : string :=
  ":" +:+ from_option str_nat "" minWidth
      +:+ from_option (fun d => "." +:+ str_nat d) "" precision +:+ typeTag.

(** [s], right-aligned in a field of width [w]. *)
Definition lpad (w : nat) (s : string) : string :=
  repeat_char " " (w - String.length s) +:+ s.

(** The triples of the float-only-precision rule. *)
Definition valid_triple (typeTag : string) (minWidth precision : option nat)
  : bool :=
  bool_decide (typeTag ∈ ["d"; "f"]) &&
  match precision with
  | Some _ => bool_decide (typeTag = "f")
  | None => true
  end.

(** ** Lifetimes *)

(** The calls a client makes on a formatter after constructing it. *)
Inductive call :=
| Format (kwargs : list (string * value))
| AddMessage (name : string) (message : value).

(** The object after a call, whether the call returned or raised. *)
Definition run_call (self : Iterwriter) (c : call) : Iterwriter :=
  match c with
  | Format kwargs => (format kwargs self).2
  | AddMessage name message => (add_message name message self).2
  end.

Definition run_calls (self : Iterwriter) (calls : list call) : Iterwriter :=
  foldl run_call self calls.

(** A call that registers [name] again. *)
Definition registers (name : string) (c : call) : bool :=
  match c with
  | AddMessage name' _ => bool_decide (name' = name)
  | Format _ => false
  end.

(** The four dictionaries have the keys [keys], and every stored type is
    one of the two supported ones. *)
Definition stored (keys : gset string) (self : Iterwriter) : Prop :=
  dom (messages self) = keys /\
  dom (bases self) = keys /\
  dom (pad_lengths self) = keys /\
  dom (decimals self) = keys /\
  map_Forall (fun _ base => base ∈ ["d"; "f"]) (bases self).

(** The invariant of the objects that the constructor builds: the
    registered names are listed once each and are the keys of the four
    dictionaries. *)
Definition valid (self : Iterwriter) : Prop :=
  NoDup (names self) /\ stored (list_to_set (names self)) self.

Global Instance valid_dec self : Decision (valid self).
Proof. unfold valid, stored. apply _. Defined.

(** The objects a client can hold: built by the constructor from keyword
    arguments, then used through [add_message] and [format]. *)
Definition reachable (self : Iterwriter) : Prop :=
  exists sep kwargs self0 calls,
    NoDup kwargs.*1 /\ init [] sep kwargs = Ok self0 /\
    self = run_calls self0 calls.

(** The object after [add_message] has stored a validated message. *)
Definition register (name message base : string) (pad : nat)
    (dec : option nat) (self : Iterwriter) : Iterwriter :=
  set_decimals name dec
    (set_pad_lengths name pad
       (set_bases name base
          (set_messages name message
             (if bool_decide (name ∈ names self) then self
              else set_names (fun l => l ++ [name]) self)))).

(** What the loop of [format] does for one name, from the stored triple:
    the rendered value and the width to store. *)
Definition render_field (base : string) (pad : nat) (dec : option nat)
    (v : value) : result (string * nat) :=
  rendered ← str_format (canonical_pattern (Some base) (Some pad) dec) [v];
  if (pad <? String.length rendered)%nat then
    let pad' := pad `max` String.length rendered in
    rendered' ← str_format (canonical_pattern (Some base) (Some pad') dec) [v];
    Ok (rendered', pad')
  else Ok (rendered, pad).

(** The literal text of a field: its stored message applied to its
    rendered value. *)
Definition literal_of (self : Iterwriter) (composed_elements : gmap string string)
    (name : string) : result string :=
  message ← item (messages self) name;
  element ← item composed_elements name;
  str_format message [VStr element].

(** What a [format] call may do to the object: it only raises stored
    widths. *)
Definition grows (self self' : Iterwriter) : Prop :=
  sep self' = sep self /\ names self' = names self /\
  messages self' = messages self /\ bases self' = bases self /\
  decimals self' = decimals self /\
  forall name,
    match pad_lengths self !! name, pad_lengths self' !! name with
    | Some n, Some n' => n <= n'
    | None, None => True
    | _, _ => False
    end.

(** The pattern at width 0 gives the natural rendering of a value. *)
Definition natural (base : string) (decimal : option nat) (v : value)
  : result string :=
  pattern ← compose_pattern (Some base) (Some 0) decimal;
  str_format pattern [v].

(** Every supplied name is registered and its value can be rendered. *)
Definition renderable (self : Iterwriter) (kv : string * value) : bool :=
  match bases self !! kv.1, decimals self !! kv.1 with
  | Some base, Some decimal =>
      match natural base decimal kv.2 with
      | Ok _ => true
      | Err _ => false
      end
  | _, _ => false
  end.

(** ** Example objects *)

(** [Iterwriter(sep=" | ", count="count:{:4d}")]. *)
Definition counter : Iterwriter :=
  {| sep := " | "; names := ["count"];
     messages := {["count" := "count:{}"]}; bases := {["count" := "d"]};
     pad_lengths := {["count" := 4]}; decimals := {["count" := None]} |}.

(** [Iterwriter(sep=" | ", a="{:3d}", b="{:3d}")]. *)
Definition pair : Iterwriter :=
  {| sep := " | "; names := ["a"; "b"];
     messages := {["a" := "{}"; "b" := "{}"]};
     bases := {["a" := "d"; "b" := "d"]};
     pad_lengths := {["a" := 3; "b" := 3]};
     decimals := {["a" := None; "b" := None]} |}.

(** The float [1.5]. *)
Definition one_and_a_half : spec_float := S754_finite false 3 (-1).

(** ** Further notions *)

(** The rule of [validate_message] for precisions, on a whole object: a
    precision is stored only for a field of type [f]. *)
Definition precise (self : Iterwriter) : Prop :=
  map_Forall (fun name decimal => is_Some decimal -> bases self !! name = Some "f")
    (decimals self).

Global Instance precise_dec self : Decision (precise self).
Proof. unfold precise. apply _. Defined.

(** The values a field takes without raising: an [int] for type [d]; a
    [float], or an [int] that [float] converts, for type [f]. *)
Definition accepts (base : string) (v : value) : bool :=
  match v with
  | VInt n =>
      bool_decide (base = "d") ||
      (bool_decide (base = "f") &&
       match float_of_int n with Ok _ => true | Err _ => false end)
  | VFloat _ => bool_decide (base = "f")
  | VStr _ => false
  end.

(** A keyword argument for a registered name, with a value that the
    field takes. *)
Definition well_typed (self : Iterwriter) (kv : string * value) : bool :=
  match bases self !! kv.1 with
  | Some base => accepts base kv.2
  | None => false
  end.

(** A stored message that [str.format] applies to one text. *)
Definition formattable (message : string) : bool :=
  match str_format message [VStr ""] with
  | Ok _ => true
  | Err _ => false
  end.

(** A value whose natural rendering is no longer than the stored width of
    its field. *)
Definition fits (self : Iterwriter) (kv : string * value) : bool :=
  match bases self !! kv.1, pad_lengths self !! kv.1, decimals self !! kv.1 with
  | Some base, Some pad, Some decimal =>
      match natural base decimal kv.2 with
      | Ok s => (String.length s <=? pad)%nat
      | Err _ => false
      end
  | _, _, _ => false
  end.

Definition is_format (c : call) : bool :=
  match c with
  | Format _ => true
  | AddMessage _ _ => false
  end.

(** The loop of the constructor: [add_message] for each keyword argument,
    in order, until one raises. *)
Definition add_messages (kwargs : list (string * value)) : M unit :=
  for_each (fun _ kv => add_message kv.1 kv.2) kwargs tt.

(** Two results of one template applied to the texts [e] and [e']: the
    same error, or two outputs that are equal, or differ by [e'] in the
    place of [e]. *)
Definition same_shape (e e' : string) (r r' : result string) : Prop :=
  match r, r' with
  | Ok o, Ok o' =>
      o = o' \/
      String.length o + String.length e' = String.length o' + String.length e
  | Err x, Err x' => x = x'
  | _, _ => False
  end.

(** The format specification of a pattern: the width, a dot and the
    precision, the type; the canonical pattern puts it between [{:] and
    [}]. *)
Definition spec_text (typeTag : string) (minWidth precision : option nat)
  : string :=
  from_option str_nat "" minWidth
    +:+ from_option (fun d => "." +:+ str_nat d) "" precision +:+ typeTag.

(** A message in the form the documentation shows: text without braces,
    one canonical pattern, text without braces. *)
Record plain := {
  plain_pre : string;
  plain_type : string;
  plain_width : option nat;
  plain_precision : option nat;
  plain_suf : string
}.

Definition plain_ok (m : plain) : bool :=
  brace_free (plain_pre m) && brace_free (plain_suf m) &&
  valid_triple (plain_type m) (plain_width m) (plain_precision m).

Definition plain_text (m : plain) : string :=
  plain_pre m
    +:+ canonical_pattern (Some (plain_type m)) (plain_width m) (plain_precision m)
    +:+ plain_suf m.

(** [[f(x) for x in l]]: the results in order, or the first exception. *)
Fixpoint collect {A B} (f : A -> result B) (l : list A) : result (list B) :=
  match l with
  | [] => Ok []
  | x :: l' => y ← f x; ys ← collect f l'; Ok (y :: ys)
  end.

(** The object after [add_message] has stored a plain message. *)
Definition register_plain (self : Iterwriter) (field : string * plain)
  : Iterwriter :=
  register field.1 (plain_pre field.2 +:+ "{}" +:+ plain_suf field.2)
    (plain_type field.2) (default 0 (plain_width field.2))
    (plain_precision field.2) self.

(** The keyword arguments that declare the fields [fields]. *)
Definition declare (fields : list (string * plain)) : list (string * value) :=
  (fun field => (field.1, VStr (plain_text field.2))) <$> fields.

(** The natural rendering of a value for a declared field. *)
Definition natural_of (fv : string * plain * value) : result string :=
  natural (plain_type fv.1.2) (plain_precision fv.1.2) fv.2.

(** The rendered value of a declared field, right-aligned in its declared
    width. *)
Definition aligned (fr : string * plain * string) : string :=
  lpad (default 0 (plain_width fr.1.2)) fr.2.

(** The text that a declared field contributes to a line. *)
Definition line_of (fr : string * plain * string) : string :=
  plain_pre fr.1.2 +:+ aligned fr +:+ plain_suf fr.1.2.

(** ** The demonstration program [resources/model.py]

    With its option [--iterwrite] the program builds one writer and, in a
    loop over [range(iter_count)], computes two floats from random draws
    and prints [writer.format(...)] every tenth iteration.  The random
    draws and the rounding are not modelled: [draws] holds, for each
    iteration, the floats [delta] and [running_value] that the program
    has computed.  The separator of the writer, the default of the
    constructor in the program, is a parameter here. *)
Definition model_writer (sep_ : string) : result Iterwriter :=
  init [] sep_ [("iter", VStr "    Iteration: {:d}");
                ("value", VStr "value: {:f}");
                ("delta", VStr "delta: {:f}")].

Definition model_values (iter : Z) (running_value delta : spec_float)
  : list (string * value) :=
  [("iter", VInt (iter + 1)); ("value", VFloat running_value);
   ("delta", VFloat delta)].

(** The lines that the loop prints from iteration [iter] on, or the
    exception that stops it. *)
Fixpoint model_loop (writer : Iterwriter) (iter : Z)
    (draws : list (spec_float * spec_float)) : result (list string) :=
  match draws with
  | [] => Ok []
  | (delta, running_value) :: draws' =>
      if (iter mod 10 =? 0)%Z then
        match format (model_values iter running_value delta) writer with
        | (Ok line, writer') =>
            rmap (cons line) (model_loop writer' (iter + 1) draws')
        | (Err e, _) => Err e
        end
      else model_loop writer (iter + 1) draws'
  end.

Definition model_run (sep_ : string) (draws : list (spec_float * spec_float))
  : result (list string) :=
  writer ← model_writer sep_; model_loop writer 0 draws.

(** ** More example objects *)

(** [Iterwriter(sep=" | ", delta="value += {:.2f}")]. *)
Definition gauge : Iterwriter :=
  {| sep := " | "; names := ["delta"];
     messages := {["delta" := "value += {}"]}; bases := {["delta" := "f"]};
     pad_lengths := {["delta" := 0]}; decimals := {["delta" := Some 2]} |}.

(** [Iterwriter(sep=" | ")]. *)
Definition blank : Iterwriter :=
  {| sep := " | "; names := []; messages := ∅; bases := ∅;
     pad_lengths := ∅; decimals := ∅ |}.

(** The float [0.05]. *)
Definition a_twentieth : spec_float := S754_finite false 0x1999999999999a (-57).

(** * Properties *)

(** ** Strings and decimal numerals *)

Local Arguments String.append !_ _ : simpl nomatch.

Lemma append_assoc (s1 s2 s3 : string) :
  (s1 +:+ s2) +:+ s3 = s1 +:+ (s2 +:+ s3).
Proof. induction s1 as [|c s1 IH]; simpl; [done | by rewrite IH]. Qed.

Lemma append_nil_r (s : string) : s +:+ "" = s.
Proof. induction s as [|c s IH]; simpl; [done | by rewrite IH]. Qed.

Lemma length_append (s1 s2 : string) :
  String.length (s1 +:+ s2) = String.length s1 + String.length s2.
Proof. induction s1 as [|c s1 IH]; simpl; [done | by rewrite IH]. Qed.

Lemma length_repeat_char c n : String.length (repeat_char c n) = n.
Proof. induction n as [|n IH]; simpl; [done | by rewrite IH]. Qed.

Lemma snoc_append s c t : snoc s c +:+ t = s +:+ String c t.
Proof. unfold snoc. by rewrite append_assoc. Qed.

Lemma all_chars_append p s1 s2 :
  all_chars p (s1 +:+ s2) = all_chars p s1 && all_chars p s2.
Proof.
  induction s1 as [|c s1 IH]; simpl; [done |].
  by rewrite IH, andb_assoc.
Qed.

Lemma string_of_uint_digits d :
  all_chars is_digit (NilEmpty.string_of_uint d) = true.
Proof. induction d; simpl; auto. Qed.

Lemma int_acc_string_of_uint d acc :
  int_acc (NilEmpty.string_of_uint d) acc = Nat.of_uint_acc d acc.
Proof.
  revert acc. induction d; intros acc; simpl NilEmpty.string_of_uint;
    cbn [int_acc Nat.of_uint_acc]; [done | ..];
    rewrite IHd, Nat.tail_mul_spec; f_equal; unfold digit_val; simpl; lia.
Qed.

Lemma of_lu_N_nat d :
  N.to_nat (DecimalPos.Unsigned.of_lu d) = DecimalNat.Unsigned.of_lu d.
Proof.
  induction d; cbn [DecimalPos.Unsigned.of_lu DecimalNat.Unsigned.of_lu];
    [done | ..]; rewrite <- IHd; lia.
Qed.

Lemma of_uint_N_nat d : Nat.of_uint d = N.to_nat (N.of_uint d).
Proof.
  unfold N.of_uint.
  by rewrite DecimalNat.Unsigned.of_uint_alt, DecimalPos.Unsigned.of_uint_alt,
    of_lu_N_nat.
Qed.

Lemma str_nat_N n : str_nat n = str_N (N.of_nat n).
Proof. unfold str_nat, str_Z. by destruct n. Qed.

Lemma int_of_digits_str_nat n : int_of_digits (str_nat n) = n.
Proof.
  rewrite str_nat_N. unfold int_of_digits, str_N.
  rewrite int_acc_string_of_uint.
  change (Nat.of_uint (N.to_uint (N.of_nat n)) = n).
  rewrite of_uint_N_nat, DecimalN.Unsigned.of_to. lia.
Qed.

Lemma str_nat_digits n : all_chars is_digit (str_nat n) = true.
Proof. rewrite str_nat_N. apply string_of_uint_digits. Qed.

Lemma unorm_D0 d d' : Decimal.unorm d = Decimal.D0 d' -> d' = Decimal.Nil.
Proof. induction d; simpl; try done. by intros [= <-]. Qed.

(** [str(0)] is the digit zero; no other numeral starts with it. *)
Lemma str_nat_head n :
  match str_nat n with
  | String c s => if decide (c = "0"%char) then n = 0 /\ s = "" else 0 < n
  | EmptyString => False
  end.
Proof.
  rewrite str_nat_N. unfold str_N.
  pose proof (DecimalN.Unsigned.to_of (N.to_uint (N.of_nat n))) as Hn.
  rewrite DecimalN.Unsigned.of_to in Hn.
  destruct (N.to_uint (N.of_nat n)) as [|d|d|d|d|d|d|d|d|d|d] eqn:E;
    simpl; try (destruct n; [by vm_compute in E | lia]).
  - destruct (N.of_nat n); [done |]. by apply DecimalPos.Unsigned.to_uint_nonnil in E.
  - symmetry in Hn. apply unorm_D0 in Hn as ->. split; [| done].
    assert (N.of_nat n = 0%N) by (by apply DecimalN.Unsigned.to_uint_inj). lia.
Qed.

Lemma last_char_snoc s c : last_char (s +:+ String c "") = Ok (String c "").
Proof.
  induction s as [|c' s IH]; simpl; [done |].
  rewrite IH. by destruct s.
Qed.

(** ** The scanners *)

Lemma is_brace_false c :
  is_brace c = false -> c <> "{"%char /\ c <> "}"%char.
Proof. unfold is_brace. repeat case_decide; naive_solver. Qed.

Lemma findall_sites_text t s site :
  brace_free t = true ->
  findall_sites (t +:+ s) site =
  findall_sites s ((fun inner => inner +:+ t) <$> site).
Proof.
  revert site. induction t as [|c t IH]; intros site Ht; simpl.
  - f_equal. destruct site; simpl; [by rewrite append_nil_r | done].
  - simpl in Ht. apply andb_true_iff in Ht as [Hc Ht].
    apply negb_true_iff, is_brace_false in Hc as [? ?].
    rewrite !decide_False by done. rewrite IH by done.
    f_equal. destruct site; simpl; [| done].
    by rewrite snoc_append.
Qed.

(** The leftmost match: text without an opening brace, then a site. *)
Lemma findall_sites_site inner s site :
  brace_free inner = true ->
  findall_sites (String "{" (inner +:+ String "}" s)) site =
  inner :: findall_sites s None.
Proof.
  intros Hi. simpl. by rewrite findall_sites_text.
Qed.

Lemma findall_pattern_text t : brace_free t = true -> findall_pattern t = [].
Proof.
  intros Ht. unfold findall_pattern.
  rewrite <- (append_nil_r t), findall_sites_text by done. done.
Qed.

(** A message with one site between two texts without braces. *)
Lemma findall_pattern_one pre inner suf :
  brace_free pre = true -> brace_free inner = true -> brace_free suf = true ->
  findall_pattern (pre +:+ String "{" (inner +:+ String "}" suf)) = [inner].
Proof.
  intros Hp Hi Hs. unfold findall_pattern.
  rewrite findall_sites_text, findall_sites_site by done.
  by rewrite (findall_pattern_text suf Hs : findall_sites suf None = []).
Qed.

Lemma sub_sites_text repl t s :
  brace_free t = true ->
  sub_sites repl (t +:+ s) None = t +:+ sub_sites repl s None.
Proof.
  induction t as [|c t IH]; intros Ht; simpl; [done |].
  simpl in Ht. apply andb_true_iff in Ht as [Hc Ht].
  apply negb_true_iff, is_brace_false in Hc as [? ?].
  rewrite !decide_False by done. by rewrite IH.
Qed.

Lemma sub_sites_inner repl t s inner :
  brace_free t = true ->
  sub_sites repl (t +:+ String "}" s) (Some inner) =
  repl +:+ sub_sites repl s None.
Proof.
  revert inner. induction t as [|c t IH]; intros inner Ht; simpl; [done |].
  simpl in Ht. apply andb_true_iff in Ht as [Hc Ht].
  apply negb_true_iff, is_brace_false in Hc as [? ?].
  rewrite !decide_False by done. by rewrite IH.
Qed.

Lemma sub_pattern_one repl pre inner suf :
  brace_free pre = true -> brace_free inner = true -> brace_free suf = true ->
  sub_pattern repl (pre +:+ String "{" (inner +:+ String "}" suf)) =
  pre +:+ repl +:+ suf.
Proof.
  intros Hp Hi Hs. unfold sub_pattern.
  rewrite sub_sites_text by done. simpl.
  rewrite sub_sites_inner by done.
  rewrite <- (append_nil_r suf) at 1. rewrite sub_sites_text by done.
  simpl. by rewrite append_nil_r.
Qed.

Lemma findall_digits_run lead ds s acc :
  all_chars is_digit ds = true ->
  findall_digits lead (ds +:+ s) (Some acc) =
  findall_digits lead s (Some (acc +:+ ds)).
Proof.
  revert acc. induction ds as [|c ds IH]; intros acc Hd; simpl.
  - by rewrite append_nil_r.
  - simpl in Hd. apply andb_true_iff in Hd as [-> Hd].
    rewrite IH by done. by rewrite snoc_append.
Qed.

Lemma findall_digits_here lead ds c s :
  all_chars is_digit ds = true -> is_digit c = false ->
  findall_digits lead (ds +:+ String c s) (Some "") =
  flush (Some ds) ++ findall_digits lead s (if decide (c = lead) then Some "" else None).
Proof.
  intros Hd Hc. rewrite findall_digits_run by done. simpl. by rewrite Hc.
Qed.

Lemma flush_str_nat n : flush (Some (str_nat n)) = [str_nat n].
Proof.
  pose proof (str_nat_head n) as H. by destruct (str_nat n).
Qed.

(** ** [compose_pattern] and [decompose_pattern] *)

Lemma compose_pattern_canonical base pad_length decimal :
  compose_pattern base pad_length decimal =
  Ok (canonical_pattern base pad_length decimal).
Proof.
  unfold compose_pattern, canonical_pattern, str_format.
  destruct pad_length as [w|], decimal as [d|]; simpl;
    unfold rmap, rbind; simpl; rewrite ?append_assoc; done.
Qed.

Lemma canonical_pattern_inner t w p :
  canonical_pattern (Some t) w p =
  String "{" (canonical_inner t w p +:+ String "}" "").
Proof.
  unfold canonical_pattern, canonical_inner. simpl.
  by rewrite !append_assoc.
Qed.

Lemma findall_digits_skip lead ds s :
  is_digit lead = false -> all_chars is_digit ds = true ->
  findall_digits lead (ds +:+ s) None = findall_digits lead s None.
Proof.
  intros Hl. induction ds as [|c ds IH]; intros Hd; simpl; [done |].
  simpl in Hd. apply andb_true_iff in Hd as [Hc Hd].
  rewrite decide_False by (intros ->; congruence). auto.
Qed.

Lemma decompose_canonical_inner t w p :
  t ∈ ["d"; "f"] ->
  decompose_pattern (canonical_inner t w p) = Ok (t, w, p).
Proof.
  intros Ht. unfold decompose_pattern, canonical_inner.
  assert (exists c, t = String c "" /\ is_digit c = false /\
            c <> ":"%char /\ c <> "."%char) as (c & -> & Hc & Hc1 & Hc2).
  { set_unfold in Ht. destruct Ht as [-> | [-> | []]]; by eexists. }
  rewrite <- !append_assoc, last_char_snoc. simpl.
  unfold findall_number. simpl.
  destruct w as [w|], p as [p|]; simpl; rewrite ?append_assoc; simpl;
    rewrite ?(findall_digits_here ":"), ?flush_str_nat,
      ?(findall_digits_skip "."), ?Hc by (done || apply str_nat_digits);
    simpl; rewrite ?decide_False by done; simpl;
    rewrite ?(findall_digits_here "."), ?flush_str_nat, ?Hc
      by (done || apply str_nat_digits);
    simpl; rewrite ?int_of_digits_str_nat;
    rewrite ?(findall_digits_skip ":") by (done || apply str_nat_digits);
    simpl; rewrite ?decide_False by done; done.
Qed.

(** ** [str.format] *)

Lemma rmap_rmap {A B C} (f : A -> B) (g : B -> C) (r : result A) :
  rmap g (rmap f r) = rmap (fun a => g (f a)) r.
Proof. by destruct r. Qed.

Lemma format_go_text t rest args :
  brace_free t = true ->
  format_go (t +:+ rest) None args =
  rmap (String.append t) (format_go rest None args).
Proof.
  induction t as [|c t IH]; intros Ht; simpl.
  - by destruct (format_go rest None args).
  - simpl in Ht. apply andb_true_iff in Ht as [Hc Ht].
    apply negb_true_iff, is_brace_false in Hc as [? ?].
    rewrite !decide_False by done. rewrite IH by done.
    by rewrite rmap_rmap.
Qed.

Lemma format_go_field f rest acc args :
  brace_free f = true ->
  format_go (f +:+ String "}" rest) (Some acc) args =
  match args with
  | [] => Err ReplacementIndex
  | v :: args' =>
      s ← format_field (acc +:+ f) v;
      rmap (String.append s) (format_go rest None args')
  end.
Proof.
  revert acc. induction f as [|c f IH]; intros acc Hf; simpl.
  - by rewrite append_nil_r.
  - simpl in Hf. apply andb_true_iff in Hf as [Hc Hf].
    apply negb_true_iff, is_brace_false in Hc as [? ?].
    rewrite !decide_False by done. rewrite IH by done.
    by rewrite snoc_append.
Qed.

(** A template with one field between two texts without braces. *)
Lemma str_format_one pre f suf v :
  brace_free pre = true -> brace_free f = true -> brace_free suf = true ->
  str_format (pre +:+ String "{" (f +:+ String "}" suf)) [v] =
  s ← format_field f v; Ok (pre +:+ s +:+ suf).
Proof.
  intros Hp Hf Hs. unfold str_format.
  rewrite format_go_text by done.
  assert (format_go (String "{" (f +:+ String "}" suf)) None [v] =
          format_go (f +:+ String "}" suf) (Some "") [v]) as ->.
  { simpl. destruct f as [|c f]; simpl; [done |].
    simpl in Hf. apply andb_true_iff in Hf as [Hc Hf].
    apply negb_true_iff, is_brace_false in Hc as [? ?].
    by rewrite !decide_False by done. }
  rewrite format_go_field by done. simpl.
  destruct (format_field f v) as [s|e]; simpl; [| done].
  rewrite <- (append_nil_r suf) at 1. rewrite format_go_text by done.
  simpl. by rewrite append_nil_r.
Qed.

Lemma span_digits_run ds c s :
  all_chars is_digit ds = true -> is_digit c = false ->
  span_digits (ds +:+ String c s) = (ds, String c s).
Proof.
  intros Hd Hc. induction ds as [|c' ds IH]; simpl.
  - by rewrite Hc.
  - simpl in Hd. apply andb_true_iff in Hd as [-> Hd]. by rewrite IH.
Qed.

Lemma number_of_str_nat n : number_of (str_nat n) = Some n.
Proof.
  unfold number_of. pose proof (str_nat_head n) as H.
  pose proof (int_of_digits_str_nat n) as Hn.
  destruct (str_nat n); [done | by rewrite Hn].
Qed.

(** The specification text that [compose_pattern] emits for a field:
    the width, a dot and the precision when there is one, the type. *)
Lemma optional_precision_head dec c s :
  is_digit c = false ->
  exists c' s', from_option (fun d => "." +:+ str_nat d) "" dec +:+ String c s
                = String c' s' /\ is_digit c' = false.
Proof. intros Hc. destruct dec; simpl; eauto. Qed.

Lemma parse_zero_composed pad rest :
  parse_zero (str_nat pad +:+ rest) =
  if decide (pad = 0) then (true, rest) else (false, str_nat pad +:+ rest).
Proof.
  pose proof (str_nat_head pad) as Hh.
  destruct (str_nat pad) as [|c0 s0] eqn:E; [done |]. simpl.
  destruct (decide (c0 = "0"%char)) as [-> | Hc0].
  - destruct Hh as [-> ->]. by rewrite decide_True.
  - by rewrite decide_False by lia.
Qed.

Lemma parse_precision_composed dec c :
  is_digit c = false -> c <> "."%char ->
  parse_precision (from_option (fun d => "." +:+ str_nat d) "" dec
                   +:+ String c "") = (Some <$> dec, String c "").
Proof.
  intros Hc Hdot. destruct dec as [d|]; simpl.
  - rewrite span_digits_run by (done || apply str_nat_digits).
    by rewrite number_of_str_nat.
  - by rewrite decide_False.
Qed.

Lemma parse_spec_composed pad dec c :
  is_digit c = false -> c <> "."%char ->
  parse_spec (str_nat pad +:+
              from_option (fun d => "." +:+ str_nat d) "" dec +:+ String c "") =
  Ok {| zero_fill := bool_decide (pad = 0);
        width := if decide (pad = 0) then None else Some pad;
        precision := dec; type_code := Some c |}.
Proof.
  intros Hc Hdot. unfold parse_spec. rewrite parse_zero_composed.
  destruct (optional_precision_head dec c "" Hc) as (c' & s' & Es & Hc').
  destruct (decide (pad = 0)) as [-> | Hpad].
  - rewrite Es. simpl span_digits. rewrite Hc', <- Es.
    rewrite parse_precision_composed by done.
    rewrite bool_decide_eq_true_2 by done. by destruct dec.
  - rewrite Es, span_digits_run by (done || apply str_nat_digits).
    rewrite <- Es, parse_precision_composed by done.
    rewrite number_of_str_nat, bool_decide_eq_false_2 by done. by destruct dec.
Qed.

Lemma length_lpad w s : String.length (lpad w s) = w `max` String.length s.
Proof. unfold lpad. rewrite length_append, length_repeat_char. lia. Qed.

Lemma pad_number_composed pad prec ty sign body :
  pad_number {| zero_fill := bool_decide (pad = 0);
                width := if decide (pad = 0) then None else Some pad;
                precision := prec; type_code := ty |} sign body =
  lpad pad (sign +:+ body).
Proof.
  unfold pad_number, lpad. simpl. rewrite length_append.
  destruct (decide (pad = 0)) as [-> | Hpad]; [done |].
  by rewrite bool_decide_eq_false_2 by done.
Qed.

(** The width law: a composed specification of width [pad] pads, with
    spaces on the left, what the specification of width 0 renders. *)
Lemma format_spec_value_lpad fs fs0 pad v :
  type_code fs = type_code fs0 -> precision fs = precision fs0 ->
  (forall sign body, pad_number fs sign body = lpad pad (pad_number fs0 sign body)) ->
  format_spec_value fs v = rmap (lpad pad) (format_spec_value fs0 v).
Proof.
  intros Hty Hprec Hpad. unfold format_spec_value, format_fixed.
  rewrite Hty, Hprec.
  destruct v as [s|n|x]; repeat (case_bool_decide; cbn [orb]); try done.
  - destruct (precision fs0); [done |]. cbn. by rewrite Hpad.
  - destruct (precision fs0); [done |]. cbn. by rewrite Hpad.
  - destruct (float_of_int n) as [x|e]; cbn; [| done].
    destruct (float_fixed x _) as [sign body]. by rewrite Hpad.
  - destruct (float_fixed x _) as [sign body]. cbn. by rewrite Hpad.
Qed.

Lemma format_spec_value_width pad prec ty v :
  format_spec_value {| zero_fill := bool_decide (pad = 0);
                       width := if decide (pad = 0) then None else Some pad;
                       precision := prec; type_code := ty |} v =
  rmap (lpad pad)
    (format_spec_value {| zero_fill := true; width := None;
                          precision := prec; type_code := ty |} v).
Proof.
  apply format_spec_value_lpad; [done | done |].
  intros sign body. rewrite pad_number_composed.
  apply (pad_number_composed 0 prec ty).
Qed.

Lemma digits_brace_free s : all_chars is_digit s = true -> brace_free s = true.
Proof.
  unfold brace_free. induction s as [|c s IH]; simpl; [done |].
  intros [Hc Hs]%andb_true_iff. rewrite IH by done. rewrite andb_true_r.
  unfold is_brace. repeat case_decide; subst; done.
Qed.

Lemma canonical_inner_brace_free t w p :
  t ∈ ["d"; "f"] -> brace_free (canonical_inner t w p) = true.
Proof.
  intros Ht. unfold canonical_inner, brace_free.
  rewrite !all_chars_append.
  assert (all_chars (fun c => negb (is_brace c)) t = true) as ->.
  { set_unfold in Ht. by destruct Ht as [-> | [-> | []]]. }
  destruct w as [w|], p as [p|]; simpl; rewrite ?all_chars_append; simpl;
    rewrite ?(digits_brace_free _ (str_nat_digits _) : all_chars _ _ = true);
    done.
Qed.

(** A field's pattern applied to a value, through the parsed specification. *)
Lemma str_format_composed c pad dec v :
  String c "" ∈ ["d"; "f"] ->
  str_format (canonical_pattern (Some (String c "")) (Some pad) dec) [v] =
  format_spec_value
    {| zero_fill := bool_decide (pad = 0);
       width := if decide (pad = 0) then None else Some pad;
       precision := dec; type_code := Some c |} v.
Proof.
  intros Ht. rewrite canonical_pattern_inner.
  rewrite (str_format_one "" (canonical_inner (String c "") (Some pad) dec) "")
    by (done || by apply canonical_inner_brace_free).
  unfold canonical_inner. simpl.
  assert (is_digit c = false /\ c <> "."%char) as [Hc Hdot].
  { set_unfold in Ht. by destruct Ht as [[= ->] | [[= ->] | []]]. }
  pose proof (parse_spec_composed pad dec c Hc Hdot) as Hp.
  pose proof (str_nat_head pad) as Hh.
  unfold format_value.
  destruct (str_nat pad +:+ _) as [|c0 s0] eqn:E.
  { destruct (str_nat pad); simplify_eq/=. }
  rewrite Hp. simpl.
  destruct (format_spec_value _ v); simpl; [| done].
  by rewrite append_nil_r.
Qed.

(** The natural rendering of a value for a field is what its pattern
    renders at width 0; at width [pad] the same text is right-aligned. *)
Lemma str_format_width t pad dec v :
  t ∈ ["d"; "f"] ->
  str_format (canonical_pattern (Some t) (Some pad) dec) [v] =
  rmap (lpad pad) (str_format (canonical_pattern (Some t) (Some 0) dec) [v]).
Proof.
  intros Ht.
  assert (exists c, t = String c "") as [c ->].
  { set_unfold in Ht. destruct Ht as [-> | [-> | []]]; by eexists. }
  rewrite !str_format_composed by done. apply format_spec_value_width.
Qed.

(** ** The methods *)

Ltac unfold_method :=
  unfold mbind, method_bind, result_bind, bind, rbind, mret, method_ret,
    result_ret, ret, raise, lift, update, attr, getitem, item in *.

Global Instance grows_refl : Reflexive grows.
Proof.
  intros self. repeat split. intros name.
  by destruct (pad_lengths self !! name).
Qed.

Global Instance grows_trans : Transitive grows.
Proof.
  intros s1 s2 s3 (? & ? & ? & ? & ? & H12) (? & ? & ? & ? & ? & H23).
  repeat split; try congruence. intros name.
  specialize (H12 name). specialize (H23 name).
  destruct (pad_lengths s1 !! name), (pad_lengths s2 !! name),
    (pad_lengths s3 !! name); try done. lia.
Qed.

Lemma grows_set_pad_lengths self name n n' :
  pad_lengths self !! name = Some n -> n <= n' ->
  grows self (set_pad_lengths name n' self).
Proof.
  intros Hn Hle. repeat split. intros name'. simpl.
  destruct (decide (name = name')) as [<- | Hne].
  - by rewrite Hn, lookup_insert_eq.
  - rewrite lookup_insert_ne by done. by destruct (pad_lengths self !! name').
Qed.

(** *** Loops *)

Section for_each.
Context {A B : Type} (body : B -> A -> M B).

Lemma for_each_app l1 l2 acc self :
  for_each body (l1 ++ l2) acc self =
  match for_each body l1 acc self with
  | (Ok acc', self') => for_each body l2 acc' self'
  | (Err e, self') => (Err e, self')
  end.
Proof.
  revert acc self. induction l1 as [|x l1 IH]; intros acc self; simpl; [done |].
  unfold bind. destruct (body acc x self) as [[acc'|e] self']; [apply IH | done].
Qed.

Lemma for_each_cons_ok x l acc self acc' self' :
  for_each body (x :: l) acc self = (Ok acc', self') <->
  exists acc1 self1,
    body acc x self = (Ok acc1, self1) /\
    for_each body l acc1 self1 = (Ok acc', self').
Proof.
  simpl. unfold bind.
  destruct (body acc x self) as [[acc1|e] self1]; split.
  - eauto.
  - by intros (? & ? & [= <- <-] & ?).
  - done.
  - by intros (? & ? & ? & _).
Qed.

Lemma for_each_pure l acc self :
  (forall acc x self, (body acc x self).2 = self) ->
  (for_each body l acc self).2 = self.
Proof.
  intros Hbody. revert acc self.
  induction l as [|x l IH]; intros acc self; simpl; [done |].
  unfold bind. specialize (Hbody acc x self).
  destruct (body acc x self) as [[acc'|e] self'] eqn:E; simpl in *; [| done].
  subst. apply IH.
Qed.

Lemma for_each_grows l acc self :
  (forall acc x self, grows self (body acc x self).2) ->
  grows self (for_each body l acc self).2.
Proof.
  intros Hbody. revert acc self.
  induction l as [|x l IH]; intros acc self; simpl; [done |].
  unfold bind. specialize (Hbody acc x self).
  destruct (body acc x self) as [[acc'|e] self'] eqn:E; simpl in *; [| done].
  by etrans.
Qed.

Lemma for_each_err (P : error -> Prop) l acc self e self' :
  (forall acc x self e self', body acc x self = (Err e, self') -> P e) ->
  for_each body l acc self = (Err e, self') -> P e.
Proof.
  intros Hbody. revert acc self. induction l as [|x l IH]; intros acc self; simpl.
  - done.
  - unfold bind. destruct (body acc x self) as [[acc1|e1] self1] eqn:E.
    + apply IH.
    + intros [= <- <-]. by eapply Hbody.
Qed.

End for_each.

Lemma field_pattern_eq name self :
  field_pattern name self =
  (base ← item (bases self) name;
   pad_length ← item (pad_lengths self) name;
   decimal ← item (decimals self) name;
   Ok (canonical_pattern (Some base) (Some pad_length) decimal), self).
Proof.
  unfold field_pattern. unfold_method.
  destruct (bases self !! name); [| done].
  destruct (pad_lengths self !! name); [| done].
  destruct (decimals self !! name); [| done].
  by rewrite compose_pattern_canonical.
Qed.

(** The loop body of [format], as a function of the stored triple. *)
Lemma format_item_eq acc name v self :
  format_item acc (name, v) self =
  match bases self !! name, pad_lengths self !! name, decimals self !! name with
  | Some base, Some pad, Some dec =>
      match str_format (canonical_pattern (Some base) (Some pad) dec) [v] with
      | Ok rendered =>
          if (pad <? String.length rendered)%nat then
            let pad' := pad `max` String.length rendered in
            (rendered' ← str_format (canonical_pattern (Some base) (Some pad') dec) [v];
             Ok (<[name := rendered']> acc),
             set_pad_lengths name pad' self)
          else (Ok (<[name := rendered]> acc), self)
      | Err e => (Err e, self)
      end
  | _, _, _ => (Err (MissingKey name), self)
  end.
Proof.
  unfold format_item.
  unfold mbind at 1, method_bind at 1, bind at 1.
  rewrite field_pattern_eq. unfold_method.
  destruct (bases self !! name) as [base|] eqn:Eb; [| done].
  destruct (pad_lengths self !! name) as [pad|] eqn:Ep; [| done].
  destruct (decimals self !! name) as [dec|] eqn:Ed; [| done].
  simpl. destruct (str_format _ [v]) as [rendered|e] eqn:Er; [| done].
  destruct (pad <? String.length rendered)%nat.
  - rewrite field_pattern_eq. unfold_method. simpl.
    rewrite Eb, Ed, lookup_insert_eq. simpl.
    by case_match.
  - by rewrite Er.
Qed.

Lemma format_item_grows acc kv self :
  grows self (format_item acc kv self).2.
Proof.
  destruct kv as [name v]. rewrite format_item_eq.
  destruct (bases self !! name), (pad_lengths self !! name) as [pad|] eqn:Ep,
    (decimals self !! name); try done.
  destruct (str_format _ [v]) as [rendered|]; [| done].
  destruct (pad <? _)%nat; [| done]. simpl.
  apply (grows_set_pad_lengths _ _ pad); [done | lia].
Qed.

Lemma render_values_grows kwargs self :
  grows self (render_values kwargs self).2.
Proof. apply for_each_grows. intros. apply format_item_grows. Qed.

Lemma literal_item_pure composed acc name self :
  (literal_item composed acc name self).2 = self.
Proof.
  unfold literal_item. unfold_method.
  destruct (messages self !! name); [| done].
  destruct (composed !! name); [| done].
  by destruct (str_format _ _).
Qed.

(** After its loop, [format] leaves the object alone. *)
Lemma format_state kwargs self :
  (format kwargs self).2 = (render_values kwargs self).2.
Proof.
  unfold format.
  unfold mbind at 1, method_bind at 1, bind at 1.
  destruct (render_values kwargs self) as [[composed|e] self'] eqn:E; [| done].
  unfold mbind at 1, method_bind at 1, bind at 1, attr at 1.
  unfold mbind at 1, method_bind at 1, bind at 1.
  unfold mbind at 1, method_bind at 1, bind at 1.
  destruct (existsb _ _); [done |]. unfold ret at 1.
  unfold mbind at 1, method_bind at 1, bind at 1.
  pose proof (for_each_pure (literal_item composed) (names self') ∅ self'
                (literal_item_pure composed)) as H1.
  destruct (for_each (literal_item composed) _ _ _) as [[literals|e] self1];
    simpl in H1; subst self1; [| done].
  unfold mbind at 1, method_bind at 1, bind at 1.
  match goal with |- context [for_each ?b ?l ?a ?s] =>
    pose proof (for_each_pure b l a s) as H2;
    destruct (for_each b l a s) as [[parts|e] self2] end;
    simpl in H2; rewrite H2; try done.
  all: intros acc name s; unfold_method; by destruct (literals !! name).
Qed.

Lemma format_grows kwargs self : grows self (format kwargs self).2.
Proof. rewrite format_state. apply render_values_grows. Qed.

Lemma grows_pad_lengths self self' name n :
  grows self self' -> pad_lengths self !! name = Some n ->
  exists n', pad_lengths self' !! name = Some n' /\ n <= n'.
Proof.
  intros (_ & _ & _ & _ & _ & H) Hn. specialize (H name). rewrite Hn in H.
  destruct (pad_lengths self' !! name) as [n'|]; [eauto | done].
Qed.

Lemma grows_dom self self' :
  grows self self' -> dom (pad_lengths self') = dom (pad_lengths self).
Proof.
  intros (_ & _ & _ & _ & _ & H). apply set_eq. intros name.
  rewrite !elem_of_dom. specialize (H name).
  destruct (pad_lengths self !! name), (pad_lengths self' !! name);
    try done; split; intros [? ?]; done.
Qed.

Lemma grows_valid self self' : grows self self' -> valid self -> valid self'.
Proof.
  intros Hg (Hnd & Hm & Hb & Hp & Hd & Hall).
  pose proof (grows_dom _ _ Hg) as Hdom.
  destruct Hg as (_ & Hn & Hm' & Hb' & Hd' & _).
  unfold valid, stored. rewrite Hn, Hm', Hb', Hd', Hdom. done.
Qed.

Lemma set_pad_lengths_id self name pad :
  pad_lengths self !! name = Some pad -> set_pad_lengths name pad self = self.
Proof.
  intros H. destruct self. unfold set_pad_lengths. simpl in *.
  by rewrite insert_id.
Qed.

(** A successful pass of the loop body, through [render_field]. *)
Lemma format_item_ok acc name v self acc' self' :
  format_item acc (name, v) self = (Ok acc', self') <->
  exists base pad dec rendered pad',
    bases self !! name = Some base /\ pad_lengths self !! name = Some pad /\
    decimals self !! name = Some dec /\
    render_field base pad dec v = Ok (rendered, pad') /\
    acc' = <[name := rendered]> acc /\
    self' = set_pad_lengths name pad' self.
Proof.
  rewrite format_item_eq. unfold render_field.
  destruct (bases self !! name) as [base|] eqn:Eb.
  2:{ split; [done | by intros (? & ? & ? & ? & ? & ? & _)]. }
  destruct (pad_lengths self !! name) as [pad|] eqn:Ep.
  2:{ split; [done | by intros (? & ? & ? & ? & ? & _ & ? & _)]. }
  destruct (decimals self !! name) as [dec|] eqn:Ed.
  2:{ split; [done | by intros (? & ? & ? & ? & ? & _ & _ & ? & _)]. }
  split.
  - intros H. exists base, pad, dec.
    destruct (str_format _ [v]) as [rendered|e]; [| done]. simpl.
    destruct (pad <? String.length rendered)%nat.
    + destruct (str_format _ [v]) as [rendered'|e]; simplify_eq/=.
      by eexists _, _.
    + simplify_eq. eexists _, _. by rewrite set_pad_lengths_id.
  - intros (? & ? & ? & rendered' & pad' & [= <-] & [= <-] & [= <-] & H & -> & ->).
    destruct (str_format _ [v]) as [rendered|e]; [| done]. simpl in H.
    destruct (pad <? String.length rendered)%nat.
    + destruct (str_format _ [v]) as [r'|e]; by simplify_eq/=.
    + simplify_eq. by rewrite set_pad_lengths_id.
Qed.

Lemma natural_eq base dec v :
  natural base dec v = str_format (canonical_pattern (Some base) (Some 0) dec) [v].
Proof. unfold natural. by rewrite compose_pattern_canonical. Qed.

(** For a supported type the loop body pads the natural rendering to the
    larger of the stored width and its length, and stores that width. *)
Lemma render_field_natural base pad dec v :
  base ∈ ["d"; "f"] ->
  render_field base pad dec v =
  rmap (fun s => (lpad (pad `max` String.length s) s, pad `max` String.length s))
       (natural base dec v).
Proof.
  intros Hb. unfold render_field. rewrite natural_eq.
  rewrite str_format_width by done.
  destruct (str_format _ [v]) as [s|e] eqn:E0; [| done]. simpl.
  rewrite length_lpad.
  destruct (pad <? _)%nat eqn:E.
  - apply Nat.ltb_lt in E. rewrite str_format_width, E0 by done. simpl.
    by replace (pad `max` (pad `max` String.length s))
      with (pad `max` String.length s) by lia.
  - apply Nat.ltb_ge in E.
    by replace (pad `max` String.length s) with pad by lia.
Qed.

Lemma valid_lookup self name :
  valid self -> name ∈ names self ->
  exists message base pad dec,
    messages self !! name = Some message /\ bases self !! name = Some base /\
    pad_lengths self !! name = Some pad /\ decimals self !! name = Some dec /\
    base ∈ ["d"; "f"].
Proof.
  intros (_ & Hm & Hb & Hp & Hd & Hall) Hin.
  assert (name ∈ (list_to_set (names self) : gset string)) as Hs
    by (by apply elem_of_list_to_set).
  pose proof Hs as H1. rewrite <- Hm in H1. apply elem_of_dom in H1 as [m ?].
  pose proof Hs as H2. rewrite <- Hb in H2. apply elem_of_dom in H2 as [b ?].
  pose proof Hs as H3. rewrite <- Hp in H3. apply elem_of_dom in H3 as [p ?].
  pose proof Hs as H4. rewrite <- Hd in H4. apply elem_of_dom in H4 as [d ?].
  exists m, b, p, d. repeat split; try done. by eapply Hall.
Qed.

Lemma valid_registered self name :
  valid self -> (name ∈ names self <-> is_Some (bases self !! name)).
Proof.
  intros (_ & _ & Hb & _). by rewrite <- elem_of_dom, Hb, elem_of_list_to_set.
Qed.

(** The loop body on a valid object. *)
Lemma format_item_valid acc name v self base pad dec :
  bases self !! name = Some base -> base ∈ ["d"; "f"] ->
  pad_lengths self !! name = Some pad -> decimals self !! name = Some dec ->
  format_item acc (name, v) self =
  match natural base dec v with
  | Ok s =>
      (Ok (<[name := lpad (pad `max` String.length s) s]> acc),
       set_pad_lengths name (pad `max` String.length s) self)
  | Err e => (Err e, self)
  end.
Proof.
  intros Eb Hb Ep Ed.
  pose proof (render_field_natural base pad dec v Hb) as Hr.
  destruct (natural base dec v) as [s|e] eqn:En; simpl in Hr.
  - apply format_item_ok. by eexists _, _, _, _, _.
  - rewrite format_item_eq, Eb, Ep, Ed.
    unfold render_field in Hr.
    destruct (str_format _ [v]) as [r|e'] eqn:E0; simpl in Hr; [| by simplify_eq].
    rewrite str_format_width, <- natural_eq, En in E0 by done. done.
Qed.

(** ** The loop of [format] *)

Lemma loop_widths kwargs acc self composed self' :
  valid self ->
  (forall n s, acc !! n = Some s -> pad_lengths self !! n = Some (String.length s)) ->
  for_each format_item kwargs acc self = (Ok composed, self') ->
  forall n s, composed !! n = Some s ->
              pad_lengths self' !! n = Some (String.length s).
Proof.
  revert acc self. induction kwargs as [|[name v] kwargs IH];
    intros acc self Hv Hacc Hloop.
  - simpl in Hloop. unfold ret in Hloop. by simplify_eq.
  - apply for_each_cons_ok in Hloop as (acc1 & self1 & Hitem & Hloop).
    pose proof (format_item_grows acc (name, v) self) as Hg.
    rewrite Hitem in Hg. simpl in Hg.
    apply (IH acc1 self1); [by eapply grows_valid | | done].
    apply format_item_ok in Hitem
      as (base & pad & dec & rendered & pad' & Eb & Ep & Ed & Hr & -> & ->).
    assert (base ∈ ["d"; "f"]) as Hb.
    { destruct Hv as (_ & _ & _ & _ & _ & Hall). by eapply Hall. }
    rewrite render_field_natural in Hr by done.
    destruct (natural base dec v) as [s0|]; simplify_eq/=.
    intros n s. destruct (decide (name = n)) as [<- | Hne].
    + rewrite !lookup_insert_eq. intros [= <-]. rewrite length_lpad. f_equal. lia.
    + rewrite !lookup_insert_ne by done. apply Hacc.
Qed.

Lemma loop_dom kwargs acc self composed self' :
  for_each format_item kwargs acc self = (Ok composed, self') ->
  dom composed = dom acc ∪ list_to_set kwargs.*1.
Proof.
  revert acc self. induction kwargs as [|[name v] kwargs IH];
    intros acc self Hloop.
  - simpl in Hloop. unfold ret in Hloop. simplify_eq. set_solver.
  - apply for_each_cons_ok in Hloop as (acc1 & self1 & Hitem & Hloop).
    apply IH in Hloop as ->.
    apply format_item_ok in Hitem as (? & ? & ? & ? & ? & _ & _ & _ & _ & -> & _).
    rewrite dom_insert_L. set_solver.
Qed.

Lemma loop_registered kwargs acc self composed self' name :
  for_each format_item kwargs acc self = (Ok composed, self') ->
  name ∈ kwargs.*1 -> is_Some (bases self !! name).
Proof.
  revert acc self. induction kwargs as [|[name' v] kwargs IH];
    intros acc self Hloop Hin.
  - by apply elem_of_nil in Hin.
  - apply for_each_cons_ok in Hloop as (acc1 & self1 & Hitem & Hloop).
    apply format_item_ok in Hitem as (? & ? & ? & ? & ? & Eb & _ & _ & _ & _ & ->).
    simpl in Hin. apply elem_of_cons in Hin as [-> | Hin]; [by eexists |].
    by apply (IH _ _ Hloop).
Qed.

Lemma grows_renderable self self' kv :
  grows self self' -> renderable self' kv = renderable self kv.
Proof.
  intros (_ & _ & _ & Hb & Hd & _). unfold renderable. by rewrite Hb, Hd.
Qed.

Lemma loop_ok kwargs acc self :
  valid self -> Forall (fun kv => renderable self kv = true) kwargs ->
  exists composed self', for_each format_item kwargs acc self = (Ok composed, self').
Proof.
  revert acc self. induction kwargs as [|[name v] kwargs IH];
    intros acc self Hv Hr.
  - by eexists _, _.
  - apply Forall_cons in Hr as [Hr Hrs]. unfold renderable in Hr. simpl in Hr.
    destruct (bases self !! name) as [base|] eqn:Eb; [| done].
    destruct (decimals self !! name) as [dec|] eqn:Ed; [| done].
    destruct (natural base dec v) as [s|] eqn:En; [| done].
    assert (name ∈ names self) as Hin by (by apply valid_registered).
    destruct (valid_lookup _ _ Hv Hin) as (? & ? & pad & ? & _ & ? & Ep & ? & Hb).
    simplify_eq.
    pose proof (format_item_valid acc name v self _ _ _ Eb Hb Ep Ed) as Hitem.
    rewrite En in Hitem.
    pose proof (format_item_grows acc (name, v) self) as Hg.
    rewrite Hitem in Hg. simpl in Hg.
    destruct (IH (<[name := lpad (pad `max` String.length s) s]> acc)
                (set_pad_lengths name (pad `max` String.length s) self))
      as (composed & self' & Hloop).
    { by eapply grows_valid. }
    { eapply Forall_impl; [exact Hrs |]. intros kv Hkv. simpl in Hkv.
      by rewrite (grows_renderable _ _ _ Hg). }
    exists composed, self'. apply for_each_cons_ok. eauto.
Qed.

(** ** [validate_message], [add_message] and the constructor *)

(** The checks of [validate_message], in the order the code makes them. *)
Lemma validate_message_eq s :
  validate_message (VStr s) =
  match findall_pattern s with
  | [] => Err NoPattern
  | [pattern] =>
      match decompose_pattern pattern with
      | Ok (base, _, decimals) =>
          if bool_decide (base ∈ ["d"; "f"]) then
            if bool_decide (is_Some decimals /\ base <> "f")
            then Err PrecisionOnNonFloat else Ok true
          else Err (UnsupportedType base)
      | Err e => Err e
      end
  | _ :: _ :: _ => Err MultiplePatterns
  end.
Proof.
  unfold validate_message.
  destruct (findall_pattern s) as [|pattern [|? ?]]; simpl; try done.
  destruct (decompose_pattern pattern) as [[[base pad] dec]|e]; simpl; [| done].
  case_bool_decide; simpl; [| done].
  destruct dec as [d|]; repeat (case_bool_decide; simpl); try done;
    try (exfalso; naive_solver).
  all: exfalso; match goal with H : ~ (_ /\ _) |- _ => apply H end;
    split; [by eexists | done].
Qed.

Lemma validate_message_ok m b :
  validate_message m = Ok b ->
  exists s pattern base pad dec,
    m = VStr s /\ findall_pattern s = [pattern] /\
    decompose_pattern pattern = Ok (base, pad, dec) /\ base ∈ ["d"; "f"] /\
    (is_Some dec -> base = "f").
Proof.
  destruct m as [s|n|x]; try done. rewrite validate_message_eq.
  destruct (findall_pattern s) as [|pattern [|? ?]] eqn:Hf; try done.
  destruct (decompose_pattern pattern) as [[[base pad] dec]|e] eqn:Hd; [| done].
  repeat case_bool_decide; try done.
  intros _. exists s, pattern, base, pad, dec. repeat split; try done.
  intros Hs. destruct (decide (base = "f")); naive_solver.
Qed.

(** The errors of [validate_message]: the five documented kinds, and the
    index error of [decompose_pattern] on an empty pattern. *)
Lemma validate_message_err m e :
  validate_message m = Err e ->
  e = NotString \/ e = NoPattern \/ e = MultiplePatterns \/
  (exists base, e = UnsupportedType base) \/ e = PrecisionOnNonFloat \/
  e = StringIndex.
Proof.
  destruct m as [s|n|x]; [| naive_solver..]. rewrite validate_message_eq.
  destruct (findall_pattern s) as [|pattern [|? ?]]; [naive_solver | | naive_solver].
  unfold decompose_pattern.
  destruct (last_char pattern) as [base|e'] eqn:El; simpl.
  - repeat case_bool_decide; naive_solver.
  - intros [= <-]. clear -El.
    induction pattern as [|c [|c' p] IH]; naive_solver.
Qed.

Lemma add_message_err name m self e :
  validate_message m = Err e -> add_message name m self = (Err e, self).
Proof.
  intros H. unfold add_message.
  unfold mbind at 1, method_bind at 1, bind at 1, lift at 1. by rewrite H.
Qed.

Lemma add_message_ok name s self b pattern base pad dec :
  validate_message (VStr s) = Ok b ->
  findall_pattern s = [pattern] ->
  decompose_pattern pattern = Ok (base, pad, dec) ->
  add_message name (VStr s) self =
  (Ok (), register name (sub_pattern "{}" s) base (default 0 pad) dec self).
Proof.
  intros Hv Hf Hd. unfold add_message.
  unfold mbind, method_bind, bind, lift, update. rewrite Hv, Hf. simpl.
  by rewrite Hd.
Qed.

(** A failed [add_message] is a failed validation, and leaves the object
    as it was. *)
Lemma add_message_fails name m self e self' :
  add_message name m self = (Err e, self') ->
  validate_message m = Err e /\ self' = self.
Proof.
  destruct (validate_message m) as [b|e'] eqn:Hv.
  - destruct (validate_message_ok _ _ Hv)
      as (s & pattern & base & pad & dec & -> & Hf & Hd & _).
    by rewrite (add_message_ok _ _ _ _ _ _ _ _ Hv Hf Hd).
  - rewrite (add_message_err _ _ _ _ Hv). by intros [= <- <-].
Qed.

Lemma register_names name message base pad dec self :
  names (register name message base pad dec self) =
  if bool_decide (name ∈ names self) then names self else names self ++ [name].
Proof. unfold register. simpl. by case_bool_decide. Qed.

Lemma register_stored keys name message base pad dec self :
  stored keys self -> base ∈ ["d"; "f"] ->
  stored ({[name]} ∪ keys) (register name message base pad dec self).
Proof.
  intros (Hm & Hb & Hp & Hd & Hall) Hbase. unfold register, stored. simpl.
  rewrite !dom_insert_L.
  assert (forall self', messages self' = messages self ->
            bases self' = bases self -> pad_lengths self' = pad_lengths self ->
            decimals self' = decimals self ->
            dom (messages self') = keys /\ dom (bases self') = keys /\
            dom (pad_lengths self') = keys /\ dom (decimals self') = keys /\
            map_Forall (fun _ b => b ∈ ["d"; "f"]) (bases self')) as Hsame.
  { intros self' -> -> -> ->. done. }
  destruct (Hsame (if bool_decide (name ∈ names self) then self
                   else set_names (fun l => l ++ [name]) self))
    as (-> & -> & -> & -> & Hall'); try by case_bool_decide.
  repeat split; try done. by apply map_Forall_insert_2.
Qed.

Lemma register_valid name message base pad dec self :
  valid self -> base ∈ ["d"; "f"] ->
  valid (register name message base pad dec self).
Proof.
  intros [Hnd Hst] Hbase. split.
  - rewrite register_names. case_bool_decide; [done |].
    apply NoDup_app. repeat split; [done | | apply NoDup_singleton].
    intros x Hx ->%list_elem_of_singleton. done.
  - rewrite register_names.
    pose proof (register_stored _ name message base pad dec self Hst Hbase) as H.
    case_bool_decide.
    + replace (list_to_set (names self) : gset string)
        with ({[name]} ∪ list_to_set (names self) : gset string); [done |].
      assert (name ∈ (list_to_set (names self) : gset string))
        by (by apply elem_of_list_to_set).
      set_solver.
    + rewrite list_to_set_app_L. simpl.
      replace (list_to_set (names self) ∪ ({[name]} ∪ ∅) : gset string)
        with ({[name]} ∪ list_to_set (names self) : gset string) by set_solver.
      done.
Qed.

Lemma add_message_valid name m self :
  valid self -> valid (add_message name m self).2.
Proof.
  intros Hv. destruct (validate_message m) as [b|e] eqn:Hm.
  - destruct (validate_message_ok _ _ Hm)
      as (s & pattern & base & pad & dec & -> & Hf & Hd & Hb & _).
    rewrite (add_message_ok _ _ _ _ _ _ _ _ Hm Hf Hd). simpl.
    by apply register_valid.
  - by rewrite (add_message_err _ _ _ _ Hm).
Qed.

Lemma run_call_valid self c : valid self -> valid (run_call self c).
Proof.
  intros Hv. destruct c as [kwargs | name m]; simpl.
  - eapply grows_valid; [apply format_grows | done].
  - by apply add_message_valid.
Qed.

Lemma run_calls_valid self calls : valid self -> valid (run_calls self calls).
Proof.
  revert self. induction calls as [|c calls IH]; intros self Hv; simpl; [done |].
  apply IH. by apply run_call_valid.
Qed.

Lemma add_message_returns name m self u self' :
  add_message name m self = (Ok u, self') ->
  exists s pattern base pad dec b,
    m = VStr s /\ validate_message m = Ok b /\ findall_pattern s = [pattern] /\
    decompose_pattern pattern = Ok (base, pad, dec) /\ base ∈ ["d"; "f"] /\
    self' = register name (sub_pattern "{}" s) base (default 0 pad) dec self.
Proof.
  destruct (validate_message m) as [b|e] eqn:Hv.
  - destruct (validate_message_ok _ _ Hv)
      as (s & pattern & base & pad & dec & -> & Hf & Hd & Hb & _).
    rewrite (add_message_ok _ _ _ _ _ _ _ _ Hv Hf Hd). intros [= <-].
    by exists s, pattern, base, pad, dec, b.
  - by rewrite (add_message_err _ _ _ _ Hv).
Qed.

(** The loop of the constructor fills the dictionaries for the names it
    has already listed. *)
Lemma init_loop keys l self u self' :
  (forall name, name ∈ l.*1 -> name ∈ names self) ->
  stored keys self ->
  for_each (fun _ kv => add_message kv.1 kv.2) l () self = (Ok u, self') ->
  names self' = names self /\ stored (keys ∪ list_to_set l.*1) self'.
Proof.
  revert keys self. induction l as [|[name m] l IH]; intros keys self Hin Hst Hloop.
  - simpl in Hloop. unfold ret in Hloop. simplify_eq. split; [done |].
    simpl. by replace (keys ∪ ∅) with keys by set_solver.
  - apply for_each_cons_ok in Hloop as ([] & self1 & Hadd & Hloop).
    simpl in Hadd.
    apply add_message_returns in Hadd
      as (s & pattern & base & pad & dec & b & -> & _ & _ & _ & Hb & ->).
    assert (names (register name (sub_pattern "{}" s) base (default 0 pad) dec self)
            = names self) as Hn.
    { rewrite register_names, bool_decide_eq_true_2; [done |].
      apply Hin. simpl. apply elem_of_cons. by left. }
    apply (IH ({[name]} ∪ keys)) in Hloop as [Hn' Hst'].
    + split; [congruence |].
      assert (keys ∪ list_to_set ((name, VStr s) :: l).*1 =
              {[name]} ∪ keys ∪ list_to_set l.*1 :> gset string) as ->
        by set_solver.
      done.
    + intros name' H'. rewrite Hn. apply Hin. simpl. apply elem_of_cons. by right.
    + by apply register_stored.
Qed.

Lemma init_valid args sep_ kwargs self :
  NoDup kwargs.*1 -> init args sep_ kwargs = Ok self -> valid self.
Proof.
  intros Hnd. unfold init. destruct (0 <? length args)%nat; [done |].
  destruct (for_each _ kwargs () _) as [[u|e] self'] eqn:Hloop; [| done].
  intros [= <-].
  apply (init_loop ∅) in Hloop as [Hn Hst]; simpl in *.
  - split; [by rewrite Hn |]. rewrite Hn.
    by replace (list_to_set kwargs.*1) with (∅ ∪ list_to_set kwargs.*1 : gset string)
      by set_solver.
  - done.
  - unfold stored. simpl. rewrite !dom_empty_L.
    repeat split; done || apply map_Forall_empty.
Qed.


(** ** The width ratchet *)

Lemma register_other name name' message base pad dec self :
  name' <> name ->
  pad_lengths (register name' message base pad dec self) !! name =
  pad_lengths self !! name.
Proof.
  intros Hne. unfold register. simpl. rewrite lookup_insert_ne by done.
  by case_bool_decide.
Qed.

Lemma run_call_pad_lengths self c name n :
  registers name c = false -> pad_lengths self !! name = Some n ->
  exists n', pad_lengths (run_call self c) !! name = Some n' /\ n <= n'.
Proof.
  intros Hc Hn. destruct c as [kwargs | name' m]; simpl.
  - eapply grows_pad_lengths; [apply format_grows | done].
  - simpl in Hc. apply bool_decide_eq_false in Hc.
    destruct (add_message name' m self) as [[u|e] self'] eqn:Hadd; simpl.
    + apply add_message_returns in Hadd
        as (s & pattern & base & pad & dec & b & -> & _ & _ & _ & _ & ->).
      rewrite register_other by done. eauto.
    + apply add_message_fails in Hadd as [_ ->]. eauto.
Qed.

Lemma run_calls_pad_lengths self calls name n :
  Forall (fun c => registers name c = false) calls ->
  pad_lengths self !! name = Some n ->
  exists n', pad_lengths (run_calls self calls) !! name = Some n' /\ n <= n'.
Proof.
  revert self n. induction calls as [|c calls IH]; intros self n Hcs Hn; simpl.
  - eauto.
  - apply Forall_cons in Hcs as [Hc Hcs].
    destruct (run_call_pad_lengths self c name n Hc Hn) as (n1 & Hn1 & Hle).
    destruct (IH _ _ Hcs Hn1) as (n' & Hn' & Hle'). exists n'. split; [done | lia].
Qed.

(** On a valid object the loop of [format] renders every supplied value
    at exactly the width it leaves stored for the name. *)
Lemma render_values_widths kwargs self composed self' name s :
  valid self -> render_values kwargs self = (Ok composed, self') ->
  composed !! name = Some s ->
  pad_lengths self' !! name = Some (String.length s).
Proof.
  intros Hv Hloop. eapply loop_widths; [done | | done].
  intros n s'. by rewrite lookup_empty.
Qed.

(** ** The errors of the built-ins *)

Lemma rmap_err {A B} (f : A -> B) r e : rmap f r = Err e -> r = Err e.
Proof. destruct r; unfold rmap, rbind; [done | by intros [= ->]]. Qed.

Lemma parse_spec_err spec e : parse_spec spec = Err e -> documented e = false.
Proof.
  unfold parse_spec. destruct (parse_zero spec) as [zero s].
  destruct (span_digits s) as [ws s1]. destruct (parse_precision s1) as [prec s2].
  unfold parse_type.
  destruct s2 as [|c [|c' s3]]; simpl; destruct prec as [[p|]|];
    by intros [= <-].
Qed.

Lemma float_of_int_err n e : float_of_int n = Err e -> documented e = false.
Proof.
  assert (forall s p, float_of_pos s p = Err e -> documented e = false) as H.
  { intros s p. unfold float_of_pos. destruct (_ <=? _)%N; [done |].
    destruct (round_half_even _ _); [by intros [= <-] |].
    destruct (_ <=? _)%N; by intros [= <-]. }
  destruct n; simpl; eauto. done.
Qed.

Lemma format_spec_value_err fs v e :
  format_spec_value fs v = Err e -> documented e = false.
Proof.
  unfold format_spec_value.
  destruct v as [s|n|x]; repeat (case_bool_decide; simpl);
    try (by intros [= <-]).
  - destruct (precision fs); by intros [= <-].
  - destruct (precision fs); by intros [= <-].
  - destruct (float_of_int n) as [x|e'] eqn:E; simpl; [done |].
    intros [= <-]. by eapply float_of_int_err.
Qed.

Lemma format_value_err v spec e :
  format_value v spec = Err e -> documented e = false.
Proof.
  unfold format_value. destruct spec as [|c spec].
  - destruct v; by intros [= <-].
  - destruct (parse_spec (String c spec)) as [fs|e'] eqn:E; simpl.
    + apply format_spec_value_err.
    + intros [= <-]. by eapply parse_spec_err.
Qed.

Lemma format_field_err field v e :
  format_field field v = Err e -> documented e = false.
Proof.
  unfold format_field. destruct field as [|c spec].
  - apply format_value_err.
  - case_decide; [apply format_value_err | by intros [= <-]].
Qed.

Lemma format_go_err t field args e :
  format_go t field args = Err e -> documented e = false.
Proof.
  revert field args.
  induction t as [t IH] using (induction_ltof1 _ String.length).
  unfold ltof in IH.
  intros field args. destruct t as [|c t]; destruct field as [f|]; simpl.
  - by intros [= <-].
  - done.
  - case_decide.
    + destruct args as [|v args]; [by intros [= <-] |].
      destruct (format_field f v) as [s|e'] eqn:E; simpl.
      * intros Hr%rmap_err. apply IH in Hr; [done | simpl; lia].
      * intros [= <-]. by eapply format_field_err.
    + case_decide; [by intros [= <-] |]. apply IH. simpl. lia.
  - case_decide.
    + destruct t as [|c' t]; [by intros [= <-] |]. case_decide.
      * intros Hr%rmap_err. apply IH in Hr; [done | simpl; lia].
      * apply IH. simpl. lia.
    + case_decide.
      * destruct t as [|c' t]; [by intros [= <-] |].
        case_decide; [| by intros [= <-]].
        intros Hr%rmap_err. apply IH in Hr; [done | simpl; lia].
      * intros Hr%rmap_err. apply IH in Hr; [done | simpl; lia].
Qed.

(** [str.format] raises none of the error kinds of the class. *)
Lemma str_format_err t args e : str_format t args = Err e -> documented e = false.
Proof. apply format_go_err. Qed.

Lemma format_item_err acc kv self e self' :
  format_item acc kv self = (Err e, self') -> documented e = false.
Proof.
  destruct kv as [name v]. rewrite format_item_eq.
  destruct (bases self !! name); [| by intros [= <- _]].
  destruct (pad_lengths self !! name) as [pad|]; [| by intros [= <- _]].
  destruct (decimals self !! name); [| by intros [= <- _]].
  destruct (str_format _ [v]) as [r|e'] eqn:E.
  - destruct (pad <? _)%nat; [| done]. cbv zeta.
    destruct (str_format (canonical_pattern _ (Some (_ `max` _)) _) [v])
      as [r'|e'] eqn:E'; unfold mbind, result_bind, rbind; [done |].
    intros [= <- _]. by eapply str_format_err.
  - intros [= <- _]. by eapply str_format_err.
Qed.

Lemma render_values_err kwargs self e self' :
  render_values kwargs self = (Err e, self') -> documented e = false.
Proof.
  apply (for_each_err _ (fun e => documented e = false)).
  intros. by eapply format_item_err.
Qed.

(** ** [format] after its loop *)

Lemma literal_item_eq composed acc name self :
  literal_item composed acc name self =
  (rmap (fun literal => <[name := literal]> acc) (literal_of self composed name),
   self).
Proof.
  unfold literal_item, literal_of. unfold_method.
  destruct (messages self !! name); [| done].
  destruct (composed !! name); [| done].
  by destruct (str_format _ _).
Qed.

Lemma literal_loop composed l acc self literals self' :
  for_each (literal_item composed) l acc self = (Ok literals, self') ->
  (forall name, name ∈ l ->
     exists literal, literal_of self composed name = Ok literal /\
                     literals !! name = Some literal) /\
  (forall name, name ∉ l -> literals !! name = acc !! name).
Proof.
  revert acc. induction l as [|x l IH]; intros acc Hloop.
  - simpl in Hloop. unfold ret in Hloop. simplify_eq. split; [| done].
    intros name H. by apply elem_of_nil in H.
  - apply for_each_cons_ok in Hloop as (acc1 & self1 & Hitem & Hloop).
    rewrite literal_item_eq in Hitem.
    destruct (literal_of self composed x) as [lit|] eqn:Hx; simplify_eq/=.
    apply IH in Hloop as [Hin Hout]. split.
    + intros name Hname. destruct (decide (name ∈ l)) as [|Hnl]; [by apply Hin |].
      apply elem_of_cons in Hname as [-> | ?]; [| done].
      exists lit. split; [done |]. by rewrite Hout, lookup_insert_eq.
    + intros name Hname. apply not_elem_of_cons in Hname as [Hne Hnl].
      by rewrite Hout, lookup_insert_ne.
Qed.

Lemma parts_loop (literals : gmap string string) l acc self parts self' :
  for_each (fun parts name =>
              literal ← lift (item literals name); ret (parts ++ [literal]))
    l acc self = (Ok parts, self') ->
  exists tail, parts = acc ++ tail /\
               Forall2 (fun name literal => literals !! name = Some literal) l tail.
Proof.
  revert acc. induction l as [|x l IH]; intros acc Hloop.
  - simpl in Hloop. unfold ret in Hloop. simplify_eq. exists [].
    by rewrite app_nil_r.
  - apply for_each_cons_ok in Hloop as (acc1 & self1 & Hitem & Hloop).
    unfold_method. destruct (literals !! x) as [lit|] eqn:Hx; simplify_eq/=.
    apply IH in Hloop as (tail & -> & Hall). exists (lit :: tail).
    rewrite <- app_assoc. split; [done |]. by constructor.
Qed.

Lemma existsb_missing (composed : gmap string string) l :
  existsb (fun name => bool_decide (name ∉ dom composed)) l = true <->
  exists name, name ∈ l /\ name ∉ dom composed.
Proof.
  rewrite existsb_exists. split; intros (name & Hin & H); exists name.
  - apply list_elem_of_In in Hin. by apply bool_decide_eq_true in H.
  - split; [by apply list_elem_of_In | by apply bool_decide_eq_true].
Qed.

(** The missing-field check raises after a loop that left a registered
    name without a rendered value. *)
Lemma format_missing kwargs self composed self' :
  render_values kwargs self = (Ok composed, self') ->
  (exists name, name ∈ names self' /\ name ∉ dom composed) ->
  format kwargs self =
  (Err (MissingFields (list_to_set (names self') ∖ dom composed)), self').
Proof.
  intros Hloop Hmiss. apply existsb_missing in Hmiss.
  unfold format. unfold mbind, method_bind, bind at 1. rewrite Hloop.
  unfold bind at 1, attr at 1. unfold bind at 1. unfold bind at 1.
  by rewrite Hmiss.
Qed.

(** A [format] call that returns: its loop succeeded, left no registered
    name without a value, and the output joins the literal texts of the
    registered names, in their order. *)
Lemma format_ok kwargs self out self' :
  format kwargs self = (Ok out, self') ->
  exists composed literals,
    render_values kwargs self = (Ok composed, self') /\
    Forall2 (fun name literal => literal_of self' composed name = Ok literal)
      (names self') literals /\
    out = join (sep self') literals.
Proof.
  unfold format. unfold mbind, method_bind, bind at 1.
  destruct (render_values kwargs self) as [[composed|e] self1] eqn:Hloop; [| done].
  unfold bind at 1, attr at 1. unfold bind at 1. unfold bind at 1.
  destruct (existsb _ _); [done |]. unfold ret at 1. unfold bind at 1.
  destruct (for_each (literal_item composed) _ _ _) as [[literals|e] self2] eqn:Hl;
    [| done].
  pose proof (for_each_pure _ (names self1) ∅ self1 (literal_item_pure composed)) as Hs.
  rewrite Hl in Hs. simpl in Hs. subst self2.
  unfold bind at 1.
  destruct (for_each _ (names self1) [] self1) as [[parts|e] self3] eqn:Hp; [| done].
  apply literal_loop in Hl as [Hin _].
  pose proof Hp as Hs. apply (f_equal snd) in Hs. simpl in Hs.
  rewrite for_each_pure in Hs.
  2:{ intros acc name s. unfold_method. by destruct (literals !! name). }
  subst self3.
  apply parts_loop in Hp as (tail & -> & Hall). simpl.
  unfold bind, attr, ret. intros [= <- <-].
  exists composed, tail. repeat split; try done.
  clear -Hin Hall. induction Hall as [|name lit l tail Hlit Hall IH]; constructor.
  - destruct (Hin name) as (lit' & Hof & Hlit'); [by left |]. congruence.
  - apply IH. intros name' H'. apply Hin. by right.
Qed.

(** The only error kind of the class that [format] raises is the one of
    its missing-field check. *)
Lemma format_documented kwargs self e self' :
  format kwargs self = (Err e, self') -> documented e = true ->
  exists composed,
    render_values kwargs self = (Ok composed, self') /\
    e = MissingFields (list_to_set (names self') ∖ dom composed) /\
    exists name, name ∈ names self' /\ name ∉ dom composed.
Proof.
  unfold format. unfold mbind, method_bind, bind at 1.
  destruct (render_values kwargs self) as [[composed|e1] self1] eqn:Hloop.
  2:{ intros [= <- <-] Hd. apply render_values_err in Hloop. congruence. }
  unfold bind at 1, attr at 1. unfold bind at 1. unfold bind at 1.
  destruct (existsb _ _) eqn:Hex.
  { unfold raise. intros [= <- <-] _. exists composed.
    repeat split; try done. by apply existsb_missing. }
  unfold ret at 1. unfold bind at 1.
  destruct (for_each (literal_item composed) _ _ _) as [[literals|e1] self2] eqn:Hl.
  2:{ intros [= <- <-] Hd. exfalso.
      apply (for_each_err _ (fun e => documented e = false)) in Hl; [congruence |].
      intros acc x s e' s'. rewrite literal_item_eq. unfold literal_of, item.
      unfold mbind, result_bind, rbind.
      destruct (messages s !! x); [| by intros [= <- _]].
      destruct (composed !! x); [| by intros [= <- _]].
      destruct (str_format _ _) eqn:E; simpl; [done |].
      intros [= <- _]. by eapply str_format_err. }
  unfold bind at 1.
  destruct (for_each _ (names self1) [] self2) as [[parts|e1] self3] eqn:Hp.
  { by unfold bind, attr, ret. }
  intros [= <- <-] Hd. exfalso.
  apply (for_each_err _ (fun e => documented e = false)) in Hp; [congruence |].
  intros acc x s e' s'. unfold_method.
  destruct (literals !! x); [done | by intros [= <- _]].
Qed.

(** ** The order of the keyword arguments *)

Lemma set_pad_lengths_comm n1 n2 p1 p2 self :
  n1 <> n2 ->
  set_pad_lengths n1 p1 (set_pad_lengths n2 p2 self) =
  set_pad_lengths n2 p2 (set_pad_lengths n1 p1 self).
Proof.
  intros Hne. unfold set_pad_lengths. simpl. f_equal.
  by apply insert_insert_ne.
Qed.

(** Two passes of the loop body for different names commute. *)
Lemma format_item_swap acc x y self a1 s1 a2 s2 :
  x.1 <> y.1 ->
  format_item acc x self = (Ok a1, s1) -> format_item a1 y s1 = (Ok a2, s2) ->
  exists a1' s1',
    format_item acc y self = (Ok a1', s1') /\ format_item a1' x s1' = (Ok a2, s2).
Proof.
  destruct x as [nx vx], y as [ny vy]. simpl. intros Hne Hx Hy.
  apply format_item_ok in Hx
    as (bx & px & dx & rx & px' & Ebx & Epx & Edx & Hrx & -> & ->).
  apply format_item_ok in Hy
    as (b_y & p_y & d_y & ry & py' & Eby & Epy & Edy & Hry & -> & ->).
  simpl in Eby, Epy, Edy. rewrite lookup_insert_ne in Epy by done.
  exists (<[ny := ry]> acc), (set_pad_lengths ny py' self). split.
  - apply format_item_ok. by exists b_y, p_y, d_y, ry, py'.
  - apply format_item_ok. exists bx, px, dx, rx, px'. simpl.
    rewrite lookup_insert_ne by done. repeat split; try done.
    + by apply insert_insert_ne.
    + by apply set_pad_lengths_comm.
Qed.

Lemma render_loop_perm l l' acc self composed self' :
  l ≡ₚ l' -> NoDup l.*1 ->
  for_each format_item l acc self = (Ok composed, self') ->
  for_each format_item l' acc self = (Ok composed, self').
Proof.
  intros Hperm. revert acc self.
  induction Hperm as [|x l l' Hperm IH|x y l|l l' l'' H1 IH1 H2 IH2];
    intros acc self Hnd Hloop.
  - done.
  - apply for_each_cons_ok in Hloop as (a1 & s1 & Hx & Hloop).
    apply for_each_cons_ok. exists a1, s1. split; [done |].
    apply IH; [| done]. simpl in Hnd. by apply NoDup_cons in Hnd as [_ ?].
  - apply for_each_cons_ok in Hloop as (a1 & s1 & Hy & Hloop).
    apply for_each_cons_ok in Hloop as (a2 & s2 & Hx & Hloop).
    simpl in Hnd. apply NoDup_cons in Hnd as [Hin _].
    assert (y.1 <> x.1) as Hne.
    { intros Heq. apply Hin. rewrite Heq. by left. }
    destruct (format_item_swap _ _ _ _ _ _ _ _ Hne Hy Hx)
      as (a1' & s1' & Hx' & Hy').
    apply for_each_cons_ok. exists a1', s1'. split; [done |].
    apply for_each_cons_ok. by exists a2, s2.
  - apply IH2; [by rewrite <- H1 | by apply IH1].
Qed.

Lemma format_congr kwargs kwargs' self :
  render_values kwargs self = render_values kwargs' self ->
  format kwargs self = format kwargs' self.
Proof.
  intros H. unfold format. unfold mbind, method_bind, bind at 1.
  rewrite H. done.
Qed.
(** ** The example objects *)

Example counter_init :
  init [] " | " [("count", VStr "count:{:4d}")] = Ok counter.
Proof. vm_compute. reflexivity. Qed.

Example pair_init :
  init [] " | " [("a", VStr "{:3d}"); ("b", VStr "{:3d}")] = Ok pair.
Proof. vm_compute. reflexivity. Qed.

(** A decidable proposition that evaluates to true. *)
Ltac by_compute := refine (bool_decide_unpack _ _); vm_compute; exact I.

Lemma counter_valid : valid counter.
Proof. by_compute. Defined.

Lemma pair_valid : valid pair.
Proof. by_compute. Defined.

(** The scenario of the width ratchet: 5, then 123456, then 5 again. *)
Example counter_scenario :
  let '(r1, w1) := format [("count", VInt 5)] counter in
  let '(r2, w2) := format [("count", VInt 123456)] w1 in
  let '(r3, w3) := format [("count", VInt 5)] w2 in
  (r1, r2, r3, pad_lengths w3 !! "count") =
  (Ok "count:   5", Ok "count:123456", Ok "count:     5", Some 6).
Proof. vm_compute. reflexivity. Qed.

(** ** The built-ins on sample inputs *)

(** Sites nested in stray braces, an empty site, and an attempt left open
    at the end of the text. *)
Example findall_and_sub :
  findall_pattern "a {b {c} d} {e} {fg} {} }{" = ["c"; "e"; "fg"; ""] /\
  sub_pattern "{}" "a {b {c} d} {e} {fg} {} }{ {x" = "a {b {} d} {} {} {} }{ {x" /\
  findall_number ":" "::12:3a:.:45" = ["12"; "3"; "45"] /\
  findall_number "." ":5.2.3f..7" = ["2"; "3"; "7"].
Proof. vm_compute. repeat split; reflexivity. Qed.

(** Widths, the zero flag, signs, rounding to even, and the errors of
    [str.format].  The floats are 1.5, 2.5, 0.125 and -0.001. *)
Example str_format_samples :
  str_format "{:5d}" [VInt (-42)] = Ok "  -42" /\
  str_format "{:05d}" [VInt (-42)] = Ok "-0042" /\
  str_format "{:0d}" [VInt (-5)] = Ok "-5" /\
  str_format "{:5}" [VInt 7] = Ok "    7" /\
  str_format "{:.2f}" [VInt 5] = Ok "5.00" /\
  str_format "{:08.2f}" [VFloat (S754_finite true 3 (-1))] = Ok "-0001.50" /\
  str_format "{:.0f}" [VFloat (S754_finite false 5 (-1))] = Ok "2" /\
  str_format "{:.2f}" [VFloat (S754_finite false 1 (-3))] = Ok "0.12" /\
  str_format "{:.2f}" [VFloat (S754_finite true 0x10624dd2f1a9fc (-62))]
    = Ok "-0.00" /\
  str_format "{:f}" [VFloat (S754_zero true)] = Ok "-0.000000" /\
  str_format "{:.3f}" [VInt (2 ^ 70 + 12345)] = Ok "1180591620717411303424.000" /\
  str_format "{:f}" [VInt (2 ^ 1024 - 1)] = Err IntTooLarge /\
  str_format "{:0d}" [VFloat one_and_a_half] = Err (UnknownFormatCode "d") /\
  str_format "{:0f}" [VStr "x"] = Err (UnknownFormatCode "f") /\
  str_format "{:0.2d}" [VInt 7] = Err PrecisionNotAllowed /\
  str_format "{{}" [VInt 7] = Err SingleBrace /\
  str_format "{{}}" [VInt 7] = Ok "{}" /\
  str_format "}}{}" [VInt 7] = Ok "}7" /\
  str_format "{}{}" [VInt 7] = Err ReplacementIndex.
Proof. vm_compute. repeat split; reflexivity. Qed.

(** ** The tests of the repository *)

Example test_message_validation :
  validate_message (VStr "A valid message + pattern {:5.2f}") = Ok true /\
  validate_message (VStr "{:0.0f} is also valid") = Ok true /\
  validate_message (VStr "{:7f}") = Ok true /\
  validate_message (VStr "{:f}") = Ok true /\
  validate_message (VStr "{:.3f}") = Ok true /\
  validate_message (VStr "A valid message {:5d}") = Ok true /\
  validate_message (VStr "{:0d} is also valid") = Ok true /\
  validate_message (VStr "{:d}") = Ok true /\
  validate_message (VInt 25) = Err NotString /\
  validate_message (VStr "{:5.5d}") = Err PrecisionOnNonFloat /\
  validate_message (VStr "{:s}") = Err (UnsupportedType "s") /\
  validate_message (VStr "{:whoops}") = Err (UnsupportedType "s") /\
  validate_message (VStr "I forgot a pattern.") = Err NoPattern /\
  validate_message (VStr "Two patterns {:5.2f} {:6.3f}") = Err MultiplePatterns.
Proof. vm_compute. repeat split; reflexivity. Qed.

Example test_decompose_pattern :
  decompose_pattern ":0.0f" = Ok ("f", Some 0, Some 0) /\
  decompose_pattern ":7f" = Ok ("f", Some 7, None) /\
  decompose_pattern ":f" = Ok ("f", None, None) /\
  decompose_pattern ":.3f" = Ok ("f", None, Some 3) /\
  decompose_pattern ":5d" = Ok ("d", Some 5, None) /\
  decompose_pattern ":0d" = Ok ("d", Some 0, None) /\
  decompose_pattern ":d" = Ok ("d", None, None).
Proof. vm_compute. repeat split; reflexivity. Qed.

Example test_compose_pattern :
  compose_pattern None (Some 0) (Some 0) = Ok "{:0.0}" /\
  compose_pattern None (Some 7) None = Ok "{:7}" /\
  compose_pattern None None None = Ok "{:}" /\
  compose_pattern None None (Some 3) = Ok "{:.3}" /\
  compose_pattern (Some "f") (Some 0) (Some 0) = Ok "{:0.0f}" /\
  compose_pattern (Some "f") (Some 7) None = Ok "{:7f}" /\
  compose_pattern (Some "f") None None = Ok "{:f}" /\
  compose_pattern (Some "f") None (Some 3) = Ok "{:.3f}" /\
  compose_pattern (Some "d") (Some 5) None = Ok "{:5d}" /\
  compose_pattern (Some "d") (Some 0) None = Ok "{:0d}" /\
  compose_pattern (Some "d") None None = Ok "{:d}".
Proof. vm_compute. repeat split; reflexivity. Qed.

(** [Iterwriter(count="count: {:4d}", delta="value += {:.2f}")], its
    attributes, and [add_message("best", "(best: {6.2f})")]. *)
Example test_initialisation_and_add :
  match init [] " | " [("count", VStr "count: {:4d}");
                       ("delta", VStr "value += {:.2f}")] with
  | Ok writer =>
      names writer = ["count"; "delta"] /\
      messages writer = {["count" := "count: {}"; "delta" := "value += {}"]} /\
      bases writer = {["count" := "d"; "delta" := "f"]} /\
      pad_lengths writer = {["count" := 4; "delta" := 0]} /\
      decimals writer = {["count" := None; "delta" := Some 2]} /\
      names (add_message "best" (VStr "(best: {6.2f})") writer).2
        = ["count"; "delta"; "best"]
  | Err _ => False
  end /\
  init [] "" [] = Ok {| sep := ""; names := []; messages := ∅; bases := ∅;
                        pad_lengths := ∅; decimals := ∅ |} /\
  init [VStr "({update:3d} / 100): "; VStr "{val:6.3f}"] "" []
    = Err UnnamedFieldsUnsupported.
Proof. vm_compute. repeat split; reflexivity. Qed.

(** [writer.format(count=100, delta=0.05)], and the second scenario of the
    specification, [format(delta=3.14159)]; the two floats are given by
    their binary mantissa and exponent. *)
Example test_separator :
  match init [] " | " [("count", VStr "count: {:4d}");
                       ("delta", VStr "value += {:.2f}")] with
  | Ok writer =>
      (format [("count", VInt 100);
               ("delta", VFloat (S754_finite false 0x1999999999999a (-57)))]
         writer).1
  | Err e => Err e
  end = Ok "count:  100 | value += 0.05" /\
  match init [] " | " [("delta", VStr "value += {:.2f}")] with
  | Ok writer =>
      (format [("delta", VFloat (S754_finite false 0x1921f9f01b866e (-51)))]
         writer).1
  | Err e => Err e
  end = Ok "value += 3.14".
Proof. vm_compute. split; reflexivity. Qed.

(** The sequence of [test_writing]: the writer remembers the length of
    [jumbo], and forgetting an argument raises. *)
Example test_writing :
  match init [] "--" [("mumbo", VStr "long:{:10d}");
                      ("jumbo", VStr "short:{:0d}")] with
  | Ok writer =>
      let '(r1, writer) := format [("mumbo", VInt 0); ("jumbo", VInt 0)] writer in
      let '(r2, writer) := format [("mumbo", VInt 43210); ("jumbo", VInt 0)] writer in
      let '(r3, writer) :=
        format [("mumbo", VInt 43210); ("jumbo", VInt 6543210)] writer in
      let '(r4, writer) := format [("mumbo", VInt 43210); ("jumbo", VInt 0)] writer in
      let '(r5, writer) := format [("mumbo", VInt 500)] writer in
      (r1, r2, r3, r4, r5)
  | Err e => (Err e, Err e, Err e, Err e, Err e)
  end =
  (Ok "long:         0--short:0", Ok "long:     43210--short:0",
   Ok "long:     43210--short:6543210", Ok "long:     43210--short:      0",
   Err (MissingFields {["jumbo"]})).
Proof. vm_compute. reflexivity. Qed.

(** ** The fragment of [str.format] *)

(** On a field of a supported type the rendering of a value stays inside
    the fragment of [str.format] that is modelled. *)
Lemma natural_in_fragment base dec v :
  base ∈ ["d"; "f"] -> natural base dec v <> Err BeyondFragment.
Proof.
  intros Hb. rewrite natural_eq.
  assert (exists c, base = String c "" /\ (c = "d"%char \/ c = "f"%char))
    as (c & -> & Hc).
  { set_unfold in Hb. destruct Hb as [-> | [-> | []]]; eexists; eauto. }
  rewrite str_format_composed by done.
  unfold format_spec_value. cbn [type_code precision].
  destruct v as [s|n|x], Hc as [-> | ->]; cbn;
    repeat (case_bool_decide; try done; cbn).
  all: try (destruct dec; done).
  destruct (float_of_int n) as [x|e] eqn:E; cbn; [done |].
  intros [= ->]. destruct n as [|p|p]; cbn in E; try done;
    unfold float_of_pos in E; repeat case_match; done.
Qed.

(** * The claims *)

(** C1 (amended). Across [format] calls, and [add_message] calls that
    register other names, the stored minimum width of a field never
    decreases: every [format] call leaves it unchanged or increases it,
    whether it returns or raises.  Consequently, on an object that
    satisfies the class invariant, the rendered width of the field's value
    over a sequence of such calls is non-decreasing, also when later values
    are shorter.  (Registering the name again with [add_message] resets
    the stored width to the one its new message declares.) *)
Theorem width_ratchet (self : Iterwriter) (name : string) (calls : list call) :
  valid self ->
  Forall (fun c => registers name c = false) calls ->
  (forall kwargs n,
     pad_lengths self !! name = Some n ->
     exists n', pad_lengths (format kwargs self).2 !! name = Some n' /\ n <= n') /\
  (forall n,
     pad_lengths self !! name = Some n ->
     exists n', pad_lengths (run_calls self calls) !! name = Some n' /\ n <= n') /\
  (forall kwargs1 kwargs2 composed1 composed2 self1 self2 s1 s2,
     render_values kwargs1 self = (Ok composed1, self1) ->
     render_values kwargs2 (run_calls self1 calls) = (Ok composed2, self2) ->
     composed1 !! name = Some s1 -> composed2 !! name = Some s2 ->
     String.length s1 <= String.length s2).
Proof.
  intros Hv Hcalls. split; [| split].
  - intros kwargs n Hn. eapply grows_pad_lengths; [apply format_grows | done].
  - intros n Hn. by apply run_calls_pad_lengths.
  - intros kwargs1 kwargs2 composed1 composed2 self1 self2 s1 s2 H1 H2 Hs1 Hs2.
    pose proof (render_values_grows kwargs1 self) as Hg1.
    rewrite H1 in Hg1. simpl in Hg1.
    assert (valid self1) as Hv1 by (by eapply grows_valid).
    pose proof (render_values_widths _ _ _ _ _ _ Hv H1 Hs1) as Hw1.
    destruct (run_calls_pad_lengths _ _ _ _ Hcalls Hw1) as (n & Hn & Hle).
    pose proof (run_calls_valid self1 calls Hv1) as Hv2.
    pose proof (render_values_widths _ _ _ _ _ _ Hv2 H2 Hs2) as Hw2.
    pose proof (render_values_grows kwargs2 (run_calls self1 calls)) as Hg2.
    rewrite H2 in Hg2. simpl in Hg2.
    destruct (grows_pad_lengths _ _ _ _ Hg2 Hn) as (n' & Hn' & Hle').
    rewrite Hw2 in Hn'. injection Hn' as <-. lia.
Qed.

Lemma width_ratchet_witness :
  valid counter /\
  Forall (fun c => registers "count" c = false)
    [Format [("count", VInt 123456)]] /\
  String.length "   5" <= String.length "     5".
Proof.
  pose proof counter_valid as Hv.
  assert (Forall (fun c => registers "count" c = false)
            [Format [("count", VInt 123456)]]) as Hc by by_compute.
  split; [exact Hv |]. split; [exact Hc |].
  destruct (width_ratchet counter "count" _ Hv Hc) as (_ & _ & H).
  apply (H [("count", VInt 5)] [("count", VInt 5)]
           {["count" := "   5"]} {["count" := "     5"]}
           counter (set_pad_lengths "count" 6 counter));
    vm_compute; reflexivity.
Defined.

(** C1, as stated, fails when the lifetime registers the field again:
    [counter.format(count=123456)] raises the stored width of [count] from
    4 to 6, and [counter.add_message("count", "count:{:4d}")] puts it back
    to 4, so that the value 5 is rendered 6 wide before it and 4 wide
    after it. *)
Lemma reregistration_resets_width :
  pad_lengths (run_calls counter [Format [("count", VInt 123456)]]) !! "count"
    = Some 6 /\
  pad_lengths (run_calls counter [Format [("count", VInt 123456)];
                                  AddMessage "count" (VStr "count:{:4d}")])
    !! "count" = Some 4 /\
  (format [("count", VInt 5)]
     (run_calls counter [Format [("count", VInt 123456)]])).1
    = Ok "count:     5" /\
  (format [("count", VInt 5)]
     (run_calls counter [Format [("count", VInt 123456)];
                         AddMessage "count" (VStr "count:{:4d}")])).1
    = Ok "count:   5".
Proof. vm_compute. repeat split; reflexivity. Qed.

(** C2 (amended). For every triple that is valid under the
    float-only-precision rule, [decompose_pattern] applied to the text
    between the braces of the string that [compose_pattern] returns (the
    single site that [PATTERN_REGEX] finds in it) yields the same triple. *)
Theorem compose_decompose_roundtrip (typeTag : string)
    (minWidth precision : option nat) :
  valid_triple typeTag minWidth precision = true ->
  (pattern ← compose_pattern (Some typeTag) minWidth precision;
   inner ← item0 (findall_pattern pattern);
   decompose_pattern inner) = Ok (typeTag, minWidth, precision).
Proof.
  intros [Ht _]%andb_true_iff. apply bool_decide_eq_true in Ht.
  rewrite compose_pattern_canonical. simpl.
  rewrite canonical_pattern_inner.
  pose proof (findall_pattern_one "" (canonical_inner typeTag minWidth precision) ""
                eq_refl (canonical_inner_brace_free _ _ _ Ht) eq_refl) as Hf.
  change ("" +:+ ?x) with x in Hf. rewrite Hf. simpl.
  by apply decompose_canonical_inner.
Qed.

Lemma compose_decompose_roundtrip_witness :
  valid_triple "f" (Some 7) (Some 2) = true /\
  (pattern ← compose_pattern (Some "f") (Some 7) (Some 2);
   inner ← item0 (findall_pattern pattern);
   decompose_pattern inner) = Ok ("f", Some 7, Some 2).
Proof.
  split; [reflexivity |].
  apply (compose_decompose_roundtrip "f" (Some 7) (Some 2)). reflexivity.
Defined.

(** C2, as stated, fails: [compose_pattern] returns the pattern with its
    braces, and the last character of that string, which
    [decompose_pattern] takes for the type, is the closing brace. *)
Lemma decompose_composed_keeps_brace :
  valid_triple "d" (Some 5) None = true /\
  (pattern ← compose_pattern (Some "d") (Some 5) None;
   decompose_pattern pattern) = Ok ("}", Some 5, None).
Proof. vm_compute. split; reflexivity. Qed.

(** C3 (amended). On an object that satisfies the class invariant, a
    [format] call whose supplied names form a strict subset of the
    registered names, and whose supplied values can all be rendered by
    their fields' patterns, fails with the MissingFields kind, and the
    error names exactly the registered names that were not supplied; a
    call that supplies a value for every registered name never fails with
    that kind. *)
Theorem missing_fields_detected :
  (forall self kwargs,
     valid self ->
     Forall (fun kv => renderable self kv = true) kwargs ->
     list_to_set kwargs.*1 ⊂ (list_to_set (names self) : gset string) ->
     (format kwargs self).1 =
     Err (MissingFields (list_to_set (names self) ∖ list_to_set kwargs.*1)) /\
     class_of (MissingFields (list_to_set (names self) ∖ list_to_set kwargs.*1))
       = Some ValueError) /\
  (forall self kwargs missing,
     (list_to_set (names self) : gset string) ⊆ list_to_set kwargs.*1 ->
     (format kwargs self).1 <> Err (MissingFields missing)).
Proof.
  split.
  - intros self kwargs Hv Hr Hsub. split; [| done].
    destruct (loop_ok kwargs ∅ self Hv Hr) as (composed & self' & Hloop).
    change (render_values kwargs self = (Ok composed, self')) in Hloop.
    pose proof (render_values_grows kwargs self) as Hg.
    rewrite Hloop in Hg. simpl in Hg. destruct Hg as (_ & Hn & _).
    pose proof (loop_dom _ _ _ _ _ Hloop) as Hdom.
    rewrite dom_empty_L, (left_id_L ∅ (∪)) in Hdom.
    rewrite (format_missing _ _ _ _ Hloop); simpl.
    + by rewrite Hn, Hdom.
    + rewrite Hn, Hdom.
      destruct (set_choose_L (list_to_set (names self) ∖ list_to_set kwargs.*1
                              : gset string)) as [name Hname].
      { destruct Hsub as [_ Hsub]. intros Hempty. apply Hsub.
        intros x Hx. destruct (decide (x ∈ (list_to_set kwargs.*1 : gset string)));
          [done |]. exfalso. eapply (not_elem_of_empty (C:=gset string) x).
        rewrite <- Hempty. by apply elem_of_difference. }
      exists name. apply elem_of_difference in Hname as [H1 H2].
      by apply elem_of_list_to_set in H1.
  - intros self kwargs missing Hsub Hfail.
    destruct (format kwargs self) as [r self'] eqn:Hf. simpl in Hfail. subst r.
    apply format_documented in Hf as (composed & Hloop & _ & name & Hin & Hout);
      [| done].
    pose proof (render_values_grows kwargs self) as Hg.
    rewrite Hloop in Hg. simpl in Hg. destruct Hg as (_ & Hn & _).
    pose proof (loop_dom _ _ _ _ _ Hloop) as Hdom.
    rewrite dom_empty_L, (left_id_L ∅ (∪)) in Hdom.
    apply Hout. rewrite Hdom. apply Hsub. apply elem_of_list_to_set.
    by rewrite <- Hn.
Qed.

Lemma missing_fields_detected_witness :
  valid pair /\
  Forall (fun kv => renderable pair kv = true) [("a", VInt 1)] /\
  list_to_set [("a", VInt 1)].*1 ⊂ (list_to_set (names pair) : gset string) /\
  (format [("a", VInt 1)] pair).1 =
  Err (MissingFields (list_to_set (names pair) ∖ list_to_set [("a", VInt 1)].*1)) /\
  (list_to_set (names pair) : gset string)
    ⊆ list_to_set [("b", VInt 2); ("a", VInt 1)].*1 /\
  (format [("b", VInt 2); ("a", VInt 1)] pair).1 <> Err (MissingFields {["b"]}).
Proof.
  pose proof pair_valid as Hv.
  assert (Forall (fun kv => renderable pair kv = true) [("a", VInt 1)])
    as Hr by by_compute.
  assert (list_to_set [("a", VInt 1)].*1 ⊂ (list_to_set (names pair) : gset string))
    as Hsub by by_compute.
  assert ((list_to_set (names pair) : gset string)
            ⊆ list_to_set [("b", VInt 2); ("a", VInt 1)].*1) as Hall by by_compute.
  split; [exact Hv |]. split; [exact Hr |]. split; [exact Hsub |].
  split; [| split; [exact Hall |]].
  - apply (proj1 missing_fields_detected pair [("a", VInt 1)] Hv Hr Hsub).
  - apply (proj2 missing_fields_detected pair _ _ Hall).
Defined.

(** C3, as stated, fails when a supplied value cannot be rendered: the
    loop of [format] raises before the missing-field check is reached.
    [pair.format(a=1.5)] supplies a strict subset of the names and fails
    with the error of [str.format] for code [d] on a float, which names no
    field. *)
Lemma unrenderable_value_precedes_missing_fields :
  list_to_set [("a", VFloat one_and_a_half)].*1
    ⊂ (list_to_set (names pair) : gset string) /\
  (format [("a", VFloat one_and_a_half)] pair).1 = Err (UnknownFormatCode "d").
Proof. split; [by_compute | vm_compute; reflexivity]. Qed.

(** C4 (amended). On an object that satisfies the class invariant, a
    [format] call that supplies a name that was never registered does not
    succeed, whatever other names it supplies: when the loop reaches that
    name after rendering the entries before it, the lookup of its stored
    type raises KeyError, and no output is produced. *)
Theorem unknown_name_rejected (self : Iterwriter)
    (kwargs : list (string * value)) (name : string) :
  valid self -> name ∈ kwargs.*1 -> name ∉ names self ->
  (forall out, (format kwargs self).1 <> Ok out) /\
  (forall before v after composed self1,
     kwargs = before ++ (name, v) :: after ->
     render_values before self = (Ok composed, self1) ->
     format kwargs self = (Err (MissingKey name), self1) /\
     class_of (MissingKey name) = Some KeyError).
Proof.
  intros Hv Hin Hout. split.
  - intros out Hf. destruct (format kwargs self) as [r self'] eqn:E.
    simpl in Hf. subst r.
    apply format_ok in E as (composed & literals & Hloop & _).
    apply Hout, valid_registered; [done |]. by eapply loop_registered.
  - intros before v after composed self1 -> Hloop. split; [| done].
    pose proof (render_values_grows before self) as Hg.
    rewrite Hloop in Hg. simpl in Hg. destruct Hg as (_ & _ & _ & Hb & _).
    assert (bases self1 !! name = None) as Hnone.
    { rewrite Hb. apply eq_None_not_Some. by rewrite <- valid_registered. }
    assert (render_values (before ++ (name, v) :: after) self =
            (Err (MissingKey name), self1)) as Hr.
    { unfold render_values in *. rewrite for_each_app, Hloop.
      cbn [for_each]. unfold bind. by rewrite format_item_eq, Hnone. }
    unfold format. unfold mbind, method_bind, bind at 1. by rewrite Hr.
Qed.

Lemma unknown_name_rejected_witness :
  valid counter /\
  ("extra" ∈ [("count", VInt 5); ("extra", VInt 1)].*1) /\
  ("extra" ∉ names counter) /\
  format [("count", VInt 5); ("extra", VInt 1)] counter =
  (Err (MissingKey "extra"), counter).
Proof.
  pose proof counter_valid as Hv.
  assert ("extra" ∈ [("count", VInt 5); ("extra", VInt 1)].*1) as Hin by by_compute.
  assert ("extra" ∉ names counter) as Hout by by_compute.
  split; [exact Hv |]. split; [exact Hin |]. split; [exact Hout |].
  apply (proj2 (unknown_name_rejected counter _ "extra" Hv Hin Hout)
           [("count", VInt 5)] (VInt 1) [] {["count" := "   5"]} counter).
  - reflexivity.
  - vm_compute. reflexivity.
Defined.

(** C4, as stated, fails: [counter.format(count=5, extra=1)] supplies the
    registered name and one more, and raises KeyError for the extra name. *)
Lemma extra_name_raises_key_error :
  (list_to_set (names counter) : gset string)
    ⊆ list_to_set [("count", VInt 5); ("extra", VInt 1)].*1 /\
  (format [("count", VInt 5); ("extra", VInt 1)] counter).1
    = Err (MissingKey "extra") /\
  class_of (MissingKey "extra") = Some KeyError.
Proof. split; [by_compute | vm_compute; split; reflexivity]. Qed.



(** C6. The output of every successful [format] call is the literal texts
    of the registered names (the stored message of each, applied to the
    rendered value of its name) joined in registration order with the
    separator between consecutive entries; the order in which the names
    appear in the supplied values does not matter. *)
Theorem format_join_order :
  (forall self kwargs out self',
     format kwargs self = (Ok out, self') ->
     exists composed literals,
       render_values kwargs self = (Ok composed, self') /\
       Forall2 (fun name literal => literal_of self composed name = Ok literal)
         (names self) literals /\
       out = join (sep self) literals) /\
  (forall self kwargs kwargs' out self',
     NoDup kwargs.*1 -> kwargs ≡ₚ kwargs' ->
     format kwargs self = (Ok out, self') ->
     format kwargs' self = (Ok out, self')).
Proof.
  split.
  - intros self kwargs out self' Hf.
    destruct (format_ok _ _ _ _ Hf) as (composed & literals & Hloop & Hall & ->).
    pose proof (render_values_grows kwargs self) as Hg.
    rewrite Hloop in Hg. simpl in Hg. destruct Hg as (Hs & Hn & Hm & _).
    exists composed, literals. rewrite <- Hs, <- Hn. repeat split; try done.
    eapply Forall2_impl; [exact Hall |]. intros name literal.
    unfold literal_of. by rewrite Hm.
  - intros self kwargs kwargs' out self' Hnd Hperm Hf.
    destruct (format_ok _ _ _ _ Hf) as (composed & _ & Hloop & _).
    rewrite <- Hf. symmetry. apply format_congr. rewrite Hloop. symmetry.
    by apply (render_loop_perm kwargs kwargs').
Qed.

Lemma format_join_order_witness :
  NoDup [("a", VInt 1); ("b", VInt 2)].*1 /\
  [("a", VInt 1); ("b", VInt 2)] ≡ₚ [("b", VInt 2); ("a", VInt 1)] /\
  format [("a", VInt 1); ("b", VInt 2)] pair = (Ok "  1 |   2", pair) /\
  format [("b", VInt 2); ("a", VInt 1)] pair = (Ok "  1 |   2", pair).
Proof.
  assert (NoDup [("a", VInt 1); ("b", VInt 2)].*1) as Hnd by by_compute.
  assert ([("a", VInt 1); ("b", VInt 2)] ≡ₚ [("b", VInt 2); ("a", VInt 1)])
    as Hperm by apply perm_swap.
  assert (format [("a", VInt 1); ("b", VInt 2)] pair = (Ok "  1 |   2", pair))
    as Hf by (vm_compute; reflexivity).
  split; [exact Hnd |]. split; [exact Hperm |]. split; [exact Hf |].
  apply (proj2 format_join_order pair _ _ _ _ Hnd Hperm Hf).
Defined.

(** C7. A failed [add_message] leaves the object as it was, since the
    validation precedes every update; a [format] call that fails with the
    MissingFields kind leaves the object as its loop left it, so the
    stored width of a supplied field may already have grown
    ([pair.format(a=12345)] fails and leaves the width of [a] at 5). *)
Theorem failure_state :
  (forall name m self e self',
     add_message name m self = (Err e, self') -> self' = self) /\
  (forall kwargs self missing self',
     format kwargs self = (Err (MissingFields missing), self') ->
     self' = (render_values kwargs self).2) /\
  format [("a", VInt 12345)] pair =
    (Err (MissingFields {["b"]}), set_pad_lengths "a" 5 pair) /\
  pad_lengths pair !! "a" = Some 3 /\
  pad_lengths (set_pad_lengths "a" 5 pair) !! "a" = Some 5.
Proof.
  split; [| split].
  - intros name m self e self' H. by apply add_message_fails in H as [_ ->].
  - intros kwargs self missing self' H. apply (f_equal snd) in H.
    by rewrite format_state in H.
  - vm_compute. repeat split; reflexivity.
Qed.

Lemma failure_state_witness :
  add_message "c" (VStr "no pattern") pair =
    (Err NoPattern, (add_message "c" (VStr "no pattern") pair).2) /\
  (add_message "c" (VStr "no pattern") pair).2 = pair /\
  format [("a", VInt 12345)] pair =
    (Err (MissingFields {["b"]}), set_pad_lengths "a" 5 pair) /\
  set_pad_lengths "a" 5 pair = (render_values [("a", VInt 12345)] pair).2.
Proof.
  destruct failure_state as (H1 & H2 & H3 & _).
  assert (add_message "c" (VStr "no pattern") pair =
            (Err NoPattern, (add_message "c" (VStr "no pattern") pair).2))
    as Ha by (vm_compute; reflexivity).
  split; [exact Ha |]. split; [exact (H1 _ _ _ _ _ Ha) |].
  split; [exact H3 |]. exact (H2 _ _ _ _ H3).
Defined.

(** C8. [compose_pattern] produces the canonical pattern, an opening brace
    and a colon, the minimum width, a dot and the precision when a
    precision is set, the type, and a closing brace, for every combination
    of present and absent parts; with all three absent it returns the bare
    placeholder. *)
Theorem compose_pattern_canonical_form :
  (forall base pad_length decimal,
     compose_pattern base pad_length decimal =
     Ok (canonical_pattern base pad_length decimal)) /\
  compose_pattern None None None = Ok "{:}".
Proof. split; [apply compose_pattern_canonical | reflexivity]. Qed.

(** C9. The constructor rejects every non-empty tuple of positional
    arguments with the UnnamedFieldsUnsupported kind
    (NotImplementedError), and never rejects a construction from named
    fields alone with that kind. *)
Theorem unnamed_fields_rejected :
  (forall arg args sep_ kwargs,
     init (arg :: args) sep_ kwargs = Err UnnamedFieldsUnsupported) /\
  class_of UnnamedFieldsUnsupported = Some NotImplementedError /\
  (forall sep_ kwargs, init [] sep_ kwargs <> Err UnnamedFieldsUnsupported).
Proof.
  repeat split.
  intros sep_ kwargs. unfold init. simpl.
  destruct (for_each _ kwargs () _) as [[u|e] self'] eqn:Hloop; [done |].
  intros [= ->].
  apply (for_each_err _ (fun e => e <> UnnamedFieldsUnsupported)) in Hloop;
    [done |].
  intros [] [name m] self e s' Hadd. simpl in Hadd.
  apply add_message_fails in Hadd as [Hm _].
  apply validate_message_err in Hm. naive_solver.
Qed.

(** C10. A message with a single substitution site whose pattern is empty
    (such as [{}]) makes [validate_message], and hence [add_message] and
    the constructor, raise the IndexError of [decompose_pattern] taking
    the last character of an empty string, which is none of the error
    kinds of the class. *)
Theorem empty_pattern_index_error (s : string) :
  findall_pattern s = [""] ->
  validate_message (VStr s) = Err StringIndex /\
  (forall name self,
     add_message name (VStr s) self = (Err StringIndex, self)) /\
  (forall sep_ name kwargs,
     init [] sep_ ((name, VStr s) :: kwargs) = Err StringIndex) /\
  class_of StringIndex = Some IndexError /\
  documented StringIndex = false.
Proof.
  intros Hf.
  assert (validate_message (VStr s) = Err StringIndex) as Hv.
  { by rewrite validate_message_eq, Hf. }
  repeat split; try done.
  - intros name self. by apply add_message_err.
  - intros sep_ name kwargs. unfold init. cbn [length Nat.ltb Nat.leb for_each].
    unfold bind. cbn [fst snd]. by rewrite (add_message_err _ _ _ _ Hv).
Qed.

Lemma empty_pattern_index_error_witness :
  findall_pattern "{}" = [""] /\
  validate_message (VStr "{}") = Err StringIndex /\
  init [] " | " [("a", VStr "{}")] = Err StringIndex.
Proof.
  assert (findall_pattern "{}" = [""]) as Hf by reflexivity.
  destruct (empty_pattern_index_error "{}" Hf) as (Hv & _ & Hi & _).
  split; [exact Hf |]. split; [exact Hv | apply Hi].
Defined.

(** * Further lemmas *)

(** ** Invariants of loops and lifetimes *)

Lemma for_each_inv {A B} (body : B -> A -> M B) (P : Iterwriter -> Prop) l acc self :
  (forall acc x self, P self -> P (body acc x self).2) ->
  P self -> P (for_each body l acc self).2.
Proof.
  intros Hbody. revert acc self.
  induction l as [|x l IH]; intros acc self HP; simpl; [done |].
  unfold bind. specialize (Hbody acc x self HP).
  destruct (body acc x self) as [[acc'|e] self']; simpl in *; [by apply IH | done].
Qed.

Lemma run_calls_inv (P : Iterwriter -> Prop) self calls :
  (forall self c, P self -> P (run_call self c)) ->
  P self -> P (run_calls self calls).
Proof.
  intros Hcall. revert self.
  induction calls as [|c calls IH]; intros self HP; simpl; [done |].
  apply IH. by apply Hcall.
Qed.

(** ** Precisions are stored for float fields only *)

Lemma register_precise name message base pad dec self :
  precise self -> (is_Some dec -> base = "f") ->
  precise (register name message base pad dec self).
Proof.
  intros Hp Hdec. unfold precise, register. simpl.
  assert (forall self', decimals self' = decimals self -> bases self' = bases self ->
            map_Forall (fun k d => is_Some d -> <[name := base]> (bases self') !! k
                                               = Some "f")
              (<[name := dec]> (decimals self'))) as Hsame.
  { intros self' -> ->. intros k d Hk Hd.
    destruct (decide (name = k)) as [<- | Hne].
    - rewrite lookup_insert_eq in Hk. rewrite lookup_insert_eq.
      simplify_eq. f_equal. by apply Hdec.
    - rewrite lookup_insert_ne in Hk by done. rewrite lookup_insert_ne by done.
      by apply (Hp k d). }
  by case_bool_decide; apply Hsame.
Qed.

Lemma add_message_precise name m self :
  precise self -> precise (add_message name m self).2.
Proof.
  intros Hp. destruct (validate_message m) as [b|e] eqn:Hm.
  - destruct (validate_message_ok _ _ Hm)
      as (s & pattern & base & pad & dec & -> & Hf & Hd & _ & Hdec).
    rewrite (add_message_ok _ _ _ _ _ _ _ _ Hm Hf Hd). simpl.
    by apply register_precise.
  - by rewrite (add_message_err _ _ _ _ Hm).
Qed.

Lemma grows_precise self self' : grows self self' -> precise self -> precise self'.
Proof.
  intros (_ & _ & _ & Hb & Hd & _). unfold precise. by rewrite Hb, Hd.
Qed.

Lemma run_call_precise self c : precise self -> precise (run_call self c).
Proof.
  intros Hp. destruct c as [kwargs | name m]; simpl.
  - eapply grows_precise; [apply format_grows | done].
  - by apply add_message_precise.
Qed.

Lemma init_precise args sep_ kwargs self :
  init args sep_ kwargs = Ok self -> precise self.
Proof.
  unfold init. destruct (0 <? length args)%nat; [done |].
  match goal with |- context [for_each ?b ?l ?a ?s] =>
    pose proof (for_each_inv b precise l a s) as H;
    destruct (for_each b l a s) as [[u|e] self'] end; [| done].
  intros [= <-]. apply H.
  - intros _ kv s. apply add_message_precise.
  - apply map_Forall_empty.
Qed.

Lemma reachable_precise self : reachable self -> precise self.
Proof.
  intros (sep_ & kwargs & self0 & calls & _ & Hinit & ->).
  apply run_calls_inv; [apply run_call_precise | by eapply init_precise].
Qed.

(** ** The loop of [format], name by name *)

Lemma format_item_other acc kv self name :
  name <> kv.1 ->
  pad_lengths (format_item acc kv self).2 !! name = pad_lengths self !! name.
Proof.
  destruct kv as [name' v]. cbn [fst]. intros Hne. rewrite format_item_eq.
  destruct (bases self !! name'), (pad_lengths self !! name'),
    (decimals self !! name'); try done.
  destruct (str_format _ [v]); [| done].
  destruct (_ <? _)%nat; [| done]. simpl. by rewrite lookup_insert_ne.
Qed.

Lemma loop_other kwargs acc self name :
  name ∉ kwargs.*1 ->
  pad_lengths (for_each format_item kwargs acc self).2 !! name
  = pad_lengths self !! name.
Proof.
  revert acc self. induction kwargs as [|kv kwargs IH]; intros acc self Hout;
    simpl; [done |].
  simpl in Hout. apply not_elem_of_cons in Hout as [Hne Hout].
  unfold bind. pose proof (format_item_other acc kv self name Hne) as Hitem.
  destruct (format_item acc kv self) as [[acc1|e] self1]; simpl in *; [| done].
  by rewrite IH.
Qed.

(** Running the loop again, on an object that has the widths the first run
    left for the supplied names, gives the same result and changes
    nothing. *)
Lemma loop_again kwargs acc self r self' self2 :
  map_Forall (fun _ base => base ∈ ["d"; "f"]) (bases self) ->
  NoDup kwargs.*1 ->
  for_each format_item kwargs acc self = (r, self') ->
  bases self2 = bases self -> decimals self2 = decimals self ->
  (forall name, name ∈ kwargs.*1 ->
     pad_lengths self2 !! name = pad_lengths self' !! name) ->
  for_each format_item kwargs acc self2 = (r, self2).
Proof.
  revert acc self. induction kwargs as [|[name v] kwargs IH];
    intros acc self Hall Hnd Hloop Hb Hd Hp.
  - simpl in *. unfold ret in *. by simplify_eq.
  - simpl in Hnd. apply NoDup_cons in Hnd as [Hout Hnd].
    pose proof (loop_other kwargs) as Hother.
    cbn [for_each] in Hloop |- *. unfold bind in Hloop |- *.
    assert (pad_lengths self2 !! name = pad_lengths self' !! name) as Hname.
    { apply Hp. simpl. apply elem_of_cons. by left. }
    destruct (bases self !! name) as [base|] eqn:Eb.
    2:{ rewrite format_item_eq, Eb in Hloop. simplify_eq.
        by rewrite format_item_eq, Hb, Eb. }
    destruct (pad_lengths self !! name) as [pad|] eqn:Ep.
    2:{ rewrite format_item_eq, Eb, Ep in Hloop. simplify_eq.
        by rewrite format_item_eq, Hb, Eb, Hname, Ep. }
    destruct (decimals self !! name) as [dec|] eqn:Ed.
    2:{ rewrite format_item_eq, Eb, Ep, Ed in Hloop. simplify_eq.
        by rewrite format_item_eq, Hb, Eb, Hname, Ep, Hd, Ed. }
    assert (base ∈ ["d"; "f"]) as Hbase by (by eapply Hall).
    rewrite (format_item_valid _ _ _ _ _ _ _ Eb Hbase Ep Ed) in Hloop.
    destruct (natural base dec v) as [s|e] eqn:En.
    + specialize (Hother (<[name := lpad (pad `max` String.length s) s]> acc)
                    (set_pad_lengths name (pad `max` String.length s) self) name Hout).
      rewrite Hloop in Hother. simpl in Hother.
      rewrite lookup_insert_eq in Hother. rewrite Hother in Hname.
      rewrite <- Hb in Eb. rewrite <- Hd in Ed.
      rewrite (format_item_valid _ _ _ _ _ _ _ Eb Hbase Hname Ed), En.
      replace ((pad `max` String.length s) `max` String.length s)
        with (pad `max` String.length s) by lia.
      rewrite (set_pad_lengths_id _ _ _ Hname).
      apply (IH _ (set_pad_lengths name (pad `max` String.length s) self));
        [done | done | done | done | done |].
      intros name' Hin. apply Hp. simpl. apply elem_of_cons. by right.
    + simplify_eq. rewrite <- Hname in Ep. rewrite <- Hb in Eb. rewrite <- Hd in Ed.
      by rewrite (format_item_valid _ _ _ _ _ _ _ Eb Hbase Ep Ed), En.
Qed.

Lemma render_values_again kwargs self r self' :
  valid self -> NoDup kwargs.*1 ->
  render_values kwargs self = (r, self') ->
  render_values kwargs self' = (r, self').
Proof.
  intros (_ & _ & _ & _ & _ & Hall) Hnd Hloop.
  pose proof (render_values_grows kwargs self) as Hg.
  rewrite Hloop in Hg. simpl in Hg. destruct Hg as (_ & _ & _ & Hb & Hd & _).
  by eapply loop_again.
Qed.

(** [format] is its loop followed by steps that read the object. *)
Lemma format_after_loop kwargs kwargs' self self2 r self' :
  render_values kwargs self = (r, self') ->
  render_values kwargs' self2 = (r, self') ->
  format kwargs self = format kwargs' self2.
Proof.
  intros H1 H2. unfold format, mbind, method_bind.
  match goal with |- bind _ ?k _ = _ => generalize k end.
  intros k. unfold bind. by rewrite H1, H2.
Qed.

Lemma loop_acc_other kwargs acc self composed self' name :
  for_each format_item kwargs acc self = (Ok composed, self') ->
  name ∉ kwargs.*1 -> composed !! name = acc !! name.
Proof.
  revert acc self. induction kwargs as [|[name' v] kwargs IH];
    intros acc self Hloop Hout.
  - simpl in Hloop. unfold ret in Hloop. by simplify_eq.
  - simpl in Hout. apply not_elem_of_cons in Hout as [Hne Hout].
    apply for_each_cons_ok in Hloop as (acc1 & self1 & Hitem & Hloop).
    apply format_item_ok in Hitem as (? & ? & ? & ? & ? & _ & _ & _ & _ & -> & _).
    rewrite (IH _ _ Hloop Hout). by rewrite lookup_insert_ne.
Qed.

(** What the loop does for each supplied name: the natural rendering of
    the value, right-aligned in the larger of the stored width and its
    length, which becomes the stored width. *)
Lemma loop_exact kwargs acc self composed self' :
  valid self -> NoDup kwargs.*1 ->
  for_each format_item kwargs acc self = (Ok composed, self') ->
  forall name v, (name, v) ∈ kwargs ->
    exists base pad dec s,
      bases self !! name = Some base /\ pad_lengths self !! name = Some pad /\
      decimals self !! name = Some dec /\ natural base dec v = Ok s /\
      pad_lengths self' !! name = Some (pad `max` String.length s) /\
      composed !! name = Some (lpad (pad `max` String.length s) s).
Proof.
  revert acc self. induction kwargs as [|[name0 v0] kwargs IH];
    intros acc self Hv Hnd Hloop name v Hin.
  - by apply elem_of_nil in Hin.
  - simpl in Hnd. apply NoDup_cons in Hnd as [Hout Hnd].
    apply for_each_cons_ok in Hloop as (acc1 & self1 & Hitem & Hloop).
    pose proof (format_item_grows acc (name0, v0) self) as Hg.
    rewrite Hitem in Hg. simpl in Hg.
    apply format_item_ok in Hitem
      as (base & pad & dec & rendered & pad' & Eb & Ep & Ed & Hr & -> & ->).
    assert (base ∈ ["d"; "f"]) as Hb.
    { destruct Hv as (_ & _ & _ & _ & _ & Hall). by eapply Hall. }
    rewrite render_field_natural in Hr by done.
    destruct (natural base dec v0) as [s0|] eqn:En; simplify_eq/=.
    apply elem_of_cons in Hin as [[= -> ->] | Hin].
    + exists base, pad, dec, s0. repeat split; try done.
      * pose proof (loop_other kwargs (<[name0 := lpad (pad `max` String.length s0) s0]> acc)
                      (set_pad_lengths name0 (pad `max` String.length s0) self)
                      name0 Hout) as Ho.
        rewrite Hloop in Ho. simpl in Ho. by rewrite Ho, lookup_insert_eq.
      * rewrite (loop_acc_other _ _ _ _ _ _ Hloop Hout). by rewrite lookup_insert_eq.
    + assert (name <> name0) as Hne.
      { intros ->. apply Hout. apply list_elem_of_fmap. by exists (name0, v). }
      destruct (IH _ _ (grows_valid _ _ Hg Hv) Hnd Hloop name v Hin)
        as (base' & pad' & dec' & s & Eb' & Ep' & Ed' & En' & Hp' & Hc').
      simpl in Ep'. rewrite lookup_insert_ne in Ep' by done.
      by exists base', pad', dec', s.
Qed.

(** ** [format] after a successful loop *)

Lemma literal_loop_intro composed l lits acc self :
  Forall2 (fun name lit => literal_of self composed name = Ok lit) l lits ->
  exists literals,
    for_each (literal_item composed) l acc self = (Ok literals, self).
Proof.
  intros H. revert acc. induction H as [|name lit l lits Hlit _ IH]; intros acc.
  - by eexists.
  - cbn [for_each]. unfold bind. rewrite literal_item_eq, Hlit. simpl. apply IH.
Qed.

Lemma parts_loop_intro (literals : gmap string string) l lits acc self :
  Forall2 (fun name lit => literals !! name = Some lit) l lits ->
  for_each (fun parts name =>
              literal ← lift (item literals name); ret (parts ++ [literal]))
    l acc self = (Ok (acc ++ lits), self).
Proof.
  intros H. revert acc. induction H as [|name lit l lits Hlit _ IH]; intros acc.
  - simpl. unfold ret. by rewrite app_nil_r.
  - cbn [for_each]. unfold_method. rewrite Hlit.
    specialize (IH (acc ++ [lit])). unfold_method. rewrite IH.
    by rewrite <- app_assoc.
Qed.

(** A [format] call returns when its loop succeeds and every registered
    name has a literal text. *)
Lemma format_intro kwargs self composed self' lits :
  render_values kwargs self = (Ok composed, self') ->
  Forall2 (fun name lit => literal_of self' composed name = Ok lit)
    (names self') lits ->
  format kwargs self = (Ok (join (sep self') lits), self').
Proof.
  intros Hloop Hlits.
  assert (existsb (fun name => bool_decide (name ∉ dom composed)) (names self')
          = false) as Hex.
  { apply not_true_is_false. intros (name & Hin & Hout)%existsb_missing.
    apply Hout. clear Hout.
    induction Hlits as [|name' lit l lits Hlit _ IH]; [by apply elem_of_nil in Hin |].
    apply elem_of_cons in Hin as [-> | Hin]; [| by apply IH].
    unfold literal_of, item in Hlit. unfold mbind, result_bind, rbind in Hlit.
    destruct (messages self' !! name'); [| done].
    destruct (composed !! name') eqn:E; [| done]. by apply elem_of_dom. }
  destruct (literal_loop_intro composed _ _ ∅ self' Hlits) as [literals Hl].
  pose proof (literal_loop _ _ _ _ _ _ Hl) as [Hin _].
  assert (Forall2 (fun name lit => literals !! name = Some lit) (names self') lits)
    as Hparts.
  { clear -Hin Hlits.
    induction Hlits as [|name lit l lits Hlit _ IH]; constructor.
    - destruct (Hin name) as (lit' & Hof & Hlit'); [by left |]. congruence.
    - apply IH. intros name' H'. apply Hin. by right. }
  unfold format. unfold mbind, method_bind, bind at 1. rewrite Hloop.
  unfold bind at 1, attr at 1. unfold bind at 1. unfold bind at 1.
  rewrite Hex. unfold ret at 1. unfold bind at 1. rewrite Hl.
  unfold bind at 1.
  pose proof (parts_loop_intro literals _ _ [] self' Hparts) as Hp.
  unfold mbind, method_bind, bind in Hp. unfold bind. by rewrite Hp.
Qed.

(** ** A stored message applied to a rendered value *)

Lemma format_field_text f e :
  format_field f (VStr e) = rmap (fun _ => e) (format_field f (VStr "")).
Proof.
  destruct f as [|c spec]; simpl; [done |].
  case_decide; [| done]. destruct spec as [|c' spec']; [done |].
  unfold format_value. destruct (parse_spec _) as [fs|x]; [| done]. simpl.
  unfold format_spec_value. by repeat case_bool_decide.
Qed.

Lemma same_shape_rmap c e e' r r' :
  same_shape e e' r r' -> same_shape e e' (rmap (String c) r) (rmap (String c) r').
Proof.
  destruct r as [o|x], r' as [o'|x']; simpl; try done.
  intros [-> | H]; [by left | right; lia].
Qed.


Lemma format_go_shape n t field e e' :
  String.length t <= n ->
  same_shape e e' (format_go t field [VStr e]) (format_go t field [VStr e']).
Proof.
  revert t field. induction n as [|n IH]; intros t field Hn.
  - destruct t as [|c t]; [| simpl in Hn; lia].
    destruct field; cbn; [done | by left].
  - destruct field as [f|], t as [|c t].
    + cbn. done.
    + cbn [format_go].
      destruct (decide (c = "}"%char)) as [Hc|Hc].
      * rewrite (format_field_text f e), (format_field_text f e').
        destruct (format_field f (VStr "")) as [?|x]; cbn; [| done].
        destruct (format_go t None []) as [post|y]; cbn; [| done].
        right. rewrite !length_append. lia.
      * destruct (decide (c = "{"%char)); [done |]. apply IH. cbn in *; lia.
    + cbn. by left.
    + cbn [format_go].
      destruct (decide (c = "{"%char)) as [Hc|Hc].
      * destruct t as [|c' t]; [done |].
        destruct (decide (c' = "{"%char)).
        -- apply same_shape_rmap, IH. cbn in *; lia.
        -- apply IH. cbn in *; lia.
      * destruct (decide (c = "}"%char)).
        -- destruct t as [|c' t]; [done |].
           destruct (decide (c' = "}"%char)); [| done].
           apply same_shape_rmap, IH. cbn in *; lia.
        -- apply same_shape_rmap, IH. cbn in *; lia.
Qed.

Lemma str_format_shape message e e' :
  same_shape e e' (str_format message [VStr e]) (str_format message [VStr e']).
Proof. by apply (format_go_shape (String.length message)). Qed.

(** A message that [str.format] applies to the empty text applies to
    every text. *)
Lemma formattable_text message e :
  formattable message = true -> exists o, str_format message [VStr e] = Ok o.
Proof.
  unfold formattable. pose proof (str_format_shape message "" e) as H.
  destruct (str_format message [VStr ""]); [| done].
  destruct (str_format message [VStr e]); [eauto | done].
Qed.

(** ** The length of a line *)

Lemma join_length sep_ parts :
  String.length (join sep_ parts) =
  sum_list (String.length <$> parts) + (length parts - 1) * String.length sep_.
Proof.
  induction parts as [|p [|p' parts] IH]; [done | cbn; lia |].
  change (join sep_ (p :: p' :: parts))
    with (p +:+ sep_ +:+ join sep_ (p' :: parts)).
  rewrite !length_append, IH. cbn [fmap list_fmap sum_list length].
  rewrite !Nat.sub_succ, !Nat.sub_0_r. cbn [Nat.mul]. unfold id. lia.
Qed.

Lemma join_length_le sep_ parts parts' :
  Forall2 (fun p p' => String.length p <= String.length p') parts parts' ->
  String.length (join sep_ parts) <= String.length (join sep_ parts').
Proof.
  intros H. rewrite !join_length, (Forall2_length _ _ _ H).
  apply Nat.add_le_mono_r.
  induction H; [done |]. rewrite !fmap_cons. cbn [sum_list_with].
  change (id (String.length x)) with (String.length x).
  change (id (String.length y)) with (String.length y). lia.
Qed.

Lemma join_length_eq sep_ parts parts' :
  Forall2 (fun p p' => String.length p = String.length p') parts parts' ->
  String.length (join sep_ parts) = String.length (join sep_ parts').
Proof.
  intros H. rewrite !join_length, (Forall2_length _ _ _ H).
  f_equal.
  induction H; [done |]. rewrite !fmap_cons. cbn [sum_list_with].
  change (id (String.length x)) with (String.length x).
  change (id (String.length y)) with (String.length y). lia.
Qed.

(** The literal texts of two calls, name by name. *)
Lemma literals_compare (R : nat -> nat -> Prop) self self' composed composed' l
    lits lits' :
  messages self' = messages self ->
  (forall name e e', name ∈ l -> composed !! name = Some e ->
     composed' !! name = Some e' ->
     forall o o', same_shape e e' (Ok o) (Ok o') ->
                  R (String.length o) (String.length o')) ->
  Forall2 (fun name lit => literal_of self composed name = Ok lit) l lits ->
  Forall2 (fun name lit => literal_of self' composed' name = Ok lit) l lits' ->
  Forall2 (fun p p' => R (String.length p) (String.length p')) lits lits'.
Proof.
  intros Hm HR H. revert lits'.
  induction H as [|name lit l lits Hlit _ IH]; intros lits' H'.
  - apply Forall2_nil_inv_l in H' as ->. constructor.
  - apply Forall2_cons_inv_l in H' as (lit' & lits'' & Hlit' & H' & ->).
    constructor.
    + unfold literal_of, item in Hlit, Hlit'.
      unfold mbind, result_bind, rbind in Hlit, Hlit'. rewrite Hm in Hlit'.
      destruct (messages self !! name) as [message|]; [| done].
      destruct (composed !! name) as [e|] eqn:E; [| done].
      destruct (composed' !! name) as [e'|] eqn:E'; [| done].
      pose proof (str_format_shape message e e') as Hs.
      rewrite Hlit, Hlit' in Hs.
      apply (HR name e e'); [by left | done | done | done].
    + apply IH; [| done]. intros name' e e' Hin. apply HR. by right.
Qed.

(** ** The values a field takes *)

Lemma float_of_int_error n e : float_of_int n = Err e -> e = IntTooLarge.
Proof.
  assert (forall s p, float_of_pos s p = Err e -> e = IntTooLarge) as Hpos.
  { intros s p. unfold float_of_pos. destruct (_ <=? _)%N; [done |].
    destruct (round_half_even _ _); [congruence |].
    destruct (_ <=? _)%N; congruence. }
  destruct n; simpl; [done | apply Hpos | apply Hpos].
Qed.

(** The natural rendering of a value exists exactly for the values that
    the field takes; the other values raise the error of [str.format] for
    the type of the field, or the error of the conversion to [float]. *)
Lemma natural_cases base dec v :
  base ∈ ["d"; "f"] -> (is_Some dec -> base = "f") ->
  if accepts base v then exists s, natural base dec v = Ok s
  else
    natural base dec v = Err IntTooLarge /\ base = "f" /\ (exists n, v = VInt n) \/
    natural base dec v = Err (UnknownFormatCode "d") /\ base = "d" \/
    natural base dec v = Err (UnknownFormatCode "f") /\ base = "f".
Proof.
  intros Hb Hdec. rewrite natural_eq.
  assert (exists c, base = String c "" /\ (c = "d"%char \/ c = "f"%char))
    as (c & -> & Hc).
  { set_unfold in Hb. destruct Hb as [-> | [-> | []]]; eauto. }
  rewrite str_format_composed by done.
  unfold accepts, format_spec_value. cbn [type_code precision].
  destruct Hc as [-> | ->].
  - assert (dec = None) as ->.
    { destruct dec; [| done]. by specialize (Hdec (mk_is_Some _ _ eq_refl)). }
    destruct v as [s|n|x]; repeat (case_bool_decide; try done; cbn [orb andb]);
      eauto 6.
  - destruct v as [s|n|x]; repeat (case_bool_decide; try done; cbn [orb andb]);
      eauto 6.
    destruct (float_of_int n) as [x|e] eqn:E; cbn; [eauto |].
    apply float_of_int_error in E as ->. left. eauto.
Qed.

Lemma accepts_natural base dec v :
  base ∈ ["d"; "f"] -> (is_Some dec -> base = "f") -> accepts base v = true ->
  exists s, natural base dec v = Ok s.
Proof.
  intros Hb Hdec Ha. pose proof (natural_cases base dec v Hb Hdec) as H.
  by rewrite Ha in H.
Qed.

Lemma valid_precise_lookup self name :
  valid self -> precise self -> name ∈ names self ->
  exists message base pad dec,
    messages self !! name = Some message /\ bases self !! name = Some base /\
    pad_lengths self !! name = Some pad /\ decimals self !! name = Some dec /\
    base ∈ ["d"; "f"] /\ (is_Some dec -> base = "f").
Proof.
  intros Hv Hp Hin.
  destruct (valid_lookup _ _ Hv Hin) as (m & b & p & d & Hm & Hb & Hpad & Hd & Hbase).
  exists m, b, p, d. repeat split; try done.
  intros Hsome. specialize (Hp name d Hd Hsome). congruence.
Qed.

Lemma well_typed_renderable self kv :
  valid self -> precise self -> well_typed self kv = true -> renderable self kv = true.
Proof.
  intros Hv Hp. unfold well_typed, renderable.
  destruct (bases self !! kv.1) as [base|] eqn:Eb; [| done]. intros Ha.
  assert (kv.1 ∈ names self) as Hin by (by apply valid_registered).
  destruct (valid_precise_lookup _ _ Hv Hp Hin)
    as (m & b & p & d & _ & Hb & _ & Hd & Hbase & Hdec).
  simplify_eq. rewrite Hd.
  by destruct (accepts_natural _ _ _ Hbase Hdec Ha) as [s ->].
Qed.

(** ** Calls that return *)

Lemma Forall2_intro {A B} (f : A -> result B) l :
  (forall x, x ∈ l -> exists y, f x = Ok y) ->
  exists ys, Forall2 (fun x y => f x = Ok y) l ys.
Proof.
  induction l as [|x l IH]; intros H.
  - exists []. constructor.
  - destruct (H x) as [y Hy]; [by left |].
    destruct IH as [ys Hys]; [intros x' Hx'; apply H; by right |].
    exists (y :: ys). by constructor.
Qed.

(** A call that supplies every registered name, each with a value that
    its field takes, returns, on an object whose stored messages
    [str.format] accepts. *)
Lemma format_returns kwargs self :
  valid self -> precise self ->
  map_Forall (fun _ message => formattable message = true) (messages self) ->
  (list_to_set (names self) : gset string) ⊆ list_to_set kwargs.*1 ->
  Forall (fun kv => well_typed self kv = true) kwargs ->
  exists out self', format kwargs self = (Ok out, self').
Proof.
  intros Hv Hp Hm Hall Ht.
  assert (Forall (fun kv => renderable self kv = true) kwargs) as Hr.
  { eapply Forall_impl; [exact Ht |]. intros kv. by apply well_typed_renderable. }
  destruct (loop_ok kwargs ∅ self Hv Hr) as (composed & self' & Hloop).
  change (render_values kwargs self = (Ok composed, self')) in Hloop.
  pose proof (render_values_grows kwargs self) as Hg.
  rewrite Hloop in Hg. simpl in Hg.
  pose proof (grows_valid _ _ Hg Hv) as Hv'.
  destruct Hg as (_ & Hn & Hmsg & _).
  pose proof (loop_dom _ _ _ _ _ Hloop) as Hdom.
  rewrite dom_empty_L, (left_id_L ∅ (∪)) in Hdom.
  destruct (Forall2_intro (literal_of self' composed) (names self')) as [lits Hlits].
  { intros name Hin.
    destruct (valid_lookup _ _ Hv' Hin) as (message & _ & _ & _ & Em & _).
    assert (name ∈ dom composed) as [e He]%elem_of_dom.
    { rewrite Hdom. apply Hall. apply elem_of_list_to_set. by rewrite <- Hn. }
    unfold literal_of, item. rewrite Em, He. simpl.
    apply formattable_text. rewrite Hmsg in Em. by eapply Hm. }
  eexists _, _. by eapply format_intro.
Qed.

(** ** Calls on an object whose widths are large enough *)

Lemma loop_fits kwargs acc self :
  valid self -> Forall (fun kv => fits self kv = true) kwargs ->
  exists composed, for_each format_item kwargs acc self = (Ok composed, self).
Proof.
  intros Hv. revert acc. induction kwargs as [|[name v] kwargs IH]; intros acc Hf.
  - by eexists.
  - apply Forall_cons in Hf as [Hf Hfs]. unfold fits in Hf. simpl in Hf.
    destruct (bases self !! name) as [base|] eqn:Eb; [| done].
    destruct (pad_lengths self !! name) as [pad|] eqn:Ep; [| done].
    destruct (decimals self !! name) as [dec|] eqn:Ed; [| done].
    destruct (natural base dec v) as [s|] eqn:En; [| done].
    apply Nat.leb_le in Hf.
    assert (base ∈ ["d"; "f"]) as Hb.
    { destruct Hv as (_ & _ & _ & _ & _ & Hall). by eapply Hall. }
    cbn [for_each]. unfold bind.
    rewrite (format_item_valid _ _ _ _ _ _ _ Eb Hb Ep Ed), En.
    replace (pad `max` String.length s) with pad by lia.
    rewrite (set_pad_lengths_id _ _ _ Ep). by apply IH.
Qed.

(** ** The errors of [format] *)



(** ** The constructor and its loop *)

Lemma validate_message_true m b : validate_message m = Ok b -> b = true.
Proof.
  destruct m as [s|n|x]; [| done | done]. rewrite validate_message_eq.
  destruct (findall_pattern s) as [|pattern [|? ?]]; [done | | done].
  destruct (decompose_pattern pattern) as [[[base pad] dec]|]; [| done].
  repeat case_bool_decide; congruence.
Qed.

(** [add_message] returns or raises as [validate_message] does. *)
Lemma add_message_result name m self :
  (add_message name m self).1 = rmap (fun _ => ()) (validate_message m).
Proof.
  destruct (validate_message m) as [b|e] eqn:Hm.
  - destruct (validate_message_ok _ _ Hm)
      as (s & pattern & base & pad & dec & -> & Hf & Hd & _).
    by rewrite (add_message_ok _ _ _ _ _ _ _ _ Hm Hf Hd).
  - by rewrite (add_message_err _ _ _ _ Hm).
Qed.

Lemma add_messages_cons name m kwargs self :
  add_messages ((name, m) :: kwargs) self =
  match add_message name m self with
  | (Ok _, self') => add_messages kwargs self'
  | (Err e, self') => (Err e, self')
  end.
Proof.
  unfold add_messages. cbn [for_each fst snd]. unfold bind.
  by destruct (add_message name m self) as [[[]|e] self'].
Qed.

Lemma add_messages_returns kwargs self :
  Forall (fun kv => validate_message kv.2 = Ok true) kwargs ->
  exists self', add_messages kwargs self = (Ok (), self').
Proof.
  revert self. induction kwargs as [|[name m] kwargs IH]; intros self Hall.
  - by eexists.
  - apply Forall_cons in Hall as [Hm Hall]. simpl in Hm.
    rewrite add_messages_cons.
    pose proof (add_message_result name m self) as Hr. rewrite Hm in Hr.
    destruct (add_message name m self) as [[[]|e] self1]; [| done]. apply IH, Hall.
Qed.

Lemma add_messages_raises good name m rest self e :
  Forall (fun kv => validate_message kv.2 = Ok true) good ->
  validate_message m = Err e ->
  (add_messages (good ++ (name, m) :: rest) self).1 = Err e.
Proof.
  revert self. induction good as [|[name0 m0] good IH]; intros self Hall Hm.
  - simpl. rewrite add_messages_cons.
    by rewrite (add_message_err _ _ _ _ Hm).
  - apply Forall_cons in Hall as [Hm0 Hall]. simpl in Hm0.
    change (((name0, m0) :: good) ++ (name, m) :: rest)
      with ((name0, m0) :: (good ++ (name, m) :: rest)).
    rewrite add_messages_cons.
    pose proof (add_message_result name0 m0 self) as Hr. rewrite Hm0 in Hr.
    destruct (add_message name0 m0 self) as [[[]|e0] self1]; [| done]. by apply IH.
Qed.

Lemma add_messages_validated kwargs self u self' :
  add_messages kwargs self = (Ok u, self') ->
  Forall (fun kv => validate_message kv.2 = Ok true) kwargs.
Proof.
  revert self. induction kwargs as [|[name m] kwargs IH]; intros self Hloop.
  - constructor.
  - rewrite add_messages_cons in Hloop.
    pose proof (add_message_result name m self) as Hr.
    destruct (add_message name m self) as [[[]|e] self1]; [| done].
    constructor; [| by eapply IH]. simpl in *.
    destruct (validate_message m) as [b|] eqn:Hm; [| done].
    by rewrite (validate_message_true _ _ Hm).
Qed.

Lemma init_eq sep_ kwargs :
  init [] sep_ kwargs =
  match add_messages kwargs
          {| sep := sep_; names := kwargs.*1; messages := ∅; bases := ∅;
             pad_lengths := ∅; decimals := ∅ |} with
  | (Ok _, self) => Ok self
  | (Err e, _) => Err e
  end.
Proof. done. Qed.

(** The fields of the object after [add_message] has stored a message. *)
Lemma register_fields name message base pad dec self :
  sep (register name message base pad dec self) = sep self /\
  messages (register name message base pad dec self)
    = <[name := message]> (messages self) /\
  bases (register name message base pad dec self) = <[name := base]> (bases self) /\
  pad_lengths (register name message base pad dec self)
    = <[name := pad]> (pad_lengths self) /\
  decimals (register name message base pad dec self)
    = <[name := dec]> (decimals self).
Proof. unfold register. simpl. by case_bool_decide. Qed.

(** The loop of the constructor on two objects that differ in their lists
    of names only: one lists the names still to come, the other does not. *)
Lemma add_messages_names kwargs s1 s2 :
  sep s1 = sep s2 -> messages s1 = messages s2 -> bases s1 = bases s2 ->
  pad_lengths s1 = pad_lengths s2 -> decimals s1 = decimals s2 ->
  names s1 = names s2 ++ kwargs.*1 -> NoDup (names s1) ->
  match add_messages kwargs s1, add_messages kwargs s2 with
  | (Ok _, s1'), (Ok _, s2') => s1' = s2'
  | (Err e, _), (Err e', _) => e = e'
  | _, _ => False
  end.
Proof.
  revert s1 s2. induction kwargs as [|[name m] kwargs IH];
    intros s1 s2 Hs Hm Hb Hp Hd Hn Hnd.
  - simpl in *. rewrite app_nil_r in Hn.
    destruct s1, s2. simpl in *. by subst.
  - rewrite !add_messages_cons.
    destruct (validate_message m) as [b|e] eqn:Hv.
    2:{ by rewrite !(add_message_err _ _ _ _ Hv). }
    destruct (validate_message_ok _ _ Hv)
      as (s & pattern & base & pad & dec & -> & Hf & Hdec & _).
    rewrite !(add_message_ok _ _ _ _ _ _ _ _ Hv Hf Hdec).
    pose proof (register_fields name (sub_pattern "{}" s) base (default 0 pad) dec s1)
      as (Hs1 & Hm1 & Hb1 & Hp1 & Hd1).
    pose proof (register_fields name (sub_pattern "{}" s) base (default 0 pad) dec s2)
      as (Hs2 & Hm2 & Hb2 & Hp2 & Hd2).
    assert (name ∈ names s1) as Hin1.
    { rewrite Hn. simpl. apply elem_of_app. right. by left. }
    assert (name ∉ names s2) as Hout2.
    { rewrite Hn in Hnd. apply NoDup_app in Hnd as (_ & Hdis & _).
      intros Hin. apply (Hdis _ Hin). simpl. by left. }
    apply IH; try congruence.
    + rewrite !register_names, bool_decide_eq_true_2, bool_decide_eq_false_2
        by done.
      rewrite Hn. simpl. by rewrite <- app_assoc.
    + by rewrite register_names, bool_decide_eq_true_2.
Qed.

(** ** Messages with one pattern between two texts without braces *)

Lemma plain_message_parts pre inner suf :
  pre +:+ String "{" (inner +:+ String "}" "") +:+ suf =
  pre +:+ String "{" (inner +:+ String "}" suf).
Proof.
  f_equal. change (String "{" ?x +:+ suf) with (String "{" (x +:+ suf)).
  by rewrite append_assoc.
Qed.

(** What [add_message] stores for a message whose site holds [inner]. *)
Lemma add_message_site name pre inner suf base pad dec self :
  brace_free pre = true -> brace_free inner = true -> brace_free suf = true ->
  decompose_pattern inner = Ok (base, pad, dec) ->
  base ∈ ["d"; "f"] -> (is_Some dec -> base = "f") ->
  add_message name (VStr (pre +:+ String "{" (inner +:+ String "}" suf))) self =
  (Ok (), register name (pre +:+ "{}" +:+ suf) base (default 0 pad) dec self).
Proof.
  intros Hpre Hinner Hsuf Hd Hb Hdec.
  pose proof (findall_pattern_one pre inner suf Hpre Hinner Hsuf) as Hf.
  rewrite <- (sub_pattern_one "{}" pre inner suf) by done.
  apply (add_message_ok _ _ _ true inner); [| done | done].
  rewrite validate_message_eq, Hf, Hd.
  rewrite bool_decide_eq_true_2 by done.
  rewrite bool_decide_eq_false_2; [done |].
  intros [Hsome Hnf]. by apply Hnf, Hdec.
Qed.

Lemma valid_triple_spec t w p :
  valid_triple t w p = true <-> t ∈ ["d"; "f"] /\ (is_Some p -> t = "f").
Proof.
  unfold valid_triple. rewrite andb_true_iff, bool_decide_eq_true.
  split; intros [Ht Hp]; (split; [done |]).
  - intros [d ->]. by apply bool_decide_eq_true in Hp.
  - destruct p; [| done]. apply bool_decide_eq_true. by apply Hp.
Qed.

Lemma add_message_plain name pre t w p suf self :
  brace_free pre = true -> brace_free suf = true ->
  valid_triple t w p = true ->
  add_message name (VStr (pre +:+ canonical_pattern (Some t) w p +:+ suf)) self =
  (Ok (), register name (pre +:+ "{}" +:+ suf) t (default 0 w) p self).
Proof.
  intros Hpre Hsuf [Ht Hp]%valid_triple_spec.
  rewrite canonical_pattern_inner, plain_message_parts.
  apply add_message_site; try done.
  - by apply canonical_inner_brace_free.
  - by apply decompose_canonical_inner.
Qed.

(** ** Patterns that [decompose_pattern] reads loosely *)

Lemma canonical_inner_spec_text t w p :
  canonical_inner t w p = String ":" (spec_text t w p).
Proof. done. Qed.

Lemma type_char t :
  t ∈ ["d"; "f"] ->
  exists c, t = String c "" /\ is_digit c = false /\
            c <> ":"%char /\ c <> "."%char /\ is_brace c = false.
Proof. intros Ht. set_unfold in Ht. destruct Ht as [-> | [-> | []]]; by eexists. Qed.

Lemma spec_text_brace_free t w p :
  t ∈ ["d"; "f"] -> brace_free (spec_text t w p) = true.
Proof.
  intros Ht. pose proof (canonical_inner_brace_free t w p Ht) as H.
  by rewrite canonical_inner_spec_text in H.
Qed.

Lemma last_char_spec_text t w p s :
  t ∈ ["d"; "f"] -> last_char (s +:+ spec_text t w p) = Ok t.
Proof.
  intros (c & -> & _)%type_char. unfold spec_text.
  rewrite <- !append_assoc. apply last_char_snoc.
Qed.

Lemma spec_text_head t p :
  t ∈ ["d"; "f"] ->
  exists c s, from_option (fun d => "." +:+ str_nat d) "" p +:+ t = String c s /\
              is_digit c = false /\ c <> ":"%char.
Proof.
  intros (c & -> & Hc & Hc1 & _)%type_char. destruct p; simpl; eauto.
Qed.

(** The first run of digits after a colon: the digits already read and
    the width. *)
Lemma width_of_spec t w p acc :
  t ∈ ["d"; "f"] ->
  exists tail,
    findall_digits ":" (spec_text t (Some w) p) (Some acc)
    = (acc +:+ str_nat w) :: tail.
Proof.
  intros Ht. unfold spec_text. cbn [from_option].
  destruct (spec_text_head t p Ht) as (c & s & E & Hc & _).
  rewrite E, findall_digits_run by apply str_nat_digits.
  cbn [findall_digits]. rewrite Hc.
  pose proof (str_nat_head w) as Hh.
  destruct (str_nat w) as [|c0 s0]; [done |].
  destruct acc; cbn; eauto.
Qed.

(** The first run of digits after a dot is the precision. *)
Lemma decimal_of_spec t w p :
  t ∈ ["d"; "f"] ->
  match findall_digits "." (spec_text t w p) None with
  | x :: _ => Some (int_of_digits x)
  | [] => None
  end = p.
Proof.
  intros (c & -> & Hc & Hc1 & Hc2 & _)%type_char. unfold spec_text.
  assert (match findall_digits "." (from_option (fun d => "." +:+ str_nat d) "" p
                                    +:+ String c "") None with
          | x :: _ => Some (int_of_digits x)
          | [] => None
          end = p) as H.
  { destruct p as [d|]; cbn [from_option].
    - cbn [String.append findall_digits]. rewrite decide_True by done.
      rewrite findall_digits_here by (done || apply str_nat_digits).
      rewrite flush_str_nat. cbn. by rewrite int_of_digits_str_nat.
    - cbn. by rewrite decide_False. }
  destruct w as [w|]; cbn [from_option]; [| done].
  by rewrite findall_digits_skip by (done || apply str_nat_digits).
Qed.

(** Without a colon no width is found. *)
Lemma no_width_of_spec t w p :
  t ∈ ["d"; "f"] -> findall_digits ":" (spec_text t w p) None = [].
Proof.
  intros (c & -> & Hc & Hc1 & Hc2 & _)%type_char. unfold spec_text.
  assert (findall_digits ":" (from_option (fun d => "." +:+ str_nat d) "" p
                              +:+ String c "") None = []) as H.
  { destruct p as [d|]; cbn [from_option].
    - cbn [String.append findall_digits]. rewrite decide_False by done.
      rewrite findall_digits_skip by (done || apply str_nat_digits).
      cbn. by rewrite decide_False.
    - cbn. by rewrite decide_False. }
  destruct w as [w|]; cbn [from_option]; [| done].
  by rewrite findall_digits_skip by (done || apply str_nat_digits).
Qed.

(** A zero written before the width: the triple is that of the pattern
    without it. *)
Lemma decompose_zero_flag t w p :
  t ∈ ["d"; "f"] ->
  decompose_pattern (String ":" (String "0" (spec_text t (Some w) p)))
  = Ok (t, Some w, p).
Proof.
  intros Ht. unfold decompose_pattern.
  pose proof (last_char_spec_text t (Some w) p ":0" Ht) as Hl.
  cbn [String.append] in Hl. rewrite Hl. cbn [mbind result_bind rbind].
  unfold findall_number. cbn [findall_digits].
  rewrite decide_True, !decide_False by done.
  change (is_digit "0") with true. cbn [snoc String.append].
  destruct (width_of_spec t w p "0" Ht) as [tail ->].
  pose proof (decimal_of_spec t (Some w) p Ht) as ->.
  cbn [String.append]. change (int_of_digits (String "0" ?s)) with (int_of_digits s).
  by rewrite int_of_digits_str_nat.
Qed.

(** A pattern without the colon: its width is not read. *)
Lemma decompose_no_colon t w p :
  t ∈ ["d"; "f"] -> decompose_pattern (spec_text t w p) = Ok (t, None, p).
Proof.
  intros Ht. unfold decompose_pattern.
  pose proof (last_char_spec_text t w p "" Ht) as Hl.
  cbn [String.append] in Hl. rewrite Hl. cbn [mbind result_bind rbind].
  unfold findall_number. rewrite no_width_of_spec by done.
  by pose proof (decimal_of_spec t w p Ht) as ->.
Qed.

(** ** The first call on a new object *)

Lemma lpad_max w s : lpad (w `max` String.length s) s = lpad w s.
Proof. unfold lpad. do 2 f_equal. lia. Qed.

(** A pattern without a width renders as the pattern of width 0. *)
Lemma parse_spec_no_width dec c :
  is_digit c = false -> c <> "."%char ->
  parse_spec (from_option (fun d => "." +:+ str_nat d) "" dec +:+ String c "") =
  Ok {| zero_fill := false; width := None; precision := dec; type_code := Some c |}.
Proof.
  intros Hc Hdot. unfold parse_spec.
  pose proof (parse_precision_composed dec c Hc Hdot) as Hp.
  set (spec := from_option (fun d => "." +:+ str_nat d) "" dec +:+ String c "") in *.
  assert (parse_zero spec = (false, spec)) as ->.
  { unfold spec, parse_zero. destruct dec; cbn [from_option String.append].
    - by rewrite decide_False.
    - rewrite decide_False; [done |]. by intros ->. }
  assert (span_digits spec = ("", spec)) as ->.
  { unfold spec. destruct dec; cbn [from_option String.append span_digits].
    - done.
    - by rewrite Hc. }
  rewrite Hp. by destruct dec.
Qed.

Lemma str_format_no_width t dec v :
  t ∈ ["d"; "f"] ->
  str_format (canonical_pattern (Some t) None dec) [v] = natural t dec v.
Proof.
  intros Ht. rewrite natural_eq.
  destruct (type_char t Ht) as (c & -> & Hc & _ & Hdot & _).
  rewrite str_format_composed by done.
  rewrite canonical_pattern_inner.
  rewrite (str_format_one "" (canonical_inner (String c "") None dec) "")
    by (done || by apply canonical_inner_brace_free).
  unfold canonical_inner. cbn [from_option String.append format_field].
  rewrite decide_True by done.
  pose proof (parse_spec_no_width dec c Hc Hdot) as Hp.
  unfold format_value.
  destruct (from_option _ _ dec +:+ _) as [|c0 s0] eqn:E.
  { by destruct dec. }
  rewrite Hp. cbn [mbind result_bind rbind].
  rewrite (format_spec_value_lpad _
             {| zero_fill := bool_decide (0 = 0);
                width := if decide (0 = 0) then None else Some 0;
                precision := dec; type_code := Some c |} 0 v); [| done | done |].
  - destruct (format_spec_value _ v); simpl; [| done]. by rewrite append_nil_r.
  - intros sign body. by rewrite (pad_number_composed 0).
Qed.

(** A canonical pattern applied to a value: the natural rendering,
    right-aligned in the declared width. *)
Lemma str_format_declared t w dec v :
  t ∈ ["d"; "f"] ->
  str_format (canonical_pattern (Some t) w dec) [v] =
  rmap (lpad (default 0 w)) (natural t dec v).
Proof.
  intros Ht. destruct w as [w|]; simpl.
  - by rewrite str_format_width, natural_eq.
  - rewrite str_format_no_width by done. by destruct (natural t dec v).
Qed.

Lemma format_field_declared t w dec v :
  t ∈ ["d"; "f"] ->
  format_field (canonical_inner t w dec) v =
  rmap (lpad (default 0 w)) (natural t dec v).
Proof.
  intros Ht. rewrite <- str_format_declared by done.
  rewrite canonical_pattern_inner.
  rewrite (str_format_one "" (canonical_inner t w dec) "")
    by (done || by apply canonical_inner_brace_free).
  destruct (format_field _ v); simpl; [| done]. by rewrite append_nil_r.
Qed.

Lemma plain_ok_spec m :
  plain_ok m = true <->
  brace_free (plain_pre m) = true /\ brace_free (plain_suf m) = true /\
  plain_type m ∈ ["d"; "f"] /\ (is_Some (plain_precision m) -> plain_type m = "f").
Proof.
  unfold plain_ok. rewrite !andb_true_iff, valid_triple_spec. naive_solver.
Qed.

(** A plain message applied to a value by [str.format]. *)
Lemma str_format_plain m v :
  plain_ok m = true ->
  str_format (plain_text m) [v] =
  rmap (fun s => plain_pre m +:+ lpad (default 0 (plain_width m)) s +:+ plain_suf m)
       (natural (plain_type m) (plain_precision m) v).
Proof.
  intros (Hpre & Hsuf & Ht & _)%plain_ok_spec. unfold plain_text.
  rewrite canonical_pattern_inner, plain_message_parts.
  rewrite str_format_one by (done || by apply canonical_inner_brace_free).
  rewrite format_field_declared by done.
  by destruct (natural _ _ v).
Qed.

(** The stored message of a plain message, applied to a rendered value. *)
Lemma str_format_stored pre suf e :
  brace_free pre = true -> brace_free suf = true ->
  str_format (pre +:+ "{}" +:+ suf) [VStr e] = Ok (pre +:+ e +:+ suf).
Proof.
  intros Hpre Hsuf.
  change (pre +:+ "{}" +:+ suf) with (pre +:+ String "{" ("" +:+ String "}" suf)).
  by rewrite str_format_one.
Qed.

(** ** Objects declared with plain messages *)

Lemma add_messages_plain fields self :
  Forall (fun field => plain_ok field.2 = true) fields ->
  add_messages (declare fields) self = (Ok (), foldl register_plain self fields).
Proof.
  revert self. induction fields as [|[name m] fields IH]; intros self Hok.
  - done.
  - apply Forall_cons in Hok as [Hm Hok]. simpl in Hm.
    apply plain_ok_spec in Hm as (Hpre & Hsuf & Ht & Hp).
    change (declare ((name, m) :: fields))
      with ((name, VStr (plain_text m)) :: declare fields).
    rewrite add_messages_cons. unfold plain_text.
    rewrite add_message_plain by (done || by apply valid_triple_spec).
    by rewrite IH.
Qed.

Lemma register_plain_other self field name :
  name <> field.1 ->
  messages (register_plain self field) !! name = messages self !! name /\
  bases (register_plain self field) !! name = bases self !! name /\
  pad_lengths (register_plain self field) !! name = pad_lengths self !! name /\
  decimals (register_plain self field) !! name = decimals self !! name.
Proof.
  intros Hne. unfold register_plain.
  destruct (register_fields field.1 (plain_pre field.2 +:+ "{}" +:+ plain_suf field.2)
              (plain_type field.2) (default 0 (plain_width field.2))
              (plain_precision field.2) self) as (_ & -> & -> & -> & ->).
  by rewrite !lookup_insert_ne.
Qed.

Lemma foldl_register_other fields self name :
  name ∉ fields.*1 ->
  messages (foldl register_plain self fields) !! name = messages self !! name /\
  bases (foldl register_plain self fields) !! name = bases self !! name /\
  pad_lengths (foldl register_plain self fields) !! name
    = pad_lengths self !! name /\
  decimals (foldl register_plain self fields) !! name = decimals self !! name.
Proof.
  revert self. induction fields as [|field fields IH]; intros self Hout; [done |].
  simpl in Hout. apply not_elem_of_cons in Hout as [Hne Hout]. cbn [foldl].
  destruct (IH (register_plain self field) Hout) as (-> & -> & -> & ->).
  by apply register_plain_other.
Qed.

(** What the object holds for a declared field. *)
Lemma foldl_register_lookup fields self name m :
  NoDup fields.*1 -> (name, m) ∈ fields ->
  messages (foldl register_plain self fields) !! name
    = Some (plain_pre m +:+ "{}" +:+ plain_suf m) /\
  bases (foldl register_plain self fields) !! name = Some (plain_type m) /\
  pad_lengths (foldl register_plain self fields) !! name
    = Some (default 0 (plain_width m)) /\
  decimals (foldl register_plain self fields) !! name = Some (plain_precision m).
Proof.
  revert self. induction fields as [|field fields IH]; intros self Hnd Hin.
  - by apply elem_of_nil in Hin.
  - simpl in Hnd. apply NoDup_cons in Hnd as [Hout Hnd].
    cbn [foldl]. apply elem_of_cons in Hin as [<- | Hin]; [| by apply IH].
    destruct (foldl_register_other fields (register_plain self (name, m)) name Hout)
      as (-> & -> & -> & ->).
    unfold register_plain. cbn [fst snd].
    destruct (register_fields name (plain_pre m +:+ "{}" +:+ plain_suf m)
                (plain_type m) (default 0 (plain_width m))
                (plain_precision m) self) as (_ & -> & -> & -> & ->).
    by rewrite !lookup_insert_eq.
Qed.

Lemma foldl_register_names fields self :
  (forall name, name ∈ fields.*1 -> name ∈ names self) ->
  names (foldl register_plain self fields) = names self /\
  sep (foldl register_plain self fields) = sep self.
Proof.
  revert self. induction fields as [|field fields IH]; intros self Hin; [done |].
  assert (names (register_plain self field) = names self) as Hn.
  { unfold register_plain. rewrite register_names, bool_decide_eq_true_2; [done |].
    apply Hin. by left. }
  cbn [foldl]. destruct (IH (register_plain self field)) as [-> ->].
  { intros name H. rewrite Hn. apply Hin. by right. }
  split; [done |]. unfold register_plain.
  by destruct (register_fields field.1 (plain_pre field.2 +:+ "{}" +:+ plain_suf field.2)
                 (plain_type field.2) (default 0 (plain_width field.2))
                 (plain_precision field.2) self) as (-> & _).
Qed.

Lemma declare_names fields : (declare fields).*1 = fields.*1.
Proof. unfold declare. rewrite <- list_fmap_compose. done. Qed.

(** The object that the constructor builds from plain messages. *)
Lemma init_plain sep_ fields :
  NoDup fields.*1 -> Forall (fun field => plain_ok field.2 = true) fields ->
  exists writer,
    init [] sep_ (declare fields) = Ok writer /\
    valid writer /\ names writer = fields.*1 /\ sep writer = sep_ /\
    forall name m, (name, m) ∈ fields ->
      messages writer !! name = Some (plain_pre m +:+ "{}" +:+ plain_suf m) /\
      bases writer !! name = Some (plain_type m) /\
      pad_lengths writer !! name = Some (default 0 (plain_width m)) /\
      decimals writer !! name = Some (plain_precision m).
Proof.
  intros Hnd Hok.
  pose proof (init_eq sep_ (declare fields)) as Hinit.
  rewrite add_messages_plain in Hinit by done.
  eexists. split; [exact Hinit |]. split.
  { eapply init_valid; [| exact Hinit]. by rewrite declare_names. }
  destruct (foldl_register_names fields
              {| sep := sep_; names := (declare fields).*1; messages := ∅;
                 bases := ∅; pad_lengths := ∅; decimals := ∅ |}) as [-> ->].
  { intros name. simpl. by rewrite declare_names. }
  simpl. split; [apply declare_names |]. split; [done |].
  intros name m Hin. by apply foldl_register_lookup.
Qed.

Lemma collect_length {A B} (f : A -> result B) l ys :
  collect f l = Ok ys -> length ys = length l.
Proof.
  revert ys. induction l as [|x l IH]; intros ys; simpl.
  - by intros [= <-].
  - unfold mbind, result_bind, rbind.
    destruct (f x); [| done]. destruct (collect f l); [| done].
    intros [= <-]. simpl. f_equal. by apply IH.
Qed.

(** The loop of [format] on a new object, one value for each declared
    field, in the order of the declarations. *)
Lemma render_plain fields values acc self :
  NoDup fields.*1 -> Forall (fun field => plain_ok field.2 = true) fields ->
  length values = length fields ->
  (forall name m, (name, m) ∈ fields ->
     bases self !! name = Some (plain_type m) /\
     pad_lengths self !! name = Some (default 0 (plain_width m)) /\
     decimals self !! name = Some (plain_precision m)) ->
  (for_each format_item (zip fields.*1 values) acc self).1 =
  rmap (fun rs => foldl (fun acc fr => <[fr.1.1 := aligned fr]> acc) acc
                    (zip fields rs))
       (collect natural_of (zip fields values)).
Proof.
  revert values acc self.
  induction fields as [|[name m] fields IH]; intros values acc self Hnd Hok Hlen Hs.
  - done.
  - destruct values as [|v values]; [done |]. simpl in Hlen.
    simpl in Hnd. apply NoDup_cons in Hnd as [Hout Hnd].
    apply Forall_cons in Hok as [Hm Hok]. simpl in Hm.
    apply plain_ok_spec in Hm as (_ & _ & Ht & _).
    destruct (Hs name m) as (Eb & Ep & Ed); [by left |].
    cbn [fmap list_fmap zip zip_with fst snd for_each collect].
    unfold bind. rewrite (format_item_valid _ _ _ _ _ _ _ Eb Ht Ep Ed).
    change (natural_of (name, m, v))
      with (natural (plain_type m) (plain_precision m) v).
    destruct (natural (plain_type m) (plain_precision m) v) as [r|e]; [| done].
    rewrite lpad_max.
    rewrite (IH values); [| done | done | lia |].
    + unfold mbind, result_bind, rbind.
      by destruct (collect natural_of (zip fields values)).
    + intros name' m' Hin.
      assert (name' <> name) as Hne.
      { intros ->. apply Hout. apply list_elem_of_fmap. by exists (name, m'). }
      destruct (Hs name' m') as (Eb' & Ep' & Ed'); [by right |].
      simpl. by rewrite lookup_insert_ne.
Qed.

(** [str.format] on the plain messages themselves. *)
Lemma collect_plain fields values :
  Forall (fun field => plain_ok field.2 = true) fields ->
  collect (fun fv : string * plain * value => str_format (plain_text fv.1.2) [fv.2])
    (zip fields values) =
  rmap (fun rs => line_of <$> zip fields rs)
       (collect natural_of (zip fields values)).
Proof.
  revert values. induction fields as [|[name m] fields IH]; intros values Hok.
  - done.
  - destruct values as [|v values]; [done |].
    apply Forall_cons in Hok as [Hm Hok]. simpl in Hm.
    cbn [zip zip_with collect fst snd].
    rewrite str_format_plain, IH by done.
    change (natural_of (name, m, v))
      with (natural (plain_type m) (plain_precision m) v).
    unfold mbind, result_bind, rbind, rmap, rbind.
    destruct (natural (plain_type m) (plain_precision m) v) as [r|e]; [| done].
    by destruct (collect natural_of (zip fields values)).
Qed.

Lemma inserts_other (fields : list (string * plain)) (rs : list string)
    (acc : gmap string string) name :
  name ∉ fields.*1 ->
  foldl (fun acc fr => <[fr.1.1 := aligned fr]> acc) acc (zip fields rs) !! name
  = acc !! name.
Proof.
  revert rs acc. induction fields as [|field fields IH]; intros rs acc Hout; [done |].
  destruct rs as [|r rs]; [done |].
  simpl in Hout. apply not_elem_of_cons in Hout as [Hne Hout].
  cbn [zip zip_with foldl fst snd]. rewrite IH by done.
  by rewrite lookup_insert_ne.
Qed.

Lemma inserts_lookup (fields : list (string * plain)) (rs : list string)
    (acc : gmap string string) fr :
  NoDup fields.*1 -> fr ∈ zip fields rs ->
  foldl (fun acc fr => <[fr.1.1 := aligned fr]> acc) acc (zip fields rs) !! fr.1.1
  = Some (aligned fr).
Proof.
  revert rs acc. induction fields as [|field fields IH]; intros rs acc Hnd Hin.
  - by apply elem_of_nil in Hin.
  - destruct rs as [|r rs]; [by apply elem_of_nil in Hin |].
    simpl in Hnd. apply NoDup_cons in Hnd as [Hout Hnd].
    cbn [zip zip_with foldl] in Hin |- *.
    apply elem_of_cons in Hin as [-> | Hin]; [| by apply IH].
    cbn [fst snd]. rewrite inserts_other by done. by rewrite lookup_insert_eq.
Qed.

Lemma format_raises kwargs self e :
  (render_values kwargs self).1 = Err e -> (format kwargs self).1 = Err e.
Proof.
  intros H. unfold format, mbind, method_bind.
  match goal with |- (bind _ ?k _).1 = _ => generalize k end.
  intros k. unfold bind.
  destruct (render_values kwargs self) as [[c|e'] s']; simpl in *; congruence.
Qed.

(** The first line of a new object is what [str.format] makes of the
    messages themselves. *)
Lemma first_format sep_ fields values writer :
  NoDup fields.*1 -> Forall (fun field => plain_ok field.2 = true) fields ->
  length values = length fields ->
  init [] sep_ (declare fields) = Ok writer ->
  (format (zip fields.*1 values) writer).1 =
  rmap (join sep_)
    (collect (fun fv : string * plain * value =>
                str_format (plain_text fv.1.2) [fv.2]) (zip fields values)).
Proof.
  intros Hnd Hok Hlen Hinit.
  destruct (init_plain sep_ fields Hnd Hok) as (w & Hw & Hv & Hn & Hsep & Hs).
  rewrite Hinit in Hw. injection Hw as <-.
  rewrite collect_plain by done.
  assert ((render_values (zip fields.*1 values) writer).1 =
          rmap (fun rs => foldl (fun acc fr => <[fr.1.1 := aligned fr]> acc) ∅
                            (zip fields rs))
               (collect natural_of (zip fields values))) as Hloop.
  { apply render_plain; try done. intros name m Hin.
    destruct (Hs name m Hin) as (_ & ? & ? & ?). done. }
  destruct (collect natural_of (zip fields values)) as [rs|e] eqn:Hc.
  2:{ simpl in *. by apply format_raises. }
  simpl in Hloop |- *.
  pose proof (render_values_grows (zip fields.*1 values) writer) as Hg.
  destruct (render_values (zip fields.*1 values) writer) as [r self'] eqn:Hrender.
  simpl in Hloop, Hg. subst r. destruct Hg as (Hsep' & Hn' & Hm' & _).
  apply collect_length in Hc. rewrite length_zip_with_l_eq in Hc by lia.
  rewrite (format_intro _ _ _ _ (line_of <$> zip fields rs) Hrender).
  { simpl. by rewrite Hsep', Hsep. }
  rewrite Hn', Hn.
  rewrite <- (fst_zip fields rs) at 1 by lia.
  rewrite <- list_fmap_compose.
  apply Forall2_fmap, Forall_Forall2_diag, Forall_forall.
  intros [[name m] r] Hin. unfold compose. cbn [fst snd].
  unfold literal_of, item. rewrite Hm'.
  assert ((name, m) ∈ fields) as Hf by (by apply elem_of_zip_l in Hin).
  destruct (Hs name m Hf) as (-> & _).
  rewrite (inserts_lookup fields rs ∅ (name, m, r) Hnd Hin).
  cbn [mbind result_bind rbind].
  pose proof (proj1 (Forall_forall _ _) Hok _ Hf) as Hm.
  apply plain_ok_spec in Hm as (Hpre & Hsuf & _).
  by rewrite str_format_stored.
Qed.

(** ** Lines over a lifetime of [format] calls *)

Lemma run_calls_format_grows self calls :
  Forall (fun c => is_format c = true) calls -> grows self (run_calls self calls).
Proof.
  revert self. induction calls as [|c calls IH]; intros self Hall; simpl; [done |].
  apply Forall_cons in Hall as [Hc Hall]. destruct c as [kwargs|]; [| done].
  etrans; [apply (format_grows kwargs) | by apply IH].
Qed.

(** The line of a call is no longer than the line of a later call on the
    same object, widened or not in between; the two have the same length
    when the later call leaves the widths as the earlier one left them. *)
Lemma lines_grow self k1 o1 s1 s2 k2 o2 s3 :
  valid self -> format k1 self = (Ok o1, s1) -> grows s1 s2 ->
  format k2 s2 = (Ok o2, s3) ->
  String.length o1 <= String.length o2 /\
  (pad_lengths s3 = pad_lengths s1 -> String.length o1 = String.length o2).
Proof.
  intros Hv H1 Hg H2.
  destruct (format_ok _ _ _ _ H1) as (c1 & l1 & Hr1 & Hl1 & ->).
  destruct (format_ok _ _ _ _ H2) as (c2 & l2 & Hr2 & Hl2 & ->).
  pose proof (render_values_grows k1 self) as Hg1.
  rewrite Hr1 in Hg1. simpl in Hg1.
  pose proof (render_values_grows k2 s2) as Hg2.
  rewrite Hr2 in Hg2. simpl in Hg2.
  pose proof (grows_valid _ _ Hg (grows_valid _ _ Hg1 Hv)) as Hv2.
  assert (grows s1 s3) as Hg13 by (by etrans).
  destruct Hg13 as (Hsep & Hn & Hm & _ & _ & Hp).
  rewrite Hn in Hl2. rewrite Hsep.
  assert (forall name e1 e2, c1 !! name = Some e1 -> c2 !! name = Some e2 ->
            String.length e1 <= String.length e2 /\
            (pad_lengths s3 = pad_lengths s1 -> String.length e1 = String.length e2))
    as Hw.
  { intros name e1 e2 E1 E2.
    pose proof (render_values_widths _ _ _ _ _ _ Hv Hr1 E1) as W1.
    pose proof (render_values_widths _ _ _ _ _ _ Hv2 Hr2 E2) as W2.
    specialize (Hp name). rewrite W1, W2 in Hp. split; [done |].
    intros Heq. rewrite Heq, W1 in W2. by injection W2. }
  split.
  - apply join_length_le.
    apply (literals_compare le s1 s3 c1 c2 (names s1)); try done.
    intros name e1 e2 _ E1 E2 o o' [-> | Hs]; [done |].
    destruct (Hw name e1 e2 E1 E2) as [Hle _]. lia.
  - intros Heq. apply join_length_eq.
    apply (literals_compare eq s1 s3 c1 c2 (names s1)); try done.
    intros name e1 e2 _ E1 E2 o o' [-> | Hs]; [done |].
    destruct (Hw name e1 e2 E1 E2) as [_ He]. specialize (He Heq). lia.
Qed.

(** ** The demonstration program *)

Lemma model_writer_eq sep_ :
  model_writer sep_ =
  Ok {| sep := sep_; names := ["iter"; "value"; "delta"];
        messages := {["iter" := "    Iteration: {}"; "value" := "value: {}";
                      "delta" := "delta: {}"]};
        bases := {["iter" := "d"; "value" := "f"; "delta" := "f"]};
        pad_lengths := {["iter" := 0; "value" := 0; "delta" := 0]};
        decimals := {["iter" := None; "value" := None; "delta" := None]} |}.
Proof. vm_compute. reflexivity. Qed.

(** Every call of the loop returns, on the writer of the program and on
    every object that its calls make of it. *)
Lemma model_format sep_ writer self iter running_value delta :
  model_writer sep_ = Ok writer -> grows writer self ->
  exists line self',
    format (model_values iter running_value delta) self = (Ok line, self') /\
    grows writer self' /\ valid self.
Proof.
  rewrite model_writer_eq. intros [= <-] Hg.
  set (writer := {| sep := sep_ |}) in *.
  assert (valid writer) as Hv by by_compute.
  assert (precise writer) as Hp by by_compute.
  pose proof (grows_valid _ _ Hg Hv) as Hv'.
  pose proof (grows_precise _ _ Hg Hp) as Hp'.
  pose proof Hg as (Hsep & Hn & Hm & Hb & Hd & Hpad).
  destruct (format_returns (model_values iter running_value delta) self)
    as (line & self' & Hf); try done.
  - rewrite Hm. by_compute.
  - rewrite Hn. by_compute.
  - unfold model_values, well_typed. rewrite Hb. repeat constructor.
  - exists line, self'. split; [done |]. split; [| done].
    pose proof (format_grows (model_values iter running_value delta) self) as Hg'.
    rewrite Hf in Hg'. simpl in Hg'. by etrans.
Qed.

Lemma model_loop_lines sep_ writer self iter draws :
  model_writer sep_ = Ok writer -> grows writer self ->
  exists lines,
    model_loop self iter draws = Ok lines /\
    StronglySorted (fun l l' => String.length l <= String.length l') lines /\
    forall s0 k0 o0 s1,
      valid s0 -> format k0 s0 = (Ok o0, s1) -> grows s1 self ->
      Forall (fun l => String.length o0 <= String.length l) lines.
Proof.
  intros Hw. revert self iter.
  induction draws as [|[delta running_value] draws IH]; intros self iter Hg.
  - exists []. repeat split; constructor.
  - cbn [model_loop]. destruct (iter mod 10 =? 0)%Z; [| by apply IH].
    destruct (model_format sep_ writer self iter running_value delta Hw Hg)
      as (line & self' & Hf & Hg' & Hv).
    rewrite Hf. destruct (IH self' (iter + 1)%Z Hg') as (lines & -> & Hs & Hb).
    exists (line :: lines). split; [done |].
    pose proof (format_grows (model_values iter running_value delta) self) as Hgs.
    rewrite Hf in Hgs. simpl in Hgs.
    split.
    + constructor; [done |]. by eapply Hb.
    + intros s0 k0 o0 s1 Hv0 Hf0 Hg0. constructor.
      * by destruct (lines_grow _ _ _ _ _ _ _ _ Hv0 Hf0 Hg0 Hf).
      * eapply Hb; [done | done |]. by etrans.
Qed.

(** ** Where a [format] call raises *)



(** ** A closing brace outside the pattern *)







(** * Further properties *)

(** X1. A [format] call, whatever its arguments and whether it returns or
    raises, changes nothing of the object but stored widths: the
    separator, the list of names, the stored messages, types and
    precisions are as before, and the widths are stored for the same
    names. *)
Theorem format_touches_widths_only (kwargs : list (string * value))
    (self : Iterwriter) :
  let self' := (format kwargs self).2 in
  sep self' = sep self /\ names self' = names self /\
  messages self' = messages self /\ bases self' = bases self /\
  decimals self' = decimals self /\
  dom (pad_lengths self') = dom (pad_lengths self).
Proof.
  pose proof (format_grows kwargs self) as Hg.
  pose proof (grows_dom _ _ Hg) as Hdom.
  destruct Hg as (? & ? & ? & ? & ? & _). by repeat split.
Qed.

(** X2. On an object that satisfies the class invariant, the loop of
    [format] over keyword arguments with distinct names stores for each
    supplied name exactly the larger of the width stored before and the
    length of the natural rendering of the value (its rendering at width
    0), renders the value as that text right-aligned in the new width,
    and leaves the widths of the other names as they were. *)
Theorem stored_width_exact (self : Iterwriter) (kwargs : list (string * value))
    (composed : gmap string string) (self' : Iterwriter) :
  valid self -> NoDup kwargs.*1 ->
  render_values kwargs self = (Ok composed, self') ->
  (forall name v, (name, v) ∈ kwargs ->
     exists base pad dec s,
       bases self !! name = Some base /\ pad_lengths self !! name = Some pad /\
       decimals self !! name = Some dec /\ natural base dec v = Ok s /\
       pad_lengths self' !! name = Some (pad `max` String.length s) /\
       composed !! name = Some (lpad (pad `max` String.length s) s)) /\
  (forall name, name ∉ kwargs.*1 ->
     pad_lengths self' !! name = pad_lengths self !! name).
Proof.
  intros Hv Hnd Hloop. split.
  - by apply (loop_exact kwargs ∅).
  - intros name Hout. pose proof (loop_other kwargs ∅ self name Hout) as H.
    unfold render_values in Hloop. by rewrite Hloop in H.
Qed.

Lemma stored_width_exact_witness :
  valid counter /\ NoDup [("count", VInt 123456)].*1 /\
  render_values [("count", VInt 123456)] counter
    = (Ok {["count" := "123456"]}, set_pad_lengths "count" 6 counter) /\
  (exists base pad dec s,
     bases counter !! "count" = Some base /\
     pad_lengths counter !! "count" = Some pad /\
     decimals counter !! "count" = Some dec /\
     natural base dec (VInt 123456) = Ok s /\
     pad_lengths (set_pad_lengths "count" 6 counter) !! "count"
       = Some (pad `max` String.length s) /\
     ({["count" := "123456"]} : gmap string string) !! "count"
       = Some (lpad (pad `max` String.length s) s)).
Proof.
  pose proof counter_valid as Hv.
  assert (NoDup [("count", VInt 123456)].*1) as Hnd by by_compute.
  assert (render_values [("count", VInt 123456)] counter
          = (Ok {["count" := "123456"]}, set_pad_lengths "count" 6 counter))
    as Hr by (vm_compute; reflexivity).
  split; [exact Hv |]. split; [exact Hnd |]. split; [exact Hr |].
  apply (proj1 (stored_width_exact counter _ _ _ Hv Hnd Hr) "count" (VInt 123456)).
  by left.
Defined.

(** X3. On an object that satisfies the class invariant, repeating a
    [format] call with the same keyword arguments (distinct names) gives
    the same result, the same line or the same exception, and leaves
    the object as the first call left it. *)
Theorem format_repeatable (self : Iterwriter) (kwargs : list (string * value))
    (r : result string) (self' : Iterwriter) :
  valid self -> NoDup kwargs.*1 ->
  format kwargs self = (r, self') -> format kwargs self' = (r, self').
Proof.
  intros Hv Hnd Hf.
  destruct (render_values kwargs self) as [rr s1] eqn:Hloop.
  pose proof (format_state kwargs self) as Hs.
  rewrite Hf, Hloop in Hs. simpl in Hs. subst s1.
  pose proof (render_values_again _ _ _ _ Hv Hnd Hloop) as Hagain.
  by rewrite <- (format_after_loop _ _ _ _ _ _ Hloop Hagain).
Qed.

Lemma format_repeatable_witness :
  valid counter /\ NoDup [("count", VInt 123456)].*1 /\
  format [("count", VInt 123456)] counter
    = (Ok "count:123456", set_pad_lengths "count" 6 counter) /\
  format [("count", VInt 123456)] (set_pad_lengths "count" 6 counter)
    = (Ok "count:123456", set_pad_lengths "count" 6 counter).
Proof.
  pose proof counter_valid as Hv.
  assert (NoDup [("count", VInt 123456)].*1) as Hnd by by_compute.
  assert (format [("count", VInt 123456)] counter
          = (Ok "count:123456", set_pad_lengths "count" 6 counter))
    as Hf by (vm_compute; reflexivity).
  split; [exact Hv |]. split; [exact Hnd |]. split; [exact Hf |].
  exact (format_repeatable counter _ _ _ Hv Hnd Hf).
Defined.

(** X4. On an object that satisfies the class invariant, the line that a
    [format] call returns is never longer than the line of a later
    [format] call on the same object, whatever [format] calls come in
    between and whether they return or raise; and the two lines have the
    same length when the later call leaves the stored widths as the
    earlier one left them. *)
Theorem line_never_shrinks (self : Iterwriter) (kwargs1 : list (string * value))
    (calls : list call) (kwargs2 : list (string * value))
    (line1 line2 : string) (self1 self2 : Iterwriter) :
  valid self -> Forall (fun c => is_format c = true) calls ->
  format kwargs1 self = (Ok line1, self1) ->
  format kwargs2 (run_calls self1 calls) = (Ok line2, self2) ->
  String.length line1 <= String.length line2 /\
  (pad_lengths self2 = pad_lengths self1 ->
   String.length line1 = String.length line2).
Proof.
  intros Hv Hcalls H1 H2.
  apply (lines_grow self kwargs1 line1 self1 (run_calls self1 calls)
           kwargs2 line2 self2); try done.
  by apply run_calls_format_grows.
Qed.

Lemma line_never_shrinks_witness :
  valid counter /\
  Forall (fun c => is_format c = true) [Format [("count", VFloat one_and_a_half)]] /\
  String.length "count:123456" <= String.length "count:     5" /\
  String.length "count:123456" = String.length "count:     5".
Proof.
  pose proof counter_valid as Hv.
  assert (Forall (fun c => is_format c = true)
            [Format [("count", VFloat one_and_a_half)]]) as Hc by by_compute.
  assert (format [("count", VInt 123456)] counter
          = (Ok "count:123456", set_pad_lengths "count" 6 counter))
    as H1 by (vm_compute; reflexivity).
  assert (format [("count", VInt 5)]
            (run_calls (set_pad_lengths "count" 6 counter)
               [Format [("count", VFloat one_and_a_half)]])
          = (Ok "count:     5", set_pad_lengths "count" 6 counter))
    as H2 by (vm_compute; reflexivity).
  split; [exact Hv |]. split; [exact Hc |].
  destruct (line_never_shrinks counter _ _ _ _ _ _ _ Hv Hc H1 H2) as [Hle Heq].
  split; [exact Hle | exact (Heq eq_refl)].
Defined.

(** X5. On every object that a client can hold (built by the constructor
    from keyword arguments, then used through [add_message] and [format]),
    a precision is stored only for a field of type [f]. *)
Theorem precision_only_for_float (self : Iterwriter) (name : string) (p : nat) :
  reachable self -> decimals self !! name = Some (Some p) ->
  bases self !! name = Some "f".
Proof.
  intros Hr Hd. apply (reachable_precise self Hr name (Some p) Hd). by eexists.
Qed.

Lemma precision_only_for_float_witness :
  reachable gauge /\ decimals gauge !! "delta" = Some (Some 2) /\
  bases gauge !! "delta" = Some "f".
Proof.
  assert (reachable gauge) as Hr.
  { exists " | ", [("delta", VStr "value += {:.2f}")], gauge, [].
    split; [by_compute |]. split; [vm_compute; reflexivity | reflexivity]. }
  assert (decimals gauge !! "delta" = Some (Some 2)) as Hd by (vm_compute; reflexivity).
  split; [exact Hr |]. split; [exact Hd |].
  exact (precision_only_for_float gauge "delta" 2 Hr Hd).
Defined.






(** X8. On an object that satisfies the class invariant, a [format] call
    whose supplied values all fit (each is registered, and its natural
    rendering is no longer than the stored width of its field) changes
    nothing in the object, and renders every supplied value at exactly
    the stored width of its field. *)
Theorem fitting_values_change_nothing (self : Iterwriter)
    (kwargs : list (string * value)) :
  valid self -> Forall (fun kv => fits self kv = true) kwargs ->
  (format kwargs self).2 = self /\
  exists composed,
    render_values kwargs self = (Ok composed, self) /\
    forall name s, composed !! name = Some s ->
                   pad_lengths self !! name = Some (String.length s).
Proof.
  intros Hv Hfits.
  destruct (loop_fits kwargs ∅ self Hv Hfits) as [composed Hloop].
  change (render_values kwargs self = (Ok composed, self)) in Hloop.
  split; [by rewrite format_state, Hloop |].
  exists composed. split; [done |].
  intros name s. by apply (render_values_widths kwargs self composed self).
Qed.

Lemma fitting_values_change_nothing_witness :
  valid counter /\ Forall (fun kv => fits counter kv = true) [("count", VInt 5)] /\
  (format [("count", VInt 5)] counter).2 = counter.
Proof.
  pose proof counter_valid as Hv.
  assert (Forall (fun kv => fits counter kv = true) [("count", VInt 5)])
    as Hfits by by_compute.
  split; [exact Hv |]. split; [exact Hfits |].
  exact (proj1 (fitting_values_change_nothing counter _ Hv Hfits)).
Defined.

(** X9. Constructing an object from keyword arguments (with distinct
    names) is the same as constructing it without any and calling
    [add_message] for each of them in order: when every call returns, the
    two objects are equal, the list of names included; when a message is
    rejected, both raise the same exception. *)
Theorem constructor_as_add_messages (sep_ : string)
    (kwargs : list (string * value)) (writer0 : Iterwriter) :
  NoDup kwargs.*1 -> init [] sep_ [] = Ok writer0 ->
  match init [] sep_ kwargs, add_messages kwargs writer0 with
  | Ok self, (Ok _, self') => self = self'
  | Err e, (Err e', _) => e = e'
  | _, _ => False
  end.
Proof.
  intros Hnd [= <-]. rewrite init_eq.
  match goal with |- context [add_messages kwargs ?s1] =>
    pose proof (add_messages_names kwargs s1
                  {| sep := sep_; names := []; messages := ∅; bases := ∅;
                     pad_lengths := ∅; decimals := ∅ |}) as H;
    destruct (add_messages kwargs s1) as [[u1|e1] s1'] end;
    cbn [fmap list_fmap] in *;
    destruct (add_messages kwargs _) as [[u2|e2] s2']; by apply H.
Qed.

Lemma constructor_as_add_messages_witness :
  NoDup [("a", VStr "{:3d}"); ("b", VStr "{:3d}")].*1 /\
  init [] " | " [] = Ok blank /\
  match init [] " | " [("a", VStr "{:3d}"); ("b", VStr "{:3d}")],
        add_messages [("a", VStr "{:3d}"); ("b", VStr "{:3d}")] blank with
  | Ok self, (Ok _, self') => self = self'
  | Err e, (Err e', _) => e = e'
  | _, _ => False
  end.
Proof.
  assert (NoDup [("a", VStr "{:3d}"); ("b", VStr "{:3d}")].*1) as Hnd by by_compute.
  assert (init [] " | " [] = Ok blank) as H0 by reflexivity.
  split; [exact Hnd |]. split; [exact H0 |].
  exact (constructor_as_add_messages " | " _ blank Hnd H0).
Defined.

(** X10. The constructor returns an object exactly when
    [validate_message] accepts every message of its keyword arguments;
    otherwise it raises what [validate_message] raises on the first
    message, in the order of the arguments, that it rejects. *)
Theorem constructor_validates (sep_ : string) (kwargs : list (string * value)) :
  ((exists self, init [] sep_ kwargs = Ok self) <->
   Forall (fun kv => validate_message kv.2 = Ok true) kwargs) /\
  (forall good name m rest e,
     kwargs = good ++ (name, m) :: rest ->
     Forall (fun kv => validate_message kv.2 = Ok true) good ->
     validate_message m = Err e ->
     init [] sep_ kwargs = Err e).
Proof.
  split; [split |].
  - intros [self Hinit]. rewrite init_eq in Hinit.
    destruct (add_messages kwargs _) as [[u|e] self'] eqn:Hloop; [| done].
    by eapply add_messages_validated.
  - intros Hall. rewrite init_eq.
    match goal with |- context [add_messages kwargs ?s] =>
      destruct (add_messages_returns kwargs s Hall) as [self' ->] end.
    by eexists.
  - intros good name m rest e -> Hgood Hm. rewrite init_eq.
    match goal with |- context [add_messages ?l ?s] =>
      pose proof (add_messages_raises good name m rest s e Hgood Hm) as H;
      destruct (add_messages l s) as [[u|e'] self'] end; simpl in H; congruence.
Qed.

Lemma constructor_validates_witness :
  Forall (fun kv => validate_message kv.2 = Ok true) [("a", VStr "{:3d}")] /\
  validate_message (VStr "no pattern") = Err NoPattern /\
  init [] " | " [("a", VStr "{:3d}"); ("b", VStr "no pattern");
                 ("c", VStr "{:5.5d}")] = Err NoPattern.
Proof.
  assert (Forall (fun kv => validate_message kv.2 = Ok true) [("a", VStr "{:3d}")])
    as Hgood by (repeat constructor).
  assert (validate_message (VStr "no pattern") = Err NoPattern) as Hm by reflexivity.
  split; [exact Hgood |]. split; [exact Hm |].
  exact (proj2 (constructor_validates " | " _)
           [("a", VStr "{:3d}")] "b" (VStr "no pattern") [("c", VStr "{:5.5d}")]
           NoPattern eq_refl Hgood Hm).
Defined.

(** X11. [add_message] with a message made of text without braces, one
    canonical pattern and text without braces returns; afterwards the
    name is listed, at its old place when it was registered and last
    when it was not, the stored message is the message with [{}] for its
    pattern, the pattern that [format] composes for the name is the
    pattern of the message with its width written out (0 when the
    message declares none), and what is stored for the other names is
    untouched. *)
Theorem add_message_stores (self : Iterwriter) (name pre typeTag : string)
    (minWidth precision : option nat) (suf : string) :
  brace_free pre = true -> brace_free suf = true ->
  valid_triple typeTag minWidth precision = true ->
  exists self',
    add_message name
      (VStr (pre +:+ canonical_pattern (Some typeTag) minWidth precision +:+ suf))
      self = (Ok (), self') /\
    names self' =
      (if bool_decide (name ∈ names self) then names self
       else names self ++ [name]) /\
    sep self' = sep self /\
    messages self' !! name = Some (pre +:+ "{}" +:+ suf) /\
    field_pattern name self' =
      (Ok (canonical_pattern (Some typeTag) (Some (default 0 minWidth)) precision),
       self') /\
    forall other, other <> name ->
      messages self' !! other = messages self !! other /\
      bases self' !! other = bases self !! other /\
      pad_lengths self' !! other = pad_lengths self !! other /\
      decimals self' !! other = decimals self !! other.
Proof.
  intros Hpre Hsuf Ht. eexists. split; [by apply add_message_plain |].
  destruct (register_fields name (pre +:+ "{}" +:+ suf) typeTag
              (default 0 minWidth) precision self) as (Hs & Hm & Hb & Hp & Hd).
  split; [apply register_names |]. split; [done |].
  split; [by rewrite Hm, lookup_insert_eq |]. split.
  - rewrite field_pattern_eq. unfold item.
    rewrite Hb, Hp, Hd. by rewrite !lookup_insert_eq.
  - intros other Hne. rewrite Hm, Hb, Hp, Hd. by rewrite !lookup_insert_ne.
Qed.

Lemma add_message_stores_witness :
  brace_free "(best: " = true /\ brace_free ")" = true /\
  valid_triple "f" (Some 6) (Some 2) = true /\
  exists self',
    add_message "best" (VStr "(best: {:6.2f})") counter = (Ok (), self') /\
    names self' = ["count"; "best"] /\
    messages self' !! "best" = Some "(best: {})" /\
    field_pattern "best" self' = (Ok "{:6.2f}", self') /\
    pad_lengths self' !! "count" = Some 4.
Proof.
  assert (brace_free "(best: " = true) as Hpre by reflexivity.
  assert (brace_free ")" = true) as Hsuf by reflexivity.
  assert (valid_triple "f" (Some 6) (Some 2) = true) as Ht by reflexivity.
  split; [exact Hpre |]. split; [exact Hsuf |]. split; [exact Ht |].
  destruct (add_message_stores counter "best" "(best: " "f" (Some 6) (Some 2) ")"
              Hpre Hsuf Ht) as (self' & Ha & Hn & _ & Hm & Hf & Ho).
  exists self'. split; [exact Ha |]. split; [exact Hn |]. split; [exact Hm |].
  split; [exact Hf |].
  destruct (Ho "count") as (_ & _ & Hp & _); [discriminate |].
  rewrite Hp. reflexivity.
Defined.

(** X12. A zero written before the width of a pattern, the flag with
    which [str.format] pads with zeros, is read as part of the width:
    [add_message] stores for the message what it stores for the message
    without the zero, so the field is padded with spaces. *)
Theorem zero_flag_is_dropped (self : Iterwriter) (name pre typeTag : string)
    (minWidth : nat) (precision : option nat) (suf : string) :
  brace_free pre = true -> brace_free suf = true ->
  valid_triple typeTag (Some minWidth) precision = true ->
  add_message name
    (VStr (pre +:+ "{:0" +:+ spec_text typeTag (Some minWidth) precision
               +:+ "}" +:+ suf)) self =
  add_message name
    (VStr (pre +:+ canonical_pattern (Some typeTag) (Some minWidth) precision
               +:+ suf)) self.
Proof.
  intros Hpre Hsuf Ht. rewrite add_message_plain by done.
  apply valid_triple_spec in Ht as [Ht Hp].
  change (pre +:+ "{:0" +:+ spec_text typeTag (Some minWidth) precision
              +:+ "}" +:+ suf)
    with (pre +:+ String "{"
            ((String ":" (String "0" (spec_text typeTag (Some minWidth) precision)))
             +:+ String "}" suf)).
  apply add_message_site; try done.
  - change (negb (is_brace ":") &&
            (negb (is_brace "0") &&
             brace_free (spec_text typeTag (Some minWidth) precision)) = true).
    by rewrite spec_text_brace_free.
  - by apply decompose_zero_flag.
Qed.

Lemma zero_flag_is_dropped_witness :
  brace_free "n:" = true /\ brace_free "" = true /\
  valid_triple "d" (Some 5) None = true /\
  add_message "n" (VStr "n:{:05d}") counter
  = add_message "n" (VStr "n:{:5d}") counter.
Proof.
  assert (brace_free "n:" = true) as Hpre by reflexivity.
  assert (brace_free "" = true) as Hsuf by reflexivity.
  assert (valid_triple "d" (Some 5) None = true) as Ht by reflexivity.
  split; [exact Hpre |]. split; [exact Hsuf |]. split; [exact Ht |].
  exact (zero_flag_is_dropped counter "n" "n:" "d" 5 None "" Hpre Hsuf Ht).
Defined.

(** X13. A width is read only after a colon: for a message whose site
    holds the width, the precision and the type without the colon,
    [add_message] stores what it stores for the pattern without a width,
    and the width is ignored. *)
Theorem width_needs_colon (self : Iterwriter) (name pre typeTag : string)
    (minWidth precision : option nat) (suf : string) :
  brace_free pre = true -> brace_free suf = true ->
  valid_triple typeTag minWidth precision = true ->
  add_message name
    (VStr (pre +:+ "{" +:+ spec_text typeTag minWidth precision +:+ "}" +:+ suf))
    self =
  add_message name
    (VStr (pre +:+ canonical_pattern (Some typeTag) None precision +:+ suf)) self.
Proof.
  intros Hpre Hsuf Ht.
  apply valid_triple_spec in Ht as [Ht Hp].
  rewrite add_message_plain by (done || by apply valid_triple_spec).
  change (pre +:+ "{" +:+ spec_text typeTag minWidth precision +:+ "}" +:+ suf)
    with (pre +:+ String "{" (spec_text typeTag minWidth precision
                              +:+ String "}" suf)).
  apply add_message_site; try done.
  - by apply spec_text_brace_free.
  - by apply decompose_no_colon.
Qed.

Lemma width_needs_colon_witness :
  brace_free "(best: " = true /\ brace_free ")" = true /\
  valid_triple "f" (Some 6) (Some 2) = true /\
  add_message "best" (VStr "(best: {6.2f})") counter
  = add_message "best" (VStr "(best: {:.2f})") counter.
Proof.
  assert (brace_free "(best: " = true) as Hpre by reflexivity.
  assert (brace_free ")" = true) as Hsuf by reflexivity.
  assert (valid_triple "f" (Some 6) (Some 2) = true) as Ht by reflexivity.
  split; [exact Hpre |]. split; [exact Hsuf |]. split; [exact Ht |].
  exact (width_needs_colon counter "best" "(best: " "f" (Some 6) (Some 2) ")"
           Hpre Hsuf Ht).
Defined.

(** X14. The first line of a new object is what [str.format] makes of
    the messages themselves: for fields declared (under distinct names)
    by messages made of text without braces, one canonical pattern and
    text without braces, the constructor returns an object, and its
    first [format] call, given one value for each field in the order of
    the declarations, returns the messages applied to their values by
    [str.format] and joined by the separator, or raises what the first of
    these applications raises. *)
Theorem first_line_is_str_format (sep_ : string) (fields : list (string * plain))
    (values : list value) :
  NoDup fields.*1 -> Forall (fun field => plain_ok field.2 = true) fields ->
  length values = length fields ->
  exists writer,
    init [] sep_ (declare fields) = Ok writer /\
    (format (zip fields.*1 values) writer).1 =
    rmap (join sep_)
      (collect (fun fv : string * plain * value =>
                  str_format (plain_text fv.1.2) [fv.2]) (zip fields values)).
Proof.
  intros Hnd Hok Hlen.
  destruct (init_plain sep_ fields Hnd Hok) as (writer & Hinit & _).
  exists writer. split; [done |]. by apply first_format.
Qed.

Lemma first_line_is_str_format_witness :
  let fields :=
    [("count", {| plain_pre := "count: "; plain_type := "d";
                  plain_width := Some 4; plain_precision := None;
                  plain_suf := "" |});
     ("delta", {| plain_pre := "value += "; plain_type := "f";
                  plain_width := None; plain_precision := Some 2;
                  plain_suf := "" |})] in
  NoDup fields.*1 /\ Forall (fun field => plain_ok field.2 = true) fields /\
  length [VInt 100; VFloat a_twentieth] = length fields /\
  exists writer,
    init [] " | " [("count", VStr "count: {:4d}");
                   ("delta", VStr "value += {:.2f}")] = Ok writer /\
    (format [("count", VInt 100); ("delta", VFloat a_twentieth)] writer).1
    = Ok "count:  100 | value += 0.05".
Proof.
  intros fields.
  assert (NoDup fields.*1) as Hnd by by_compute.
  assert (Forall (fun field => plain_ok field.2 = true) fields) as Hok
    by (repeat constructor).
  assert (length [VInt 100; VFloat a_twentieth] = length fields) as Hlen
    by reflexivity.
  split; [exact Hnd |]. split; [exact Hok |]. split; [exact Hlen |].
  destruct (first_line_is_str_format " | " fields [VInt 100; VFloat a_twentieth]
              Hnd Hok Hlen) as (writer & Hinit & Hline).
  exists writer. split; [exact Hinit |].
  refine (eq_trans Hline _). vm_compute. reflexivity.
Defined.

(** X15. The demonstration program, run with its option [--iterwrite],
    never stops on an exception of the writer, whatever floats its random
    draws give and whatever the number of iterations and the separator:
    every [format] call of its loop returns, and no printed line is
    shorter than a line printed before it. *)
Theorem model_lines_never_shrink (sep_ : string)
    (draws : list (spec_float * spec_float)) :
  exists lines,
    model_run sep_ draws = Ok lines /\
    StronglySorted (fun l l' => String.length l <= String.length l') lines.
Proof.
  unfold model_run.
  destruct (model_writer sep_) as [writer|e] eqn:Hw.
  2:{ by rewrite model_writer_eq in Hw. }
  destruct (model_loop_lines sep_ writer writer 0 draws Hw) as (lines & Hl & Hs & _);
    [done |].
  exists lines. by split.
Qed.

(** X16. [add_message] returns exactly when [validate_message] accepts
    the message, and then the name is registered; it raises exactly what
    [validate_message] raises on the message, and then the object is
    unchanged.  No later step of [add_message] raises. *)
Theorem add_message_raises_as_validate (name : string) (m : value)
    (self : Iterwriter) :
  match validate_message m with
  | Ok _ =>
      exists self', add_message name m self = (Ok (), self') /\
                    name ∈ names self' /\ is_Some (messages self' !! name)
  | Err e => add_message name m self = (Err e, self)
  end.
Proof.
  destruct (validate_message m) as [b|e] eqn:Hm.
  - destruct (validate_message_ok _ _ Hm)
      as (s & pattern & base & pad & dec & -> & Hf & Hd & _).
    rewrite (add_message_ok _ _ _ _ _ _ _ _ Hm Hf Hd). eexists. split; [done |].
    split.
    + rewrite register_names. case_bool_decide; [done |]. set_solver.
    + destruct (register_fields name (sub_pattern "{}" s) base (default 0 pad) dec self)
        as (_ & -> & _). rewrite lookup_insert_eq. by eexists.
  - by apply add_message_err.
Qed.

(** X17. A registered name stays registered, at its place: over every
    sequence of [add_message] and [format] calls, returning or raising,
    the list of names of the object only grows at its end. *)
Theorem names_only_grow (self : Iterwriter) (calls : list call) :
  names self `prefix_of` names (run_calls self calls).
Proof.
  revert self. induction calls as [|c calls IH]; intros self; [done |].
  change (run_calls self (c :: calls)) with (run_calls (run_call self c) calls).
  etrans; [| apply IH]. destruct c as [kwargs | name m]; unfold run_call.
  - by destruct (format_grows kwargs self) as (_ & -> & _).
  - destruct (validate_message m) as [b|e] eqn:Hm.
    + destruct (validate_message_ok _ _ Hm)
        as (s & pattern & base & pad & dec & -> & Hf & Hd & _).
      rewrite (add_message_ok _ _ _ _ _ _ _ _ Hm Hf Hd). cbn [snd].
      rewrite register_names. case_bool_decide; [done |]. by apply prefix_app_r.
    + by rewrite (add_message_err _ _ _ _ Hm).
Qed.

(** X18. A [format] call without arguments returns the empty line on an
    object without registered names, and on every other object raises
    the missing-field error naming all the registered names; it changes
    nothing. *)
Theorem format_without_arguments (self : Iterwriter) :
  format [] self =
  match names self with
  | [] => (Ok "", self)
  | _ :: _ => (Err (MissingFields (list_to_set (names self))), self)
  end.
Proof.
  destruct (names self) as [|name l] eqn:Hn.
  - rewrite (format_intro [] self ∅ self []).
    + reflexivity.
    + reflexivity.
    + rewrite Hn. constructor.
  - rewrite (format_missing [] self ∅ self).
    + rewrite Hn, dom_empty_L. by rewrite difference_empty_L.
    + reflexivity.
    + exists name. rewrite Hn, dom_empty_L. set_solver.
Qed.




(** X21. What a line is.  On an object that satisfies the class
    invariant, the line that a [format] call (keyword arguments with
    distinct names) returns is the join, by the separator and in
    registration order, of one part for each registered name: the stored
    message of the name applied by [str.format] to the natural rendering
    of the value supplied for it, right-aligned in the larger of the
    width stored before the call and its own length, which is the width
    stored after the call.  For a stored message made of text without
    braces around [{}], the part is the rendered value between the two
    texts. *)
Theorem format_line_exact (self : Iterwriter) (kwargs : list (string * value))
    (line : string) (self' : Iterwriter) :
  valid self -> NoDup kwargs.*1 -> format kwargs self = (Ok line, self') ->
  exists parts,
    line = join (sep self) parts /\
    Forall2 (fun name part =>
      exists message v base pad dec s element,
        messages self !! name = Some message /\ (name, v) ∈ kwargs /\
        bases self !! name = Some base /\ pad_lengths self !! name = Some pad /\
        decimals self !! name = Some dec /\ natural base dec v = Ok s /\
        element = lpad (pad `max` String.length s) s /\
        pad_lengths self' !! name = Some (String.length element) /\
        str_format message [VStr element] = Ok part /\
        (forall pre suf,
           brace_free pre = true -> brace_free suf = true ->
           message = pre +:+ "{}" +:+ suf -> part = pre +:+ element +:+ suf))
      (names self) parts.
Proof.
  intros Hv Hnd Hf.
  destruct (format_ok _ _ _ _ Hf) as (composed & literals & Hloop & Hlits & ->).
  pose proof (render_values_grows kwargs self) as Hg.
  rewrite Hloop in Hg. cbn [snd] in Hg. destruct Hg as (Hsep & Hn & Hm & _).
  pose proof (loop_dom _ _ _ _ _ Hloop) as Hdom.
  rewrite dom_empty_L, (left_id_L ∅ (∪)) in Hdom.
  exists literals. rewrite Hsep. split; [done |]. rewrite <- Hn.
  eapply Forall2_impl; [exact Hlits |]. intros name part Hpart.
  unfold literal_of, item in Hpart. rewrite Hm in Hpart.
  destruct (messages self !! name) as [message|] eqn:Em; [| done].
  destruct (composed !! name) as [element|] eqn:Ec; [| done].
  cbn [mbind result_bind rbind] in Hpart.
  assert (name ∈ kwargs.*1) as Hin.
  { apply (elem_of_list_to_set (C:=gset string)). rewrite <- Hdom.
    apply elem_of_dom. by eexists. }
  apply list_elem_of_fmap in Hin as ([name' v] & -> & Hin). cbn [fst] in *.
  destruct (loop_exact kwargs ∅ self composed self' Hv Hnd Hloop name' v Hin)
    as (base & pad & dec & s & Eb & Ep & Ed & En & Hp' & Hc).
  rewrite Ec in Hc. injection Hc as ->.
  exists message, v, base, pad, dec, s, (lpad (pad `max` String.length s) s).
  repeat split; try done.
  - rewrite Hp', length_lpad. f_equal. lia.
  - intros pre suf Hpre Hsuf ->. rewrite str_format_stored in Hpart by done.
    by injection Hpart.
Qed.

Lemma format_line_exact_witness :
  valid pair /\ NoDup [("b", VInt 12345); ("a", VInt 1)].*1 /\
  format [("b", VInt 12345); ("a", VInt 1)] pair
    = (Ok "  1 | 12345", set_pad_lengths "b" 5 pair) /\
  exists parts,
    "  1 | 12345" = join (sep pair) parts /\ length parts = length (names pair).
Proof.
  pose proof pair_valid as Hv.
  assert (NoDup [("b", VInt 12345); ("a", VInt 1)].*1) as Hnd by by_compute.
  assert (format [("b", VInt 12345); ("a", VInt 1)] pair
          = (Ok "  1 | 12345", set_pad_lengths "b" 5 pair)) as Hf
    by (vm_compute; reflexivity).
  split; [exact Hv |]. split; [exact Hnd |]. split; [exact Hf |].
  destruct (format_line_exact pair _ _ _ Hv Hnd Hf) as (parts & Hline & Hparts).
  exists parts. split; [exact Hline |].
  symmetry. exact (Forall2_length _ _ _ Hparts).
Defined.
